(** * covid19_scenarios: the integration engine of [src/algorithms/model.ts]

    A shallow embedding of the age-stratified compartmental model's
    integrator: [fluxes], [derivative], [sumDerivatives], [advanceState],
    [stepODE] and [evolve], and the properties of the capacity-constrained
    state advance and of the Runge-Kutta driver; and of [collectTotals],
    which sums a trajectory into the exported records.

    Numbers.  The source computes with IEEE doubles.  Here a [number] is an
    exact rational ([Q]); rounding, [NaN] and the infinities are not
    represented.  Wherever the source would read an absent array element
    ([undefined], which arithmetic turns into [NaN]), leave a hole in an
    array, or divide by zero, the embedding stops with [OutOfModel]: the
    source itself carries on, with values this development says nothing
    about.  Where the source throws (a property read on [undefined]) the
    embedding stops with [TypeError]. *)

From Stdlib Require Import QArith Qround Qminmax Qabs Lqa Lia.
From stdpp Require Import base list gmap strings pretty.
From Equations Require Import Equations.

Local Open Scope Q_scope.

(** ** Numbers and comparisons *)

(** The source's [number]. *)
Abbreviation number := Q (only parsing).

(** [x > y] and [x < y] on numbers, as booleans. *)
Definition gtb (x y : number) : bool := negb (Qle_bool x y).
Definition ltb (x y : number) : bool := negb (Qle_bool y x).

(** ** Outcomes of a call *)

Inductive outcome (A : Type) : Type :=
| Ok (a : A)
| TypeError
| OutOfModel.
Arguments Ok {A} a.
Arguments TypeError {A}.
Arguments OutOfModel {A}.

Definition bind {A B : Type} (m : outcome A) (k : A -> outcome B) : outcome B :=
  match m with
  | Ok a => k a
  | TypeError => TypeError
  | OutOfModel => OutOfModel
  end.

Notation "'let*' x ':=' m 'in' k" := (bind m (fun x => k))
  (at level 10, x name, m at level 100, k at level 200).

(** ** Arrays *)

(** [arr[i]] read as a number: an absent element is [undefined]. *)
Definition get {A : Type} (arr : list A) (i : nat) : outcome A :=
  match arr !! i with
  | Some x => Ok x
  | None => OutOfModel
  end.

(** [arr[i]] read as an array whose [length] (or [forEach], [map]) is taken
    next: on an absent element that property read throws. *)
Definition get_array {A : Type} (arr : list (list A)) (i : nat) : outcome (list A) :=
  match arr !! i with
  | Some x => Ok x
  | None => TypeError
  end.

(** [arr[i] = v]: overwrites inside the array, appends at its end, and
    beyond the end would leave holes. *)
Definition set {A : Type} (arr : list A) (i : nat) (v : A) : outcome (list A) :=
  if (i <? length arr)%nat then Ok (<[i:=v]> arr)
  else if (i =? length arr)%nat then Ok (arr ++ [v])
  else OutOfModel.

(** [arr[i] += v] and the like: read, combine, write back. *)
Definition modify (arr : list number) (i : nat) (f : number -> number) : outcome (list number) :=
  let* x := get arr i in
  set arr i (f x).

(** [x / y] with a divisor that is not a literal. *)
Definition div (x y : number) : outcome number :=
  if Qeq_bool y 0 then OutOfModel else Ok (x / y).

(** [arr.reduce((a, b) => a + b, 0)] *)
Definition sum (arr : list number) : number := fold_left Qplus arr 0.
Arguments sum : simpl never.

(** [for (let age = start; age < start + count; age++) body] *)
Fixpoint for_up {S : Type} (count age : nat) (body : nat -> S -> outcome S) (s : S)
  : outcome S :=
  match count with
  | O => Ok s
  | Datatypes.S count' => let* s' := body age s in for_up count' (Datatypes.S age) body s'
  end.

(** ** Data model ([types/Result.types], as the integrator uses it) *)

Module InternalCurrentData.
Record t : Type := mk {
  susceptible : list number;
  exposed : list (list number);
  infectious : list number;
  severe : list number;
  critical : list number;
  overflow : list number
}.
Definition empty : t := mk [] [] [] [] [] [].
End InternalCurrentData.

Module InternalCumulativeData.
Record t : Type := mk {
  recovered : list number;
  hospitalized : list number;
  critical : list number;
  fatality : list number
}.
Definition empty : t := mk [] [] [] [].
End InternalCumulativeData.

Module SimulationTimePoint.
Record t : Type := mk {
  time : number;
  current : InternalCurrentData.t;
  cumulative : InternalCumulativeData.t
}.
End SimulationTimePoint.

Module TimeDerivative.
Record t : Type := mk {
  current : InternalCurrentData.t;
  cumulative : InternalCumulativeData.t
}.
Definition empty : t := mk InternalCurrentData.empty InternalCumulativeData.empty.
End TimeDerivative.

(** The nested objects of [StateFlux] ([flux.infectious.severe], ...) are
    flattened into one record, [infectious_severe] and so on. *)
Module StateFlux.
Record t : Type := mk {
  susceptible : list number;
  exposed : list (list number);
  infectious_severe : list number;
  infectious_recovered : list number;
  severe_critical : list number;
  severe_recovered : list number;
  critical_severe : list number;
  critical_fatality : list number;
  overflow_severe : list number;
  overflow_fatality : list number
}.
Definition empty : t := mk [] [] [] [] [] [] [] [] [] [].
End StateFlux.

(** A JavaScript [Date]: its time value, whole milliseconds. *)
Definition Date := Z.

(** [ModelParams], with [P.frac.isolated] and [P.rate.*] flattened. *)
Module ModelParams.
Record t : Type := mk {
  ICUBeds : number;
  populationServed : number;
  importsPerDay : list number;
  frac_isolated : list number;
  rate_infection : Date -> number;
  rate_latency : number;
  rate_recovery : list number;
  rate_severe : list number;
  rate_discharge : list number;
  rate_critical : list number;
  rate_stabilize : list number;
  rate_fatality : list number;
  rate_overflowFatality : list number
}.
End ModelParams.

Module Cur := InternalCurrentData.
Module Cum := InternalCumulativeData.
Module STP := SimulationTimePoint.
Module TD := TimeDerivative.
Module SF := StateFlux.
Module MP := ModelParams.

(** ** Flux Calculator: [fluxes] *)

Section Fluxes.
Variables (time : Date) (pop : STP.t) (P : MP.t).

(** The body of the loop over [age], with [fracInfected] computed before
    the loop.  [flux.exposed[age]] is allocated with the length of the
    state's chain and every slot of it is filled by the [forEach]. *)
Definition fluxes_body (fracInfected : number) (age : nat) (flux : SF.t)
  : outcome SF.t :=
  let* exposedArray := get_array (Cur.exposed (STP.current pop)) age in
  let* imports := get (MP.importsPerDay P) age in
  let* isolated := get (MP.frac_isolated P) age in
  let* susceptible := get (Cur.susceptible (STP.current pop)) age in
  let* f_susceptible :=
    set (SF.susceptible flux) age
      (imports + (1 - isolated) * MP.rate_infection P time * susceptible * fracInfected) in
  let* f_exposed :=
    set (SF.exposed flux) age
      (map (fun exposed =>
              MP.rate_latency P * exposed * inject_Z (Z.of_nat (length exposedArray)))
           exposedArray) in
  let* infectious := get (Cur.infectious (STP.current pop)) age in
  let* recovery := get (MP.rate_recovery P) age in
  let* f_infectious_recovered :=
    set (SF.infectious_recovered flux) age (infectious * recovery) in
  let* severeRate := get (MP.rate_severe P) age in
  let* f_infectious_severe :=
    set (SF.infectious_severe flux) age (infectious * severeRate) in
  let* severe := get (Cur.severe (STP.current pop)) age in
  let* discharge := get (MP.rate_discharge P) age in
  let* f_severe_recovered := set (SF.severe_recovered flux) age (severe * discharge) in
  let* criticalRate := get (MP.rate_critical P) age in
  let* f_severe_critical := set (SF.severe_critical flux) age (severe * criticalRate) in
  let* critical := get (Cur.critical (STP.current pop)) age in
  let* stabilize := get (MP.rate_stabilize P) age in
  let* f_critical_severe := set (SF.critical_severe flux) age (critical * stabilize) in
  let* fatality := get (MP.rate_fatality P) age in
  let* f_critical_fatality := set (SF.critical_fatality flux) age (critical * fatality) in
  let* overflow := get (Cur.overflow (STP.current pop)) age in
  let* f_overflow_severe := set (SF.overflow_severe flux) age (overflow * stabilize) in
  let* overflowFatality := get (MP.rate_overflowFatality P) age in
  let* f_overflow_fatality :=
    set (SF.overflow_fatality flux) age (overflow * overflowFatality) in
  Ok (SF.mk f_susceptible f_exposed f_infectious_severe f_infectious_recovered
            f_severe_critical f_severe_recovered f_critical_severe f_critical_fatality
            f_overflow_severe f_overflow_fatality).

Definition fluxes : outcome SF.t :=
  let* fracInfected := div (sum (Cur.infectious (STP.current pop))) (MP.populationServed P) in
  for_up (length (Cur.infectious (STP.current pop))) 0 (fluxes_body fracInfected) SF.empty.
End Fluxes.

(** ** Derivative Assembler: [derivative] *)

(** The [forEach] over [flux.exposed[age]]: stage [i] gains [fluxIn] and
    loses [fluxOut], which becomes the next stage's [fluxIn].  Returns the
    chain's gradient and the last [fluxIn]. *)
Fixpoint exposed_chain (fluxIn : number) (fluxOuts : list number) : list number * number :=
  match fluxOuts with
  | [] => ([], fluxIn)
  | fluxOut :: rest =>
      let '(grad, last) := exposed_chain fluxOut rest in
      ((fluxIn - fluxOut) :: grad, last)
  end.

Section Derivative.
Variable flux : SF.t.

Definition derivative_body (age : nat) (grad : TD.t) : outcome TD.t :=
  let cur := TD.current grad in
  let cum := TD.cumulative grad in
  let* fluxExposed := get_array (SF.exposed flux) age in
  let* f_susceptible := get (SF.susceptible flux) age in
  let* g_susceptible := set (Cur.susceptible cur) age (- f_susceptible) in
  let '(chain, fluxIn) := exposed_chain f_susceptible fluxExposed in
  let* g_exposed := set (Cur.exposed cur) age chain in
  let* infectious_severe := get (SF.infectious_severe flux) age in
  let* infectious_recovered := get (SF.infectious_recovered flux) age in
  let* g_infectious :=
    set (Cur.infectious cur) age (fluxIn - infectious_severe - infectious_recovered) in
  let* critical_severe := get (SF.critical_severe flux) age in
  let* overflow_severe := get (SF.overflow_severe flux) age in
  let* severe_critical := get (SF.severe_critical flux) age in
  let* severe_recovered := get (SF.severe_recovered flux) age in
  let* g_severe :=
    set (Cur.severe cur) age
      (infectious_severe + critical_severe + overflow_severe
       - severe_critical - severe_recovered) in
  let* critical_fatality := get (SF.critical_fatality flux) age in
  let* g_critical :=
    set (Cur.critical cur) age (severe_critical - critical_severe - critical_fatality) in
  let* overflow_fatality := get (SF.overflow_fatality flux) age in
  let* g_overflow :=
    set (Cur.overflow cur) age (- (overflow_severe + overflow_fatality)) in
  let* c_recovered :=
    set (Cum.recovered cum) age (infectious_recovered + severe_recovered) in
  let* c_hospitalized :=
    set (Cum.hospitalized cum) age (infectious_severe + infectious_severe) in
  let* c_critical :=
    set (Cum.critical cum) age (severe_recovered + severe_recovered) in
  let* c_fatality :=
    set (Cum.fatality cum) age (critical_fatality + overflow_fatality) in
  Ok (TD.mk (Cur.mk g_susceptible g_exposed g_infectious g_severe g_critical g_overflow)
            (Cum.mk c_recovered c_hospitalized c_critical c_fatality)).

Definition derivative : outcome TD.t :=
  for_up (length (SF.susceptible flux)) 0 derivative_body TD.empty.
End Derivative.

(** ** Stage Combiner: [sumDerivatives] *)

(** [arr.forEach((x, i) => body)], started at index [i]. *)
Fixpoint forEach {A S : Type} (arr : list A) (i : nat) (body : A -> nat -> S -> outcome S)
    (s : S) : outcome S :=
  match arr with
  | [] => Ok s
  | x :: rest => let* s' := body x i s in forEach rest (Datatypes.S i) body s'
  end.

Section SumDerivatives.
Variables (grads : list TD.t) (scale : list number).

(** The first loop: every field of [sum] starts at zero, with the chain
    lengths of [grads[0]]. *)
Definition zero_body (grad0 : TD.t) (age : nat) (sum : TD.t) : outcome TD.t :=
  let cur := TD.current sum in
  let cum := TD.cumulative sum in
  let* s_susceptible := set (Cur.susceptible cur) age 0 in
  let* exposed0 := get_array (Cur.exposed (TD.current grad0)) age in
  let* s_exposed := set (Cur.exposed cur) age (map (fun _ => 0) exposed0) in
  let* s_infectious := set (Cur.infectious cur) age 0 in
  let* s_critical := set (Cur.critical cur) age 0 in
  let* s_overflow := set (Cur.overflow cur) age 0 in
  let* s_severe := set (Cur.severe cur) age 0 in
  let* c_critical := set (Cum.critical cum) age 0 in
  let* c_fatality := set (Cum.fatality cum) age 0 in
  let* c_recovered := set (Cum.recovered cum) age 0 in
  let* c_hospitalized := set (Cum.hospitalized cum) age 0 in
  Ok (TD.mk (Cur.mk s_susceptible s_exposed s_infectious s_severe s_critical s_overflow)
            (Cum.mk c_recovered c_hospitalized c_critical c_fatality)).

(** [sum.current.exposed[age][j] += scale[i] * e] *)
Definition add_stage (w : number) (e : number) (j : nat) (chain : list number)
  : outcome (list number) :=
  modify chain j (fun x => x + w * e).

(** The body of the loop over [age] inside [grads.forEach((grad, i) => ...)]. *)
Definition add_body (grad : TD.t) (i : nat) (age : nat) (sum : TD.t) : outcome TD.t :=
  let cur := TD.current sum in
  let cum := TD.cumulative sum in
  let gcur := TD.current grad in
  let gcum := TD.cumulative grad in
  let* w := get scale i in
  let* g := get (Cur.susceptible gcur) age in
  let* s_susceptible := modify (Cur.susceptible cur) age (fun x => x + w * g) in
  let* g := get (Cur.infectious gcur) age in
  let* s_infectious := modify (Cur.infectious cur) age (fun x => x + w * g) in
  let* gradExposed := get_array (Cur.exposed gcur) age in
  let* sumExposed := get_array (Cur.exposed cur) age in
  let* chain := forEach gradExposed 0 (add_stage w) sumExposed in
  let* s_exposed := set (Cur.exposed cur) age chain in
  let* g := get (Cur.severe gcur) age in
  let* s_severe := modify (Cur.severe cur) age (fun x => x + w * g) in
  let* g := get (Cur.critical gcur) age in
  let* s_critical := modify (Cur.critical cur) age (fun x => x + w * g) in
  let* g := get (Cur.overflow gcur) age in
  let* s_overflow := modify (Cur.overflow cur) age (fun x => x + w * g) in
  let* g := get (Cum.recovered gcum) age in
  let* c_recovered := modify (Cum.recovered cum) age (fun x => x + w * g) in
  let* g := get (Cum.fatality gcum) age in
  let* c_fatality := modify (Cum.fatality cum) age (fun x => x + w * g) in
  let* g := get (Cum.critical gcum) age in
  let* c_critical := modify (Cum.critical cum) age (fun x => x + w * g) in
  let* g := get (Cum.hospitalized gcum) age in
  let* c_hospitalized := modify (Cum.hospitalized cum) age (fun x => x + w * g) in
  Ok (TD.mk (Cur.mk s_susceptible s_exposed s_infectious s_severe s_critical s_overflow)
            (Cum.mk c_recovered c_hospitalized c_critical c_fatality)).

(** [grads[0]] is dereferenced in both loop headers: an empty [grads]
    throws. *)
Definition sumDerivatives : outcome TD.t :=
  match grads !! 0%nat with
  | None => TypeError
  | Some grad0 =>
      let n := length (Cur.susceptible (TD.current grad0)) in
      let* sum := for_up n 0 (zero_body grad0) TD.empty in
      forEach grads 0 (fun grad i => for_up n 0 (add_body grad i)) sum
  end.
End SumDerivatives.

(** ** Capacity-Constrained State Advancer: [advanceState] *)

(** The scalar compartments [update] is called on, each a pair
    [(kind, compartment)] of keys in the source. *)
Inductive compartment : Type :=
| current_susceptible
| current_infectious
| current_severe
| current_critical
| current_overflow
| cumulative_hospitalized
| cumulative_critical
| cumulative_fatality
| cumulative_recovered.

(** [x[kind][compartment]], for a state or a derivative. *)
Definition read (c : compartment) (cur : Cur.t) (cum : Cum.t) : list number :=
  match c with
  | current_susceptible => Cur.susceptible cur
  | current_infectious => Cur.infectious cur
  | current_severe => Cur.severe cur
  | current_critical => Cur.critical cur
  | current_overflow => Cur.overflow cur
  | cumulative_hospitalized => Cum.hospitalized cum
  | cumulative_critical => Cum.critical cum
  | cumulative_fatality => Cum.fatality cum
  | cumulative_recovered => Cum.recovered cum
  end.

Definition read_pop (c : compartment) (pop : STP.t) : list number :=
  read c (STP.current pop) (STP.cumulative pop).

Definition read_tdot (c : compartment) (tdot : TD.t) : list number :=
  read c (TD.current tdot) (TD.cumulative tdot).

(** The state with [newPop[kind][compartment]] replaced by [arr]. *)
Definition write (c : compartment) (arr : list number) (newPop : STP.t) : STP.t :=
  let t := STP.time newPop in
  let cur := STP.current newPop in
  let cum := STP.cumulative newPop in
  let s := Cur.susceptible cur in
  let e := Cur.exposed cur in
  let i := Cur.infectious cur in
  let sv := Cur.severe cur in
  let cr := Cur.critical cur in
  let o := Cur.overflow cur in
  let r := Cum.recovered cum in
  let h := Cum.hospitalized cum in
  let cc := Cum.critical cum in
  let f := Cum.fatality cum in
  match c with
  | current_susceptible => STP.mk t (Cur.mk arr e i sv cr o) cum
  | current_infectious => STP.mk t (Cur.mk s e arr sv cr o) cum
  | current_severe => STP.mk t (Cur.mk s e i arr cr o) cum
  | current_critical => STP.mk t (Cur.mk s e i sv arr o) cum
  | current_overflow => STP.mk t (Cur.mk s e i sv cr arr) cum
  | cumulative_hospitalized => STP.mk t cur (Cum.mk r arr cc f)
  | cumulative_critical => STP.mk t cur (Cum.mk r h arr f)
  | cumulative_fatality => STP.mk t cur (Cum.mk r h cc arr)
  | cumulative_recovered => STP.mk t cur (Cum.mk arr h cc f)
  end.

(** The state with [newPop.current.exposed] replaced. *)
Definition write_exposed (chains : list (list number)) (newPop : STP.t) : STP.t :=
  let cur := STP.current newPop in
  STP.mk (STP.time newPop)
         (Cur.mk (Cur.susceptible cur) chains (Cur.infectious cur) (Cur.severe cur)
                 (Cur.critical cur) (Cur.overflow cur))
         (STP.cumulative newPop).

(** The state with [time] replaced. *)
Definition set_time (t : number) (pop : STP.t) : STP.t :=
  STP.mk t (STP.current pop) (STP.cumulative pop).

Definition gz (x : number) : number := if gtb x 0 then x else 0.

Section AdvanceState.
Variables (pop : STP.t) (tdot : TD.t) (dt : number).

Definition update (age : nat) (c : compartment) (newPop : STP.t) : outcome STP.t :=
  let* x := get (read_pop c pop) age in
  let* dx := get (read_tdot c tdot) age in
  let* arr := set (read_pop c newPop) age (gz (x + dt * dx)) in
  Ok (write c arr newPop).

(** [updateAt(age, 'current', 'exposed', i)] *)
Definition updateAt (age i : nat) (newPop : STP.t) : outcome STP.t :=
  let* popChain := get_array (Cur.exposed (STP.current pop)) age in
  let* x := get popChain i in
  let* tdotChain := get_array (Cur.exposed (TD.current tdot)) age in
  let* dx := get tdotChain i in
  let* newChain := get_array (Cur.exposed (STP.current newPop)) age in
  let* chain := set newChain i (gz (x + dt * dx)) in
  let* chains := set (Cur.exposed (STP.current newPop)) age chain in
  Ok (write_exposed chains newPop).

(** The body of the first loop.  [Array(n)] is an array of [n] holes; the
    embedding keeps the slots filled so far, and a slot that the inner
    loop leaves unfilled ([n] larger than the state's chain) is a hole
    in the result. *)
Definition euler_body (age : nat) (newPop : STP.t) : outcome STP.t :=
  let* tdotChain := get_array (Cur.exposed (TD.current tdot)) age in
  let* chains := set (Cur.exposed (STP.current newPop)) age [] in
  let newPop := write_exposed chains newPop in
  let* newPop := update age current_susceptible newPop in
  let* popChain := get_array (Cur.exposed (STP.current pop)) age in
  let* newPop := for_up (length popChain) 0 (updateAt age) newPop in
  let* _ := if (length popChain <? length tdotChain)%nat then OutOfModel else Ok tt in
  let* newPop := update age current_infectious newPop in
  let* newPop := update age current_susceptible newPop in
  let* newPop := update age current_severe newPop in
  let* newPop := update age current_susceptible newPop in
  let* newPop := update age current_critical newPop in
  let* newPop := update age current_overflow newPop in
  let* newPop := update age cumulative_hospitalized newPop in
  let* newPop := update age cumulative_critical newPop in
  let* newPop := update age cumulative_fatality newPop in
  update age cumulative_recovered newPop.

(** Step 1: the Euler update of every compartment of every age group,
    into a fresh state whose [time] is the clock reading [now]. *)
Definition eulerUpdate (now : number) : outcome STP.t :=
  for_up (length (Cur.infectious (STP.current pop))) 0 euler_body
         (STP.mk now Cur.empty Cum.empty).

(** The loop that moves patients out of the ICU, oldest first:
    [for (age = n - 1; freeICUBeds < 0 && age >= 0; age--)], with [k] one
    more than [age]. *)
Fixpoint overflow_loop (k : nat) (newPop : STP.t) (freeICUBeds : number)
  : outcome (STP.t * number) :=
  match k with
  | O => Ok (newPop, freeICUBeds)
  | Datatypes.S age =>
      if ltb freeICUBeds 0 then
        let* c := get (Cur.critical (STP.current newPop)) age in
        if gtb c (- freeICUBeds) then
          let* crit := modify (Cur.critical (STP.current newPop)) age
                              (fun x => x + freeICUBeds) in
          let newPop := write current_critical crit newPop in
          let* over := modify (Cur.overflow (STP.current newPop)) age
                              (fun x => x - freeICUBeds) in
          let newPop := write current_overflow over newPop in
          overflow_loop age newPop 0
        else
          let* over := modify (Cur.overflow (STP.current newPop)) age (fun x => x + c) in
          let newPop := write current_overflow over newPop in
          let freeICUBeds := freeICUBeds + c in
          let* crit := set (Cur.critical (STP.current newPop)) age 0 in
          let newPop := write current_critical crit newPop in
          overflow_loop age newPop freeICUBeds
      else Ok (newPop, freeICUBeds)
  end.

(** The loop that moves patients back into the ICU, youngest first:
    [for (age = 0; freeICUBeds > 0 && age < n; age++)], with [count] the
    ages left. *)
Fixpoint refill_loop (count age : nat) (newPop : STP.t) (freeICUBeds : number)
  : outcome (STP.t * number) :=
  match count with
  | O => Ok (newPop, freeICUBeds)
  | Datatypes.S count' =>
      if gtb freeICUBeds 0 then
        let* o := get (Cur.overflow (STP.current newPop)) age in
        if gtb o freeICUBeds then
          let* crit := modify (Cur.critical (STP.current newPop)) age
                              (fun x => x + freeICUBeds) in
          let newPop := write current_critical crit newPop in
          let* over := modify (Cur.overflow (STP.current newPop)) age
                              (fun x => x - freeICUBeds) in
          let newPop := write current_overflow over newPop in
          refill_loop count' (Datatypes.S age) newPop 0
        else
          let* crit := modify (Cur.critical (STP.current newPop)) age (fun x => x + o) in
          let newPop := write current_critical crit newPop in
          let freeICUBeds := freeICUBeds - o in
          let* over := set (Cur.overflow (STP.current newPop)) age 0 in
          let newPop := write current_overflow over newPop in
          refill_loop count' (Datatypes.S age) newPop freeICUBeds
      else Ok (newPop, freeICUBeds)
  end.

(** Step 2: the redistribution between [critical] and [overflow]. *)
Definition redistribute (nICUBeds : number) (newPop : STP.t) : outcome STP.t :=
  let n := length (Cur.critical (STP.current pop)) in
  let freeICUBeds := nICUBeds - sum (Cur.critical (STP.current newPop)) in
  let* r := overflow_loop n newPop freeICUBeds in
  let* r := refill_loop n 0 (fst r) (snd r) in
  Ok (fst r).

Definition advanceState (now : number) (nICUBeds : number) : outcome STP.t :=
  let* newPop := eulerUpdate now in
  redistribute nICUBeds newPop.
End AdvanceState.

(** ** RK4 Stepper and Trajectory Driver: [stepODE], [evolve] *)

(** The integer part of a number, towards zero. *)
Definition truncate (x : number) : Z := Z.quot (Qnum x) (Z.pos (Qden x)).

(** [new Date(value)]: the time value is clipped to whole milliseconds; a
    value beyond 8.64e15 in magnitude makes an invalid [Date]. *)
Definition new_Date (value : number) : outcome Date :=
  if gtb (Qabs value) 8640000000000000 then OutOfModel else Ok (truncate value).

(** [date.valueOf()] *)
Definition valueOf (d : Date) : number := inject_Z d.

(** [Math.round]: the nearest integer, halves upwards. *)
Definition Math_round (x : number) : Z := Qfloor (x + (1 # 2)).

Definition eulerStep : number := 1 # 2.

Section Integrator.
(** [msPerDay] is imported from [./initialize]. *)
Variable msPerDay : number.

(** [Date.now()] is the effect of this code: [clock k] is what the
    [k]-th call returns, and [calls] counts the calls so far.  Every
    [advanceState] reads the clock once. *)
Variable clock : nat -> number.

Definition stepODE (pop : STP.t) (P : MP.t) (dt : number) (calls : nat)
  : outcome (STP.t * nat) :=
  let* t0 := new_Date (STP.time pop) in
  let* t1 := new_Date (STP.time pop + (dt / 2) * msPerDay) in
  let* t2 := new_Date (STP.time pop + dt * msPerDay) in
  let* flux := fluxes t0 pop P in
  let* k1 := derivative flux in
  let* pop1 := advanceState pop k1 (dt / 2) (clock calls) (MP.ICUBeds P) in
  let* flux := fluxes t1 pop1 P in
  let* k2 := derivative flux in
  let* pop2 := advanceState pop k2 (dt / 2) (clock (calls + 1)%nat) (MP.ICUBeds P) in
  let* flux := fluxes t1 pop2 P in
  let* k3 := derivative flux in
  let* pop3 := advanceState pop k3 dt (clock (calls + 2)%nat) (MP.ICUBeds P) in
  let* flux := fluxes t2 pop3 P in
  let* k4 := derivative flux in
  let* tdot := sumDerivatives [k1; k2; k3; k4] [1 / 6; 1 / 3; 1 / 3; 1 / 6] in
  let* state := advanceState pop tdot dt (clock (calls + 3)%nat) (MP.ICUBeds P) in
  Ok (set_time (valueOf t2) state, (calls + 4)%nat).

(** [for (let i = 0; i < nSteps; i++) currState = stepODE(currState, P, dt)] *)
Equations? evolve_loop (P : MP.t) (dt : number) (nSteps i : Z)
    (currState : STP.t) (calls : nat) : outcome (STP.t * nat)
    by wf (Z.to_nat (nSteps - i)) lt :=
  evolve_loop P dt nSteps i currState calls with Z_lt_dec i nSteps => {
    | right _ := Ok (currState, calls);
    | left _ with stepODE currState P dt calls => {
        | Ok r := evolve_loop P dt nSteps (i + 1) (fst r) (snd r);
        | TypeError := TypeError;
        | OutOfModel := OutOfModel } }.
Proof. lia. Qed.

Definition evolve (pop : STP.t) (P : MP.t) (tMax : number)
    (sample : number -> number) (calls : nat) : outcome (STP.t * nat) :=
  let dT := tMax - STP.time pop in
  let nSteps := Z.max 1 (Math_round (dT / eulerStep)) in
  let* dt := div dT (inject_Z nSteps) in
  evolve_loop P dt nSteps 0 pop calls.
End Integrator.

(** ** The redistribution, age group by age group

    The two loops of [advanceState] touch [critical[age]], [overflow[age]]
    and [freeICUBeds] only.  [overflow_pass] and [refill_pass] are the same
    loops over the list of pairs [(critical[age], overflow[age])]; the
    lemmas [overflow_loop_pass] and [refill_loop_pass] below relate them to
    the indexed loops. *)

(** One iteration of the first loop on one age group. *)
Definition overflow_step (p : number * number) (freeICUBeds : number)
  : (number * number) * number :=
  if ltb freeICUBeds 0 then
    if gtb p.1 (- freeICUBeds) then ((p.1 + freeICUBeds, p.2 - freeICUBeds), 0)
    else ((0, p.2 + p.1), freeICUBeds + p.1)
  else (p, freeICUBeds).

(** The first loop: the last (oldest) age group is handled first. *)
Fixpoint overflow_pass (l : list (number * number)) (freeICUBeds : number)
  : list (number * number) * number :=
  match l with
  | [] => ([], freeICUBeds)
  | p :: rest =>
      let r := overflow_pass rest freeICUBeds in
      let q := overflow_step p r.2 in
      (q.1 :: r.1, q.2)
  end.

(** One iteration of the second loop on one age group. *)
Definition refill_step (p : number * number) (freeICUBeds : number)
  : (number * number) * number :=
  if gtb freeICUBeds 0 then
    if gtb p.2 freeICUBeds then ((p.1 + freeICUBeds, p.2 - freeICUBeds), 0)
    else ((p.1 + p.2, 0), freeICUBeds - p.2)
  else (p, freeICUBeds).

(** The second loop: the first (youngest) age group is handled first. *)
Fixpoint refill_pass (l : list (number * number)) (freeICUBeds : number)
  : list (number * number) * number :=
  match l with
  | [] => ([], freeICUBeds)
  | p :: rest =>
      let q := refill_step p freeICUBeds in
      let r := refill_pass rest q.2 in
      (q.1 :: r.1, r.2)
  end.

Definition redistribute_pass (nICUBeds : number) (l : list (number * number))
  : list (number * number) :=
  let freeICUBeds := nICUBeds - sum l.*1 in
  let r := overflow_pass l freeICUBeds in
  (refill_pass r.1 r.2).1.

(** ** The redistribution in the words of the specification

    Section 4.4: with [freeBeds = icuBeds - sum of critical], over capacity
    the age groups are visited from the oldest to the youngest and each
    moves [min(critical[a], -freeBeds)] from critical to overflow, until
    [freeBeds >= 0]; with spare capacity they are visited from the youngest
    to the oldest and each pulls from overflow back into critical up to the
    free beds, until [freeBeds <= 0]. *)

Definition spec_displace (p : number * number) (freeBeds : number)
  : (number * number) * number :=
  if ltb freeBeds 0 then
    let moved := Qmin p.1 (- freeBeds) in
    ((p.1 - moved, p.2 + moved), freeBeds + moved)
  else (p, freeBeds).

Fixpoint spec_displace_oldest_first (l : list (number * number)) (freeBeds : number)
  : list (number * number) * number :=
  match l with
  | [] => ([], freeBeds)
  | p :: younger_first =>
      let r := spec_displace_oldest_first younger_first freeBeds in
      let q := spec_displace p r.2 in
      (q.1 :: r.1, q.2)
  end.

Definition spec_readmit (p : number * number) (freeBeds : number)
  : (number * number) * number :=
  if gtb freeBeds 0 then
    let moved := Qmin p.2 freeBeds in
    ((p.1 + moved, p.2 - moved), freeBeds - moved)
  else (p, freeBeds).

Fixpoint spec_readmit_youngest_first (l : list (number * number)) (freeBeds : number)
  : list (number * number) * number :=
  match l with
  | [] => ([], freeBeds)
  | p :: older =>
      let q := spec_readmit p freeBeds in
      let r := spec_readmit_youngest_first older q.2 in
      (q.1 :: r.1, r.2)
  end.

Definition spec_redistribute (icuBeds : number) (l : list (number * number))
  : list (number * number) :=
  let freeBeds := icuBeds - sum l.*1 in
  if ltb freeBeds 0 then (spec_displace_oldest_first l freeBeds).1
  else if gtb freeBeds 0 then (spec_readmit_youngest_first l freeBeds).1
  else l.

(** Two lists of pairs of numbers with equal components, as numbers. *)
Definition pair_eq (p q : number * number) : Prop := p.1 == q.1 /\ p.2 == q.2.

#[global] Instance compartment_eq_dec : EqDecision compartment.
Proof. solve_decision. Defined.

(** The compartments other than the two of the ICU. *)
Definition not_icu (c : compartment) : Prop :=
  c <> current_critical /\ c <> current_overflow.

(** [s'] differs from [s] in [current.critical] and [current.overflow] at
    most. *)
Definition same_except_icu (s s' : STP.t) : Prop :=
  STP.time s' = STP.time s /\
  Cur.exposed (STP.current s') = Cur.exposed (STP.current s) /\
  forall c, not_icu c -> read_pop c s' = read_pop c s.


(** Neither entry of an age group is negative. *)
Definition nonneg (p : number * number) : Prop := 0 <= p.1 /\ 0 <= p.2.

(** The Euler formula of one field. *)
Definition euler (dt x dx : number) : number := gz (x + dt * dx).

(** The value that the first loop of [advanceState] stores at [age] in
    compartment [c]. *)
Definition euler_entry (pop : STP.t) (tdot : TD.t) (dt : number) (c : compartment)
    (age : nat) (v : number) : Prop :=
  exists x dx,
    read_pop c pop !! age = Some x /\
    read_tdot c tdot !! age = Some dx /\
    v = euler dt x dx.

(** Compartment [c] of [s] is [l0] followed by the entry of [age]. *)
Definition euler_pushed (pop : STP.t) (tdot : TD.t) (dt : number) (c : compartment)
    (age : nat) (l0 : list number) (s : STP.t) : Prop :=
  exists v, euler_entry pop tdot dt c age v /\ read_pop c s = l0 ++ [v].

(** The state after [n] passes of the first loop of [advanceState]: its
    [time] is the clock reading, every array has [n] entries, and each entry
    is the Euler formula of the entries of [pop] and [tdot] at its place. *)
Definition euler_state (pop : STP.t) (tdot : TD.t) (dt now : number) (n : nat)
    (s : STP.t) : Prop :=
  STP.time s = now /\
  length (Cur.exposed (STP.current s)) = n /\
  (forall c, length (read_pop c s) = n) /\
  (forall c j v, read_pop c s !! j = Some v -> euler_entry pop tdot dt c j v) /\
  (forall j chain,
     Cur.exposed (STP.current s) !! j = Some chain ->
     exists popChain tdotChain,
       Cur.exposed (STP.current pop) !! j = Some popChain /\
       Cur.exposed (TD.current tdot) !! j = Some tdotChain /\
       length popChain = length tdotChain /\
       chain = zip_with (euler dt) popChain tdotChain).

(** ** The example of section 8

    Two age groups, [critical = [5, 5]], [overflow = [0, 0]], and a
    derivative that is zero everywhere. *)

Definition two_groups : STP.t :=
  STP.mk 0
    (Cur.mk [100; 100] [[1; 1]; [1; 1]] [10; 10] [0; 0] [5; 5] [0; 0])
    (Cum.mk [0; 0] [0; 0] [0; 0] [0; 0]).

Definition zero_derivative : TD.t :=
  TD.mk (Cur.mk [0; 0] [[0; 0]; [0; 0]] [0; 0] [0; 0] [0; 0] [0; 0])
        (Cum.mk [0; 0] [0; 0] [0; 0] [0; 0]).

(** ** The driver in the words of the specification

    Section 4.6: the stepper is applied [n] times in sequence, each time
    to the output of the time before. *)

Fixpoint steps (msPerDay : number) (clock : nat -> number) (P : MP.t) (dt : number)
    (n : nat) (state : STP.t) (calls : nat) : outcome (STP.t * nat) :=
  match n with
  | O => Ok (state, calls)
  | Datatypes.S n' =>
      let* r := stepODE msPerDay clock state P dt calls in
      steps msPerDay clock P dt n' r.1 r.2
  end.

(** The state of an outcome of [stepODE] or [evolve], without the count of
    clock readings. *)
Definition state_of (r : outcome (STP.t * nat)) : outcome STP.t :=
  let* p := r in Ok p.1.

(** ** Well-shaped inputs

    The source assumes that every per-age array of a state has one entry
    for each age group; [well_shaped] says so for the state and for the
    derivative that [advanceState] receives, whose exposed chains must be
    as long as the state's. *)
Definition well_shaped (pop : STP.t) (tdot : TD.t) : Prop :=
  let n := length (Cur.infectious (STP.current pop)) in
  (forall c, length (read_pop c pop) = n) /\
  (forall c, length (read_tdot c tdot) = n) /\
  length (Cur.exposed (STP.current pop)) = n /\
  length (Cur.exposed (TD.current tdot)) = n /\
  (forall age popChain tdotChain,
     Cur.exposed (STP.current pop) !! age = Some popChain ->
     Cur.exposed (TD.current tdot) !! age = Some tdotChain ->
     length popChain = length tdotChain).

(** While the body of the first loop runs at [age], every array of the new
    state has [age] entries or one more. *)
Definition filling (age : nat) (s : STP.t) : Prop :=
  forall c, length (read_pop c s) = age \/ length (read_pop c s) = Datatypes.S age.

(** ** The weighted sum of four slopes

    What [sumDerivatives] accumulates in one entry, in the order of its
    additions. *)
Definition weighted (w1 w2 w3 w4 x1 x2 x3 x4 : number) : number :=
  0 + w1 * x1 + w2 * x2 + w3 * x3 + w4 * x4.

(** [tdot] is the elementwise weighted sum of [k1 .. k4] on the first [n]
    age groups: on every scalar compartment and on every stage of every
    exposed chain. *)
Definition weighted_sum (w1 w2 w3 w4 : number) (k1 k2 k3 k4 tdot : TD.t) (n : nat) : Prop :=
  (forall c age x1 x2 x3 x4,
     (age < n)%nat ->
     read_tdot c k1 !! age = Some x1 -> read_tdot c k2 !! age = Some x2 ->
     read_tdot c k3 !! age = Some x3 -> read_tdot c k4 !! age = Some x4 ->
     read_tdot c tdot !! age = Some (weighted w1 w2 w3 w4 x1 x2 x3 x4)) /\
  (forall age i chain1 chain2 chain3 chain4 x1 x2 x3 x4,
     (age < n)%nat ->
     Cur.exposed (TD.current k1) !! age = Some chain1 -> chain1 !! i = Some x1 ->
     Cur.exposed (TD.current k2) !! age = Some chain2 -> chain2 !! i = Some x2 ->
     Cur.exposed (TD.current k3) !! age = Some chain3 -> chain3 !! i = Some x3 ->
     Cur.exposed (TD.current k4) !! age = Some chain4 -> chain4 !! i = Some x4 ->
     exists chain,
       Cur.exposed (TD.current tdot) !! age = Some chain /\
       chain !! i = Some (weighted w1 w2 w3 w4 x1 x2 x3 x4)).

(** ** Counting the advances of a step

    Every [advanceState] reads the clock once and nothing else does, so
    the readings that a step has made are its calls of [advanceState]. *)
Definition advances (calls : nat) (r : outcome (STP.t * nat)) : option nat :=
  match r with
  | Ok p => Some (p.2 - calls)%nat
  | TypeError => None
  | OutOfModel => None
  end.

(** ** Shapes of the parameters *)

Definition per_age_arrays (P : MP.t) : list (list number) :=
  [MP.importsPerDay P; MP.frac_isolated P; MP.rate_recovery P; MP.rate_severe P;
   MP.rate_discharge P; MP.rate_critical P; MP.rate_stabilize P; MP.rate_fatality P;
   MP.rate_overflowFatality P].



(** ** Examples *)

(** Two age groups, two exposed stages each. *)
Definition example_pop : STP.t :=
  STP.mk 1600000000000
    (Cur.mk [990; 980] [[1; 2]; [3; 4]] [10; 20] [2; 3] [5; 5] [0; 1])
    (Cum.mk [0; 0] [0; 0] [0; 0] [0; 0]).

Definition example_P : MP.t :=
  MP.mk 7 2000 [0; 0] [0; 0] (fun _ => 1 # 2) (1 # 3)
        [1 # 10; 1 # 10] [1 # 20; 1 # 20] [1 # 5; 1 # 5] [1 # 10; 1 # 10]
        [1 # 10; 1 # 10] [1 # 4; 1 # 4] [1 # 2; 1 # 2].

Definition example_msPerDay : number := 86400000.

Definition example_clock (k : nat) : number := 1700000000000 + inject_Z (Z.of_nat k).

Definition example_sample (x : number) : number := x.



(** Whether a call returned. *)
Definition is_ok {A : Type} (r : outcome A) : bool :=
  match r with
  | Ok _ => true
  | TypeError => false
  | OutOfModel => false
  end.

(** The result of an outcome, or [d] when there is none. *)
Definition result_or {A : Type} (d : A) (r : outcome A) : A :=
  match r with
  | Ok a => a
  | TypeError => d
  | OutOfModel => d
  end.

(** The fluxes and the derivative of the example state, its Euler update
    by half a day, the state advanced under 7 beds, and one step of half a
    day. *)
Definition example_flux : SF.t :=
  result_or SF.empty (fluxes 1600000000000%Z example_pop example_P).

Definition example_tdot : TD.t :=
  result_or TD.empty (derivative example_flux).



Definition example_step : STP.t * nat :=
  result_or (example_pop, 0%nat)
    (stepODE example_msPerDay example_clock example_pop example_P (1 # 2) 0).

(** ** Shapes of states

    [s] has the shape of [pop]: every scalar array of [s] has one entry for
    each of the [n] age groups of [pop] (the length of
    [pop.current.infectious], which drives every loop), and the exposed
    chains of [s] are as long as those of the first [n] age groups of
    [pop]. *)
Definition keeps_shape (pop s : STP.t) : Prop :=
  let n := length (Cur.infectious (STP.current pop)) in
  (forall c, length (read_pop c s) = n) /\
  length <$> Cur.exposed (STP.current s) = length <$> take n (Cur.exposed (STP.current pop)).

(** ** The fluxes and the derivative of one age group *)




(** ** Rectangular inputs *)

(** A state is rectangular when every compartment, and the array of
    exposed chains, has one entry per age group. *)
Definition rectangular (pop : STP.t) : Prop :=
  let n := length (Cur.infectious (STP.current pop)) in
  (forall c, length (read_pop c pop) = n) /\
  length (Cur.exposed (STP.current pop)) = n.

(** The per-age arrays of the parameters have an entry for each of [n] age
    groups. *)
Definition covers (P : MP.t) (n : nat) : Prop :=
  Forall (fun arr => (n <= length arr)%nat) (per_age_arrays P).

Definition flux_arrays (flux : SF.t) : list (list number) :=
  [SF.susceptible flux; SF.infectious_severe flux; SF.infectious_recovered flux;
   SF.severe_critical flux; SF.severe_recovered flux; SF.critical_severe flux;
   SF.critical_fatality flux; SF.overflow_severe flux; SF.overflow_fatality flux].

(** [chains] lists the lengths of the exposed chains, one per age group. *)
Definition flux_shape (chains : list nat) (flux : SF.t) : Prop :=
  Forall (fun arr => length arr = length chains) (flux_arrays flux) /\
  length <$> SF.exposed flux = chains.

Definition tdot_shape (chains : list nat) (g : TD.t) : Prop :=
  (forall c, length (read_tdot c g) = length chains) /\
  length <$> Cur.exposed (TD.current g) = chains.

Definition chains_of (pop : STP.t) : list nat := length <$> Cur.exposed (STP.current pop).

(** The time values that [new Date] accepts. *)
Definition valid_time (t : number) : Prop := Qabs t <= 8640000000000000.

(** ** The linear fluxes *)

(** The eight fluxes that [fluxes] computes as a stock times a rate: the
    array of the flux set, the compartment of the stock, and the array of
    the rate. *)
Definition linear_fluxes
  : list ((SF.t -> list number) * compartment * (MP.t -> list number)) :=
  [(SF.infectious_recovered, current_infectious, MP.rate_recovery);
   (SF.infectious_severe, current_infectious, MP.rate_severe);
   (SF.severe_recovered, current_severe, MP.rate_discharge);
   (SF.severe_critical, current_severe, MP.rate_critical);
   (SF.critical_severe, current_critical, MP.rate_stabilize);
   (SF.critical_fatality, current_critical, MP.rate_fatality);
   (SF.overflow_severe, current_overflow, MP.rate_stabilize);
   (SF.overflow_fatality, current_overflow, MP.rate_overflowFatality)].

(** ** Counts that only grow *)

Definition cumulative (c : compartment) : Prop :=
  c ∈ [cumulative_recovered; cumulative_hospitalized; cumulative_critical;
       cumulative_fatality].




(** ** Feasible states *)

(** No entry of a compartment and no stage of an exposed chain is
    negative. *)
Definition nowhere_negative (s : STP.t) : Prop :=
  (forall c, Forall (Qle 0) (read_pop c s)) /\
  Forall (Forall (Qle 0)) (Cur.exposed (STP.current s)).

(** * Exported totals: [collectTotals] *)

(** A property of an exported record holds a number, or [undefined] where
    the source copies an array element that is absent. *)
Inductive value : Type :=
| Num (x : number)
| Undefined.

(** The own properties of a [Record<string, number>]. *)
Definition object : Type := gmap string value.

(** [o[key] = v] for a number or [undefined]: the property is created or
    overwritten.  On the key [__proto__] the assignment runs the setter of
    [Object.prototype], which ignores such a value. *)
Definition assign (o : object) (key : string) (v : value) : object :=
  if decide (key = "__proto__") then o else <[key:=v]> o.

(** [arr[i]] as it is copied into a record. *)
Definition element (arr : list number) (i : nat) : value :=
  match arr !! i with
  | Some x => Num x
  | None => Undefined
  end.

Module ExportedCurrent.
Record t : Type := mk {
  susceptible : object;
  severe : object;
  exposed : object;
  overflow : object;
  critical : object;
  infectious : object
}.
End ExportedCurrent.

Module ExportedCumulative.
Record t : Type := mk {
  recovered : object;
  hospitalized : object;
  critical : object;
  fatality : object
}.
End ExportedCumulative.

Module ExportedTimePoint.
Record t : Type := mk {
  time : number;
  current : ExportedCurrent.t;
  cumulative : ExportedCumulative.t
}.
End ExportedTimePoint.

Module ECur := ExportedCurrent.
Module ECum := ExportedCumulative.
Module ETP := ExportedTimePoint.

(** [ages.forEach((age, i) => { o[age] = arr[i] })], from index [i] on. *)
Fixpoint copy_ages (ages : list string) (i : nat) (arr : list number) (o : object) : object :=
  match ages with
  | [] => o
  | age :: rest => copy_ages rest (S i) arr (assign o age (element arr i))
  end.

(** [arr.reduce((a, b) => a + b)]: with no initial value an empty array
    throws, and the first element starts the sum. *)
Definition reduce_plus (arr : list number) : outcome number :=
  match arr with
  | [] => TypeError
  | a :: rest => Ok (fold_left Qplus rest a)
  end.

(** The branch of a category of [tp.current] other than [exposed]. *)
Definition collect_current (ages : list string) (arr : list number) : outcome object :=
  let o := copy_ages ages 0 arr ∅ in
  let* total := reduce_plus arr in
  Ok (assign o "total" (Num total)).

(** [x.forEach((y) => { total += y })] *)
Definition add_chain (total : number) (x : list number) : number := fold_left Qplus x total.

(** [Object.keys(chains).forEach((a, i) => { o[a] = chains[i].reduce((a, b) => a + b, 0) })],
    from index [i] on: the keys of an array are its indices in decimal. *)
Fixpoint sum_chains (chains : list (list number)) (i : nat) (o : object) : object :=
  match chains with
  | [] => o
  | chain :: rest => sum_chains rest (S i) (assign o (pretty i) (Num (sum chain)))
  end.

(** The branch of [exposed]. *)
Definition collect_exposed (chains : list (list number)) : object :=
  let total := fold_left add_chain chains 0 in
  sum_chains chains 0 (assign ∅ "total" (Num total)).

(** The body of the loop over the categories of [tp.cumulative]. *)
Definition collect_cumulative (ages : list string) (arr : list number) : object :=
  assign (copy_ages ages 0 arr ∅) "total" (Num (sum arr)).

(** The body of [trajectory.forEach]: the categories of [tp.current] are
    visited in the order of the literal, [susceptible], [severe],
    [exposed], [overflow], [critical], [infectious]. *)
Definition collect_point (ages : list string) (d : STP.t) : outcome ETP.t :=
  let cur := STP.current d in
  let cum := STP.cumulative d in
  let* susceptible := collect_current ages (Cur.susceptible cur) in
  let* severe := collect_current ages (Cur.severe cur) in
  let exposed := collect_exposed (Cur.exposed cur) in
  let* overflow := collect_current ages (Cur.overflow cur) in
  let* critical := collect_current ages (Cur.critical cur) in
  let* infectious := collect_current ages (Cur.infectious cur) in
  Ok (ETP.mk (STP.time d)
        (ECur.mk susceptible severe exposed overflow critical infectious)
        (ECum.mk (collect_cumulative ages (Cum.recovered cum))
                 (collect_cumulative ages (Cum.hospitalized cum))
                 (collect_cumulative ages (Cum.critical cum))
                 (collect_cumulative ages (Cum.fatality cum)))).

Definition collectTotals (trajectory : list STP.t) (ages : list string)
  : outcome (list ETP.t) :=
  forEach trajectory 0
    (fun d _ res => let* tp := collect_point ages d in Ok (res ++ [tp])) [].

(** The record of a scalar compartment in an exported time point. *)
Definition exported (c : compartment) (tp : ETP.t) : object :=
  match c with
  | current_susceptible => ECur.susceptible (ETP.current tp)
  | current_infectious => ECur.infectious (ETP.current tp)
  | current_severe => ECur.severe (ETP.current tp)
  | current_critical => ECur.critical (ETP.current tp)
  | current_overflow => ECur.overflow (ETP.current tp)
  | cumulative_hospitalized => ECum.hospitalized (ETP.cumulative tp)
  | cumulative_critical => ECum.critical (ETP.cumulative tp)
  | cumulative_fatality => ECum.fatality (ETP.cumulative tp)
  | cumulative_recovered => ECum.recovered (ETP.cumulative tp)
  end.

(** The categories of [current] whose total is a [reduce] with no initial
    value. *)
Definition current_scalars (d : STP.t) : list (list number) :=
  [Cur.susceptible (STP.current d); Cur.severe (STP.current d);
   Cur.overflow (STP.current d); Cur.critical (STP.current d);
   Cur.infectious (STP.current d)].

Definition no_total (d : STP.t) : Prop := [] ∈ current_scalars d.

(** Two time points, the second with three exposed chains, and two age
    names. *)
Definition example_trajectory : list STP.t :=
  [two_groups;
   STP.mk 86400000
     (Cur.mk [99; 98; 97] [[1; 2]; [3]; []] [11; 12; 13] [1; 2; 3] [4; 5; 6] [0; 1; 2])
     (Cum.mk [1; 2; 3] [4; 5; 6] [7; 8; 9] [0; 0; 1])].

Definition example_ages : list string := ["0-9"; "10-19"].

(** * Properties *)

(** ** Outcomes, arrays and loops *)

Lemma bind_Ok {A B : Type} (m : outcome A) (k : A -> outcome B) (b : B) :
  bind m k = Ok b -> exists a, m = Ok a /\ k a = Ok b.
Proof. destruct m; simpl; intros H; try discriminate. eauto. Qed.

Lemma get_Ok {A : Type} (arr : list A) (i : nat) (x : A) :
  get arr i = Ok x <-> arr !! i = Some x.
Proof.
  unfold get. destruct (arr !! i); split; intros H; try discriminate; congruence.
Qed.

Lemma get_array_Ok {A : Type} (arr : list (list A)) (i : nat) (x : list A) :
  get_array arr i = Ok x <-> arr !! i = Some x.
Proof.
  unfold get_array. destruct (arr !! i); split; intros H; try discriminate; congruence.
Qed.

Lemma set_Ok {A : Type} (arr arr' : list A) (i : nat) (v : A) :
  set arr i v = Ok arr' ->
  ((i < length arr)%nat /\ arr' = <[i:=v]> arr) \/ (i = length arr /\ arr' = arr ++ [v]).
Proof.
  unfold set. destruct (Nat.ltb_spec i (length arr)).
  - intros [= <-]. left. auto.
  - destruct (Nat.eqb_spec i (length arr)); [|discriminate].
    intros [= <-]. right. auto.
Qed.

Lemma set_push {A : Type} (arr arr' : list A) (i : nat) (v : A) :
  set arr i v = Ok arr' -> length arr = i -> arr' = arr ++ [v].
Proof. intros H Hl. apply set_Ok in H as [[? _]|[_ ?]]; [lia | done]. Qed.

Lemma set_inside {A : Type} (arr : list A) (i : nat) (v : A) :
  (i < length arr)%nat -> set arr i v = Ok (<[i:=v]> arr).
Proof. intros H. unfold set. destruct (Nat.ltb_spec i (length arr)); [done | lia]. Qed.

Lemma set_end {A : Type} (arr : list A) (v : A) :
  set arr (length arr) v = Ok (arr ++ [v]).
Proof.
  unfold set. destruct (Nat.ltb_spec (length arr) (length arr)); [lia|].
  by rewrite Nat.eqb_refl.
Qed.

Lemma set_at_end {A : Type} (arr : list A) (i : nat) (v : A) :
  length arr = i -> set arr i v = Ok (arr ++ [v]).
Proof. intros <-. apply set_end. Qed.

Lemma set_length {A : Type} (arr arr' : list A) (i : nat) (v : A) :
  set arr i v = Ok arr' -> length arr' = Nat.max (length arr) (Datatypes.S i).
Proof.
  intros H. apply set_Ok in H as [[? ->]|[-> ->]].
  - rewrite length_insert. lia.
  - rewrite length_app. simpl. lia.
Qed.

Lemma modify_Ok (arr arr' : list number) (i : nat) (f : number -> number) :
  modify arr i f = Ok arr' ->
  exists x, arr !! i = Some x /\ arr' = <[i:=f x]> arr.
Proof.
  unfold modify. intros H. apply bind_Ok in H as (x & Hx & H).
  apply get_Ok in Hx. exists x. split; [done|].
  apply set_Ok in H as [[_ ?]|[? _]]; [done|].
  apply lookup_lt_Some in Hx. lia.
Qed.

Lemma is_ok_true {A : Type} (r : outcome A) : is_ok r = true -> exists a, r = Ok a.
Proof. destruct r; simpl; intros H; try discriminate. eauto. Qed.

(** Splits a hypothesis [H : ... = Ok _] over a chain of [let*]. *)
Ltac inv_binds H :=
  repeat match type of H with
  | bind _ _ = Ok _ =>
      let x := fresh "x" in
      let Hx := fresh "Hx" in
      apply bind_Ok in H as (x & Hx & H); cbv beta in H
  | (let '(_, _) := ?p in _) = Ok _ => destruct p eqn:?
  | (if ?b then _ else _) = Ok _ => destruct b eqn:?; [|discriminate H]
  | Ok _ = Ok _ => injection H as H
  end.

(** The invariant rule of the counted loop. *)
Lemma for_up_inv {S : Type} (Inv : nat -> S -> Prop) (body : nat -> S -> outcome S) :
  forall count age s s',
    (forall a t t', (age <= a < age + count)%nat -> Inv a t -> body a t = Ok t' ->
                    Inv (Datatypes.S a) t') ->
    Inv age s -> for_up count age body s = Ok s' -> Inv (age + count)%nat s'.
Proof.
  induction count as [|count IH]; intros age s s' Hbody Hinv H; simpl in H.
  - injection H as <-. by rewrite Nat.add_0_r.
  - apply bind_Ok in H as (s1 & H1 & H).
    replace (age + Datatypes.S count)%nat with (Datatypes.S age + count)%nat by lia.
    apply (IH (Datatypes.S age) s1); [|eapply Hbody; eauto; lia|done].
    intros a t t' Ha. apply Hbody. lia.
Qed.

(** A loop whose body appends one value to an array of its state. *)
Lemma for_up_push {S A : Type} (body : nat -> S -> outcome S) (proj : S -> list A)
    (val : nat -> A -> Prop) :
  (forall age s s', body age s = Ok s' -> length (proj s) = age ->
                    exists v, val age v /\ proj s' = proj s ++ [v]) ->
  forall count age s s',
    for_up count age body s = Ok s' -> length (proj s) = age ->
    length (proj s') = (age + count)%nat /\
    (forall j, (j < age)%nat -> proj s' !! j = proj s !! j) /\
    (forall j, (age <= j < age + count)%nat -> exists v, proj s' !! j = Some v /\ val j v).
Proof.
  intros Hbody count age s s' H Hlen.
  pose (Inv := fun (a : nat) (t : S) =>
    length (proj t) = a /\
    (forall j, (j < age)%nat -> proj t !! j = proj s !! j) /\
    (forall j, (age <= j < a)%nat -> exists v, proj t !! j = Some v /\ val j v)).
  apply (for_up_inv Inv body count age s s'); [|by repeat split; [|intros; lia]|done].
  intros a t t' Ha (Hl & Hlow & Hval) Ht.
  destruct (Hbody a t t' Ht Hl) as (v & Hv & Heq).
  unfold Inv. rewrite Heq.
  split; [rewrite length_app; simpl; lia|]. split.
  - intros j Hj. rewrite lookup_app_l by lia. by apply Hlow.
  - intros j Hj. destruct (decide (j = a)) as [->|Hne].
    + exists v. split; [|done].
      rewrite lookup_app_r by lia. by rewrite Hl, Nat.sub_diag.
    + rewrite lookup_app_l by lia. apply Hval. lia.
Qed.

(** ** Comparisons and sums *)

Lemma ltb_true (x y : number) : ltb x y = true <-> x < y.
Proof.
  unfold ltb. rewrite negb_true_iff. split.
  - intros H. apply Qnot_le_lt. intros Hle. apply Qle_bool_iff in Hle. congruence.
  - intros H. destruct (Qle_bool y x) eqn:E; [|done].
    apply Qle_bool_iff in E. lra.
Qed.

Lemma ltb_false (x y : number) : ltb x y = false <-> y <= x.
Proof.
  unfold ltb. rewrite negb_false_iff. apply Qle_bool_iff.
Qed.

Lemma gtb_true (x y : number) : gtb x y = true <-> y < x.
Proof. apply ltb_true. Qed.

Lemma gtb_false (x y : number) : gtb x y = false <-> x <= y.
Proof. apply ltb_false. Qed.

Lemma gz_nonneg (x : number) : 0 <= gz x.
Proof.
  unfold gz. destruct (gtb x 0) eqn:E; [|lra]. apply gtb_true in E. lra.
Qed.


Lemma fold_left_Qplus (l : list number) (a : number) :
  fold_left Qplus l a == a + fold_left Qplus l 0.
Proof.
  revert a. induction l as [|x l IH]; intros a; simpl.
  - lra.
  - rewrite IH, (IH (0 + x)). lra.
Qed.

Lemma sum_nil : sum [] == 0.
Proof. reflexivity. Qed.

Lemma sum_cons (x : number) (l : list number) : sum (x :: l) == x + sum l.
Proof. unfold sum. simpl. rewrite fold_left_Qplus. lra. Qed.

(** ** Reading and writing compartments *)

Lemma read_write_same (c : compartment) (arr : list number) (s : STP.t) :
  read_pop c (write c arr s) = arr.
Proof. by destruct c. Qed.

Lemma read_write_other (c c' : compartment) (arr : list number) (s : STP.t) :
  c <> c' -> read_pop c (write c' arr s) = read_pop c s.
Proof. by destruct c, c'. Qed.

Lemma time_write (c : compartment) (arr : list number) (s : STP.t) :
  STP.time (write c arr s) = STP.time s.
Proof. by destruct c. Qed.

Lemma exposed_write (c : compartment) (arr : list number) (s : STP.t) :
  Cur.exposed (STP.current (write c arr s)) = Cur.exposed (STP.current s).
Proof. by destruct c. Qed.

Lemma read_write_exposed (c : compartment) (chains : list (list number)) (s : STP.t) :
  read_pop c (write_exposed chains s) = read_pop c s.
Proof. by destruct c. Qed.

(** ** Step 1 of [advanceState]: the Euler update *)

Section EulerFacts.
Variables (pop : STP.t) (tdot : TD.t) (dt : number).

Lemma update_Ok (age : nat) (c : compartment) (s s' : STP.t) :
  update pop tdot dt age c s = Ok s' ->
  exists x dx arr,
    read_pop c pop !! age = Some x /\
    read_tdot c tdot !! age = Some dx /\
    set (read_pop c s) age (euler dt x dx) = Ok arr /\
    s' = write c arr s.
Proof.
  unfold update. intros H. inv_binds H. subst s'.
  apply get_Ok in Hx, Hx0. eauto 10.
Qed.

Lemma update_other (age : nat) (c c' : compartment) (s s' : STP.t) :
  c <> c' -> update pop tdot dt age c' s = Ok s' -> read_pop c s' = read_pop c s.
Proof.
  intros Hne H. apply update_Ok in H as (x & dx & arr & _ & _ & _ & ->).
  by apply read_write_other.
Qed.

Lemma update_first (age : nat) (c : compartment) (s s' : STP.t) :
  update pop tdot dt age c s = Ok s' -> length (read_pop c s) = age ->
  euler_pushed pop tdot dt c age (read_pop c s) s'.
Proof.
  intros H Hl. apply update_Ok in H as (x & dx & arr & Hx & Hdx & Hset & ->).
  exists (euler dt x dx). split; [by exists x, dx|].
  rewrite read_write_same. by eapply set_push.
Qed.

Lemma update_again (age : nat) (c c' : compartment) (l0 : list number) (s s' : STP.t) :
  update pop tdot dt age c' s = Ok s' -> length l0 = age ->
  euler_pushed pop tdot dt c age l0 s -> euler_pushed pop tdot dt c age l0 s'.
Proof.
  intros H Hl (v & Hv & Hs). destruct (decide (c = c')) as [<-|Hne].
  - apply update_Ok in H as (x & dx & arr & Hx & Hdx & Hset & ->).
    destruct Hv as (x' & dx' & Hx' & Hdx' & ->).
    assert (x' = x) as -> by congruence. assert (dx' = dx) as -> by congruence.
    exists (euler dt x dx). split; [by exists x, dx|].
    rewrite read_write_same. rewrite Hs in Hset.
    apply set_Ok in Hset as [[_ ->]|[Habs _]].
    + rewrite <- Hl. rewrite insert_app_r_alt by lia. by rewrite Nat.sub_diag.
    + rewrite length_app in Habs. simpl in Habs. lia.
  - exists v. split; [done|]. by rewrite (update_other age c c' s s').
Qed.

Lemma update_time (age : nat) (c : compartment) (s s' : STP.t) :
  update pop tdot dt age c s = Ok s' -> STP.time s' = STP.time s.
Proof.
  intros H. apply update_Ok in H as (x & dx & arr & _ & _ & _ & ->). apply time_write.
Qed.

Lemma update_exposed (age : nat) (c : compartment) (s s' : STP.t) :
  update pop tdot dt age c s = Ok s' ->
  Cur.exposed (STP.current s') = Cur.exposed (STP.current s).
Proof.
  intros H. apply update_Ok in H as (x & dx & arr & _ & _ & _ & ->). apply exposed_write.
Qed.

Lemma updateAt_Ok (age i : nat) (s s' : STP.t) :
  updateAt pop tdot dt age i s = Ok s' ->
  exists popChain tdotChain newChain x dx chain chains,
    Cur.exposed (STP.current pop) !! age = Some popChain /\
    popChain !! i = Some x /\
    Cur.exposed (TD.current tdot) !! age = Some tdotChain /\
    tdotChain !! i = Some dx /\
    Cur.exposed (STP.current s) !! age = Some newChain /\
    set newChain i (euler dt x dx) = Ok chain /\
    set (Cur.exposed (STP.current s)) age chain = Ok chains /\
    s' = write_exposed chains s.
Proof.
  unfold updateAt. intros H. inv_binds H. subst s'.
  repeat match goal with
         | H : get _ _ = Ok _ |- _ => apply get_Ok in H
         | H : get_array _ _ = Ok _ |- _ => apply get_array_Ok in H
         end.
  eauto 20.
Qed.

(** The inner loop over the stages of one age group's chain. *)
Lemma updateAt_loop (age : nat) (popChain tdotChain : list number)
    (before : list (list number)) (s s' : STP.t) :
  Cur.exposed (STP.current pop) !! age = Some popChain ->
  Cur.exposed (TD.current tdot) !! age = Some tdotChain ->
  Cur.exposed (STP.current s) = before ++ [[]] ->
  length before = age ->
  for_up (length popChain) 0 (updateAt pop tdot dt age) s = Ok s' ->
  (length popChain <= length tdotChain)%nat /\
  Cur.exposed (STP.current s') =
    before ++ [zip_with (euler dt) popChain (take (length popChain) tdotChain)] /\
  STP.time s' = STP.time s /\
  forall c, read_pop c s' = read_pop c s.
Proof.
  intros Hpop Htdot Hs Hbefore H.
  pose (Inv := fun (i : nat) (t : STP.t) =>
    (i <= length tdotChain)%nat /\
    Cur.exposed (STP.current t) =
      before ++ [zip_with (euler dt) (take i popChain) (take i tdotChain)] /\
    STP.time t = STP.time s /\
    forall c, read_pop c t = read_pop c s).
  assert (HI : Inv (0 + length popChain)%nat s').
  { apply (for_up_inv Inv (updateAt pop tdot dt age) _ _ s); [|repeat split|done].
    - intros i t t' Hi (Hle & He & Ht & Hr) Hb.
      apply updateAt_Ok in Hb
        as (pc & tc & nc & x & dx & chain & chains & H1 & H2 & H3 & H4 & H5 & H6 & H7 & ->).
      assert (pc = popChain) as -> by congruence.
      assert (tc = tdotChain) as -> by congruence.
      rewrite He in H5, H7.
      rewrite lookup_app_r in H5 by lia.
      rewrite Hbefore, Nat.sub_diag in H5. injection H5 as <-.
      assert (Hlen : length (zip_with (euler dt) (take i popChain) (take i tdotChain)) = i).
      { rewrite length_zip_with, !length_take. lia. }
      apply set_push in H6; [|done]. subst chain.
      apply set_Ok in H7 as [[_ ->]|[Habs _]];
        [|rewrite length_app in Habs; simpl in Habs; lia].
      unfold Inv. split; [apply lookup_lt_Some in H4; lia|]. split; [|split].
      + simpl. rewrite <- Hbefore. rewrite insert_app_r_alt by lia.
        rewrite Nat.sub_diag. simpl. f_equal. f_equal.
        rewrite (take_S_r popChain i x), (take_S_r tdotChain i dx) by done.
        rewrite zip_with_app; [done|]. rewrite !length_take.
        apply lookup_lt_Some in H2, H4. lia.
      + by simpl.
      + intros c. by rewrite read_write_exposed.
    - lia.
    - by rewrite Hs.
  }
  destruct HI as (Hle & He & Ht & Hr). simpl in *.
  repeat split; try done. by rewrite He, firstn_all.
Qed.
End EulerFacts.

Section EulerBody.
Variables (pop : STP.t) (tdot : TD.t) (dt : number).

(** Follows one compartment [c] through one [update] of the loop body: the
    array is as it was before the body, or it has received its entry. *)
Ltac track_update age s Hc :=
  first
    [ match goal with
      | H : update _ _ _ _ ?c' ?a = Ok ?b, Hp : euler_pushed _ _ _ ?c _ _ ?a |- _ =>
          apply (update_again pop tdot dt age c c' (read_pop c s) a b H Hc) in Hp;
          clear H
      end
    | match goal with
      | H : update _ _ _ _ ?c ?a = Ok ?b, Hp : read_pop ?c ?a = read_pop ?c s |- _ =>
          let Hn := fresh "Hp" in
          pose proof (update_first pop tdot dt age c a b H) as Hn;
          rewrite Hp in Hn; specialize (Hn Hc); clear H Hp
      end
    | match goal with
      | H : update _ _ _ _ ?c' ?a = Ok ?b, Hp : read_pop ?c ?a = read_pop ?c s |- _ =>
          let Hn := fresh "Hp" in
          assert (Hn : read_pop c b = read_pop c s)
            by (rewrite (update_other pop tdot dt age c c' a b);
                [exact Hp|discriminate|exact H]);
          clear H Hp
      end ].

(** What one pass of the body of the first loop does to the state. *)
Lemma euler_body_Ok (age : nat) (s s' : STP.t) :
  euler_body pop tdot dt age s = Ok s' ->
  length (Cur.exposed (STP.current s)) = age ->
  (forall c, length (read_pop c s) = age) ->
  STP.time s' = STP.time s /\
  (exists popChain tdotChain,
     Cur.exposed (STP.current pop) !! age = Some popChain /\
     Cur.exposed (TD.current tdot) !! age = Some tdotChain /\
     length popChain = length tdotChain /\
     Cur.exposed (STP.current s') =
       Cur.exposed (STP.current s) ++ [zip_with (euler dt) popChain tdotChain]) /\
  (forall c, euler_pushed pop tdot dt c age (read_pop c s) s').
Proof.
  unfold euler_body. intros H Hexp Hlen. inv_binds H.
  destruct (length x2 <? length x)%nat eqn:Hholes in Hx4; [discriminate|]. clear Hx4 x4.
  apply get_array_Ok in Hx, Hx2.
  apply set_push in Hx0; [|done]. subst x0.
  rename x into tdotChain, x2 into popChain.
  destruct (updateAt_loop pop tdot dt age popChain tdotChain
              (Cur.exposed (STP.current s)) x1 x3) as (Hle & He & Ht & Hr); try done.
  { by rewrite (update_exposed pop tdot dt age _ _ _ Hx1). }
  apply Nat.ltb_ge in Hholes.
  assert (Hsame : length popChain = length tdotChain) by lia.
  rewrite Hsame, firstn_all in He.
  split; [|split].
  - rewrite (update_time _ _ _ _ _ _ _ H), (update_time _ _ _ _ _ _ _ Hx13),
      (update_time _ _ _ _ _ _ _ Hx12), (update_time _ _ _ _ _ _ _ Hx11),
      (update_time _ _ _ _ _ _ _ Hx10), (update_time _ _ _ _ _ _ _ Hx9),
      (update_time _ _ _ _ _ _ _ Hx8), (update_time _ _ _ _ _ _ _ Hx7),
      (update_time _ _ _ _ _ _ _ Hx6), (update_time _ _ _ _ _ _ _ Hx5), Ht,
      (update_time _ _ _ _ _ _ _ Hx1).
    done.
  - exists popChain, tdotChain. repeat split; try done.
    rewrite (update_exposed _ _ _ _ _ _ _ H), (update_exposed _ _ _ _ _ _ _ Hx13),
      (update_exposed _ _ _ _ _ _ _ Hx12), (update_exposed _ _ _ _ _ _ _ Hx11),
      (update_exposed _ _ _ _ _ _ _ Hx10), (update_exposed _ _ _ _ _ _ _ Hx9),
      (update_exposed _ _ _ _ _ _ _ Hx8), (update_exposed _ _ _ _ _ _ _ Hx7),
      (update_exposed _ _ _ _ _ _ _ Hx6), (update_exposed _ _ _ _ _ _ _ Hx5).
    done.
  - intros c. pose proof (Hlen c) as Hc.
    assert (Hp : read_pop c (write_exposed (Cur.exposed (STP.current s) ++ [[]]) s)
                 = read_pop c s) by apply read_write_exposed.
    destruct c;
      (track_update age s Hc;
       first
         [ match goal with
           | Hp : read_pop ?c ?a = read_pop ?c s |- _ => rewrite <- (Hr c) in Hp
           end
         | match goal with
           | Hp : euler_pushed _ _ _ ?c _ _ ?a |- _ =>
               destruct Hp as (v & Hv & Hp); rewrite <- (Hr c) in Hp;
               assert (Hp' : euler_pushed pop tdot dt c age (read_pop c s) x3)
                 by (exists v; split; assumption);
               clear Hp
           end ];
       do 10 track_update age s Hc;
       assumption).
Qed.
End EulerBody.

Lemma eulerUpdate_Ok (pop : STP.t) (tdot : TD.t) (dt now : number) (e : STP.t) :
  eulerUpdate pop tdot dt now = Ok e ->
  euler_state pop tdot dt now (length (Cur.infectious (STP.current pop))) e.
Proof.
  unfold eulerUpdate. intros H.
  apply (for_up_inv (euler_state pop tdot dt now) _ _ _ _ _) in H; [done| |].
  - intros a t t' Ha (Ht & He & Hl & Hv & Hc) Hb.
    destruct (euler_body_Ok pop tdot dt a t t' Hb He Hl)
      as (Ht' & (pc & tc & Hpc & Htc & Hlen & He') & Hp).
    split; [congruence|]. split; [rewrite He', length_app; simpl; lia|].
    split; [|split].
    + intros c. destruct (Hp c) as (v & _ & ->). rewrite length_app, Hl. simpl. lia.
    + intros c j v. destruct (Hp c) as (w & Hw & ->). intros Hj.
      apply lookup_app_Some in Hj as [Hj|[Hge Hj]]; [by apply Hv|].
      rewrite Hl in Hj, Hge.
      destruct (decide (j = a)) as [->|Hne].
      * rewrite Nat.sub_diag in Hj. injection Hj as <-. done.
      * apply lookup_lt_Some in Hj. simpl in Hj. lia.
    + intros j chain. rewrite He'. intros Hj.
      apply lookup_app_Some in Hj as [Hj|[Hge Hj]]; [by apply Hc|].
      rewrite He in Hj, Hge.
      destruct (decide (j = a)) as [->|Hne].
      * rewrite Nat.sub_diag in Hj. injection Hj as <-. eauto 10.
      * apply lookup_lt_Some in Hj. simpl in Hj. lia.
  - repeat split; try done.
    + by intros [].
    + intros [] j v; simpl; by rewrite lookup_nil.
Qed.

(** ** Step 2 of [advanceState]: the loops and the passes *)

Lemma same_except_icu_refl (s : STP.t) : same_except_icu s s.
Proof. by repeat split. Qed.

Lemma same_except_icu_trans (s1 s2 s3 : STP.t) :
  same_except_icu s1 s2 -> same_except_icu s2 s3 -> same_except_icu s1 s3.
Proof.
  intros (Ht & He & Hr) (Ht' & He' & Hr'). repeat split; try congruence.
  intros c Hc. rewrite Hr', Hr; done.
Qed.

Lemma same_except_icu_critical (arr : list number) (s : STP.t) :
  same_except_icu s (write current_critical arr s).
Proof.
  repeat split. intros c [Hc _]. by apply read_write_other.
Qed.

Lemma same_except_icu_overflow (arr : list number) (s : STP.t) :
  same_except_icu s (write current_overflow arr s).
Proof.
  repeat split. intros c [_ Hc]. by apply read_write_other.
Qed.

Lemma same_except_icu_mk (cr ov : list number) (s : STP.t) :
  same_except_icu s
    (STP.mk (STP.time s)
       (Cur.mk (Cur.susceptible (STP.current s)) (Cur.exposed (STP.current s))
               (Cur.infectious (STP.current s)) (Cur.severe (STP.current s)) cr ov)
       (STP.cumulative s)).
Proof.
  repeat split. intros c [Hc Ho]. by destruct c.
Qed.

Lemma overflow_pass_idle (l : list (number * number)) (f : number) :
  ltb f 0 = false -> overflow_pass l f = (l, f).
Proof.
  intros Hf. induction l as [|p l IH]; simpl; [done|].
  rewrite IH. simpl. unfold overflow_step. by rewrite Hf.
Qed.

Lemma overflow_pass_snoc (l : list (number * number)) (p : number * number) (f : number) :
  overflow_pass (l ++ [p]) f =
    (let q := overflow_step p f in
     let r := overflow_pass l q.2 in
     (r.1 ++ [q.1], r.2)).
Proof.
  induction l as [|p' l IH]; simpl.
  - by destruct (overflow_step p f).
  - rewrite IH. simpl. done.
Qed.

Lemma refill_pass_idle (l : list (number * number)) (f : number) :
  gtb f 0 = false -> refill_pass l f = (l, f).
Proof.
  intros Hf. induction l as [|p l IH]; simpl; [done|].
  unfold refill_step. rewrite Hf. simpl. by rewrite IH.
Qed.

(** The first loop is [overflow_pass] on the age groups below [k]. *)
Lemma overflow_loop_pass (k : nat) : forall (s s' : STP.t) (f f' : number),
  overflow_loop k s f = Ok (s', f') ->
  (k <= length (Cur.critical (STP.current s)))%nat ->
  length (Cur.overflow (STP.current s)) = length (Cur.critical (STP.current s)) ->
  exists l',
    overflow_pass (zip (take k (Cur.critical (STP.current s)))
                       (take k (Cur.overflow (STP.current s)))) f = (l', f') /\
    Cur.critical (STP.current s') = l'.*1 ++ drop k (Cur.critical (STP.current s)) /\
    Cur.overflow (STP.current s') = l'.*2 ++ drop k (Cur.overflow (STP.current s)) /\
    same_except_icu s s'.
Proof.
  induction k as [|age IH]; intros s s' f f' H Hk Hlen; simpl in H.
  - injection H as <- <-. exists []. rewrite !take_0, !drop_0. simpl.
    split; [done|]. split; [done|]. split; [done|]. apply same_except_icu_refl.
  - destruct (ltb f 0) eqn:Hf.
    + apply bind_Ok in H as (c & Hc & H). apply get_Ok in Hc.
      assert (Ho : exists o, Cur.overflow (STP.current s) !! age = Some o).
      { apply lookup_lt_is_Some. lia. }
      destruct Ho as (o & Ho).
      rewrite (take_S_r _ _ _ Hc), (take_S_r _ _ _ Ho).
      rewrite zip_with_app by (rewrite !length_take; lia).
      simpl zip_with at 2. rewrite overflow_pass_snoc.
      cbv zeta. unfold overflow_step. simpl. rewrite Hf.
      destruct (gtb c (- f)) eqn:Hcf; simpl.
      * apply bind_Ok in H as (crit & Hcrit & H). cbv beta in H.
        apply modify_Ok in Hcrit as (c' & Hc' & ->).
        assert (c' = c) as -> by congruence.
        apply bind_Ok in H as (over & Hover & H). cbv beta in H.
        simpl in Hover. apply modify_Ok in Hover as (o' & Ho' & ->).
        assert (o' = o) as -> by congruence.
        apply IH in H; simpl; [|by rewrite length_insert; lia|by rewrite !length_insert].
        destruct H as (l' & Hpass & Hcr & Hov & Hsame). simpl in Hpass, Hcr, Hov.
        rewrite !take_insert_ge in Hpass by lia.
        exists (l' ++ [(c + f, o - f)]). rewrite Hpass. simpl.
        split; [done|]. rewrite Hcr, Hov, !fmap_app. simpl.
        rewrite <- !app_assoc. simpl.
        rewrite (drop_S (<[age:=c + f]> _) (c + f) age)
          by (apply list_lookup_insert_eq; lia).
        rewrite (drop_S (<[age:=o - f]> _) (o - f) age)
          by (apply list_lookup_insert_eq; lia).
        rewrite !drop_insert_lt by lia.
        split; [done|]. split; [done|].
        eapply same_except_icu_trans; [|exact Hsame].
        apply same_except_icu_mk.
      * apply bind_Ok in H as (over & Hover & H). cbv beta in H.
        apply modify_Ok in Hover as (o' & Ho' & ->).
        assert (o' = o) as -> by congruence.
        apply bind_Ok in H as (crit & Hcrit & H). cbv beta in H.
        simpl in Hcrit. apply set_Ok in Hcrit as [[_ ->]|[Habs _]];
          [|apply lookup_lt_Some in Hc; lia].
        apply IH in H; simpl; [|by rewrite length_insert; lia|by rewrite !length_insert].
        destruct H as (l' & Hpass & Hcr & Hov & Hsame). simpl in Hpass, Hcr, Hov.
        rewrite !take_insert_ge in Hpass by lia.
        exists (l' ++ [(0, o + c)]). rewrite Hpass. simpl.
        split; [done|]. rewrite Hcr, Hov, !fmap_app. simpl.
        rewrite <- !app_assoc. simpl.
        rewrite (drop_S (<[age:=0]> _) 0 age)
          by (apply list_lookup_insert_eq; lia).
        rewrite (drop_S (<[age:=o + c]> _) (o + c) age)
          by (apply list_lookup_insert_eq; lia).
        rewrite !drop_insert_lt by lia.
        split; [done|]. split; [done|].
        eapply same_except_icu_trans; [|exact Hsame].
        apply same_except_icu_mk.
    + injection H as <- <-. rewrite overflow_pass_idle by done.
      eexists. split; [done|]. simpl.
      rewrite fst_zip, snd_zip by (rewrite !length_take; lia).
      rewrite !take_drop. split; [done|]. split; [done|]. apply same_except_icu_refl.
Qed.

(** The second loop is [refill_pass] on the age groups from [age] on. *)
Lemma refill_loop_pass (count : nat) : forall (age : nat) (s s' : STP.t) (f f' : number),
  refill_loop count age s f = Ok (s', f') ->
  length (Cur.overflow (STP.current s)) = length (Cur.critical (STP.current s)) ->
  (length (Cur.critical (STP.current s)) <= age + count)%nat ->
  exists l',
    refill_pass (zip (drop age (Cur.critical (STP.current s)))
                     (drop age (Cur.overflow (STP.current s)))) f = (l', f') /\
    Cur.critical (STP.current s') = take age (Cur.critical (STP.current s)) ++ l'.*1 /\
    Cur.overflow (STP.current s') = take age (Cur.overflow (STP.current s)) ++ l'.*2 /\
    same_except_icu s s'.
Proof.
  induction count as [|count IH]; intros age s s' f f' H Hlen Hcount; simpl in H.
  - injection H as <- <-. exists [].
    rewrite !drop_ge, !take_ge by lia. simpl. rewrite !app_nil_r.
    split; [done|]. split; [done|]. split; [done|]. apply same_except_icu_refl.
  - destruct (gtb f 0) eqn:Hf.
    + apply bind_Ok in H as (o & Ho & H). apply get_Ok in Ho.
      assert (Hc : exists c, Cur.critical (STP.current s) !! age = Some c).
      { apply lookup_lt_is_Some. apply lookup_lt_Some in Ho. lia. }
      destruct Hc as (c & Hc).
      pose proof (lookup_lt_Some _ _ _ Hc) as Hage.
      rewrite (drop_S _ _ _ Hc), (drop_S _ _ _ Ho). simpl.
      unfold refill_step. simpl. rewrite Hf.
      destruct (gtb o f) eqn:Hof; simpl.
      * apply bind_Ok in H as (crit & Hcrit & H). cbv beta in H.
        apply modify_Ok in Hcrit as (c' & Hc' & ->).
        assert (c' = c) as -> by congruence.
        apply bind_Ok in H as (over & Hover & H). cbv beta in H.
        simpl in Hover. apply modify_Ok in Hover as (o' & Ho' & ->).
        assert (o' = o) as -> by congruence.
        apply IH in H; simpl; [|by rewrite !length_insert|by rewrite length_insert; lia].
        destruct H as (l' & Hpass & Hcr & Hov & Hsame). simpl in Hpass, Hcr, Hov.
        rewrite !drop_insert_lt in Hpass by lia.
        exists ((c + f, o - f) :: l'). rewrite Hpass. simpl.
        split; [done|]. rewrite Hcr, Hov.
        rewrite (take_S_r (<[age:=c + f]> _) age (c + f))
          by (apply list_lookup_insert_eq; lia).
        rewrite (take_S_r (<[age:=o - f]> _) age (o - f))
          by (apply list_lookup_insert_eq; lia).
        rewrite !take_insert_ge by lia. rewrite <- !app_assoc. simpl.
        split; [done|]. split; [done|].
        eapply same_except_icu_trans; [|exact Hsame]. apply same_except_icu_mk.
      * apply bind_Ok in H as (crit & Hcrit & H). cbv beta in H.
        apply modify_Ok in Hcrit as (c' & Hc' & ->).
        assert (c' = c) as -> by congruence.
        apply bind_Ok in H as (over & Hover & H). cbv beta in H.
        simpl in Hover. apply set_Ok in Hover as [[_ ->]|[Habs _]];
          [|apply lookup_lt_Some in Ho; lia].
        apply IH in H; simpl; [|by rewrite !length_insert|by rewrite length_insert; lia].
        destruct H as (l' & Hpass & Hcr & Hov & Hsame). simpl in Hpass, Hcr, Hov.
        rewrite !drop_insert_lt in Hpass by lia.
        exists ((c + o, 0) :: l'). rewrite Hpass. simpl.
        split; [done|]. rewrite Hcr, Hov.
        rewrite (take_S_r (<[age:=c + o]> _) age (c + o))
          by (apply list_lookup_insert_eq; lia).
        rewrite (take_S_r (<[age:=0]> _) age 0)
          by (apply list_lookup_insert_eq; lia).
        rewrite !take_insert_ge by lia. rewrite <- !app_assoc. simpl.
        split; [done|]. split; [done|].
        eapply same_except_icu_trans; [|exact Hsame]. apply same_except_icu_mk.
    + injection H as <- <-. rewrite refill_pass_idle by done.
      eexists. split; [done|]. simpl.
      rewrite fst_zip, snd_zip by (rewrite !length_drop; lia).
      rewrite !take_drop. split; [done|]. split; [done|]. apply same_except_icu_refl.
Qed.

(** When the first loop starts beyond the end of [critical], it can only
    be idle. *)
Lemma overflow_loop_beyond (k : nat) (s s' : STP.t) (f f' : number) :
  overflow_loop k s f = Ok (s', f') ->
  (length (Cur.critical (STP.current s)) < k)%nat ->
  ltb f 0 = false /\ s' = s /\ f' = f.
Proof.
  destruct k as [|age]; [lia|]. simpl. intros H Hk.
  destruct (ltb f 0) eqn:Hf.
  - apply bind_Ok in H as (c & Hc & _). apply get_Ok in Hc.
    apply lookup_lt_Some in Hc. lia.
  - by injection H as <- <-.
Qed.

(** Step 2 is [redistribute_pass] on the pairs of the Euler state. *)
Lemma redistribute_Ok (pop : STP.t) (nICUBeds : number) (e s : STP.t) :
  redistribute pop nICUBeds e = Ok s ->
  length (Cur.overflow (STP.current e)) = length (Cur.critical (STP.current e)) ->
  (length (Cur.critical (STP.current e)) <= length (Cur.critical (STP.current pop)))%nat ->
  zip (Cur.critical (STP.current s)) (Cur.overflow (STP.current s)) =
    redistribute_pass nICUBeds
      (zip (Cur.critical (STP.current e)) (Cur.overflow (STP.current e))) /\
  length (Cur.critical (STP.current s)) = length (Cur.critical (STP.current e)) /\
  length (Cur.overflow (STP.current s)) = length (Cur.critical (STP.current e)) /\
  same_except_icu e s.
Proof.
  unfold redistribute. intros H Hlen Hle.
  apply bind_Ok in H as ([s1 f1] & H1 & H). cbv beta in H.
  apply bind_Ok in H as ([s2 f2] & H2 & H). cbv beta in H.
  simpl in H, H2. injection H as <-.
  set (cr := Cur.critical (STP.current e)) in *.
  set (ov := Cur.overflow (STP.current e)) in *.
  set (f0 := nICUBeds - sum cr) in *.
  assert (Hfirst : exists l1,
    overflow_pass (zip cr ov) f0 = (l1, f1) /\
    Cur.critical (STP.current s1) = l1.*1 /\
    Cur.overflow (STP.current s1) = l1.*2 /\ same_except_icu e s1).
  { destruct (decide (length cr < length (Cur.critical (STP.current pop)))%nat)
      as [Hlt|Hge].
    - apply overflow_loop_beyond in H1 as (Hf & -> & ->); [|done].
      rewrite overflow_pass_idle by done. eexists. split; [done|].
      rewrite fst_zip, snd_zip by (subst cr ov; lia).
      split; [done|]. split; [done|]. apply same_except_icu_refl.
    - assert (Heq : length (Cur.critical (STP.current pop)) = length cr)
        by (subst cr; lia).
      rewrite Heq in H1. apply overflow_loop_pass in H1; [|done|done].
      destruct H1 as (l1 & Hp & Hc & Ho & Hs).
      fold cr ov in Hp, Hc, Ho.
      rewrite !take_ge in Hp by lia.
      rewrite drop_ge, app_nil_r in Hc by lia.
      rewrite drop_ge, app_nil_r in Ho by lia.
      eauto. }
  destruct Hfirst as (l1 & Hp1 & Hc1 & Ho1 & Hs1).
  assert (Hl1 : length l1 = length cr).
  { assert (Hgen : forall l f, length (overflow_pass l f).1 = length l).
    { induction l as [|p l IHl]; intros f; simpl; [done|]. by rewrite IHl. }
    specialize (Hgen (zip cr ov) f0). rewrite Hp1 in Hgen. simpl in Hgen.
    rewrite Hgen, length_zip_with. subst cr ov. lia. }
  apply refill_loop_pass in H2;
    [|by rewrite Hc1, Ho1, !length_fmap
     |rewrite Hc1, length_fmap, Hl1; subst cr; lia].
  destruct H2 as (l2 & Hp2 & Hc2 & Ho2 & Hs2).
  rewrite !drop_0, !take_0 in *. simpl in Hc2, Ho2.
  rewrite Hc1, Ho1, zip_fst_snd in Hp2.
  assert (Hl2 : length l2 = length l1).
  { assert (Hgen : forall l f, length (refill_pass l f).1 = length l).
    { induction l as [|p l IHl]; intros f; simpl; [done|]. by rewrite IHl. }
    specialize (Hgen l1 f1). by rewrite Hp2 in Hgen. }
  unfold redistribute_pass.
  rewrite fst_zip by (subst cr ov; lia). fold f0. rewrite Hp1. simpl. rewrite Hp2. simpl.
  rewrite Hc2, Ho2, zip_fst_snd, !length_fmap.
  split; [done|]. split; [lia|]. split; [lia|].
  by eapply same_except_icu_trans.
Qed.

(** ** The passes: conservation, signs, capacity *)

Lemma overflow_step_cases (p : number * number) (f : number) :
  (0 <= f /\ overflow_step p f = (p, f)) \/
  (f < 0 /\ - f < p.1 /\ overflow_step p f = ((p.1 + f, p.2 - f), 0)) \/
  (f < 0 /\ p.1 <= - f /\ overflow_step p f = ((0, p.2 + p.1), f + p.1)).
Proof.
  unfold overflow_step. destruct (ltb f 0) eqn:Hf.
  - apply ltb_true in Hf. destruct (gtb p.1 (- f)) eqn:Hc.
    + apply gtb_true in Hc. right. left. done.
    + apply gtb_false in Hc. right. right. done.
  - apply ltb_false in Hf. left. done.
Qed.

Lemma refill_step_cases (p : number * number) (f : number) :
  (f <= 0 /\ refill_step p f = (p, f)) \/
  (0 < f /\ f < p.2 /\ refill_step p f = ((p.1 + f, p.2 - f), 0)) \/
  (0 < f /\ p.2 <= f /\ refill_step p f = ((p.1 + p.2, 0), f - p.2)).
Proof.
  unfold refill_step. destruct (gtb f 0) eqn:Hf.
  - apply gtb_true in Hf. destruct (gtb p.2 f) eqn:Hc.
    + apply gtb_true in Hc. right. left. done.
    + apply gtb_false in Hc. right. right. done.
  - apply gtb_false in Hf. left. done.
Qed.




Lemma overflow_pass_nonneg (l : list (number * number)) (f : number) :
  Forall nonneg l -> Forall nonneg (overflow_pass l f).1.
Proof.
  induction 1 as [|p l [Hc Ho] Hl IH]; simpl; constructor; [|done].
  unfold nonneg.
  destruct (overflow_step_cases p (overflow_pass l f).2)
    as [[_ ->]|[(? & ? & ->)|(? & ? & ->)]]; simpl; lra.
Qed.

Lemma refill_pass_nonneg (l : list (number * number)) (f : number) :
  Forall nonneg l -> Forall nonneg (refill_pass l f).1.
Proof.
  intros H. revert f. induction H as [|p l [Hc Ho] Hl IH]; intros f; simpl;
    constructor; [|done].
  unfold nonneg.
  destruct (refill_step_cases p f) as [[_ ->]|[(? & ? & ->)|(? & ? & ->)]]; simpl; lra.
Qed.

Lemma redistribute_pass_nonneg (nICUBeds : number) (l : list (number * number)) :
  Forall nonneg l -> Forall nonneg (redistribute_pass nICUBeds l).
Proof.
  intros H. unfold redistribute_pass. simpl.
  by apply refill_pass_nonneg, overflow_pass_nonneg.
Qed.






(** ** The passes and the words of the specification *)

Lemma pair_eq_refl (p : number * number) : pair_eq p p.
Proof. split; reflexivity. Qed.

Lemma pair_eq_sym (p q : number * number) : pair_eq p q -> pair_eq q p.
Proof. intros [H1 H2]. split; by symmetry. Qed.

Lemma pair_eq_trans (p q r : number * number) : pair_eq p q -> pair_eq q r -> pair_eq p r.
Proof. intros [H1 H2] [H3 H4]. split; etrans; eauto. Qed.

Lemma Forall2_pair_eq_refl (l : list (number * number)) : Forall2 pair_eq l l.
Proof. induction l; constructor; auto using pair_eq_refl. Qed.

Lemma Forall2_pair_eq_sym (l k : list (number * number)) :
  Forall2 pair_eq l k -> Forall2 pair_eq k l.
Proof. induction 1; constructor; auto using pair_eq_sym. Qed.

Lemma Forall2_pair_eq_trans (l k m : list (number * number)) :
  Forall2 pair_eq l k -> Forall2 pair_eq k m -> Forall2 pair_eq l m.
Proof.
  intros H. revert m. induction H as [|p q l k Hpq H IH]; intros m Hm.
  - inversion Hm. constructor.
  - inversion Hm as [|? r ? m' Hqr Hm']; subst. constructor; eauto using pair_eq_trans.
Qed.

Lemma sum_pair_eq (l k : list (number * number)) :
  Forall2 pair_eq l k -> sum l.*1 == sum k.*1.
Proof.
  induction 1 as [|p q l k [Hpq _] H IH]; [reflexivity|].
  rewrite !fmap_cons, !sum_cons. lra.
Qed.

Lemma spec_displace_cases (p : number * number) (f : number) :
  (0 <= f /\ spec_displace p f = (p, f)) \/
  (f < 0 /\ exists moved, moved == Qmin p.1 (- f) /\
            spec_displace p f = ((p.1 - moved, p.2 + moved), f + moved)).
Proof.
  unfold spec_displace. destruct (ltb f 0) eqn:Hf.
  - apply ltb_true in Hf. right. split; [done|]. eexists. split; [reflexivity|done].
  - apply ltb_false in Hf. left. done.
Qed.

Lemma spec_readmit_cases (p : number * number) (f : number) :
  (f <= 0 /\ spec_readmit p f = (p, f)) \/
  (0 < f /\ exists moved, moved == Qmin p.2 f /\
            spec_readmit p f = ((p.1 + moved, p.2 - moved), f - moved)).
Proof.
  unfold spec_readmit. destruct (gtb f 0) eqn:Hf.
  - apply gtb_true in Hf. right. split; [done|]. eexists. split; [reflexivity|done].
  - apply gtb_false in Hf. left. done.
Qed.

Lemma overflow_step_spec (p p' : number * number) (f f' : number) :
  pair_eq p p' -> f == f' ->
  pair_eq (overflow_step p f).1 (spec_displace p' f').1 /\
  (overflow_step p f).2 == (spec_displace p' f').2.
Proof.
  intros [H1 H2] Hf. unfold pair_eq.
  destruct (overflow_step_cases p f) as [[? ->]|[(? & ? & ->)|(? & ? & ->)]];
    destruct (spec_displace_cases p' f') as [[? ->]|(? & m & Hm & ->)];
    cbn [fst snd]; try lra;
    destruct (Q.min_spec p'.1 (- f')) as [[? Hmin]|[? Hmin]];
    rewrite Hmin in Hm; lra.
Qed.

Lemma refill_step_spec (p p' : number * number) (f f' : number) :
  pair_eq p p' -> f == f' ->
  pair_eq (refill_step p f).1 (spec_readmit p' f').1 /\
  (refill_step p f).2 == (spec_readmit p' f').2.
Proof.
  intros [H1 H2] Hf. unfold pair_eq.
  destruct (refill_step_cases p f) as [[? ->]|[(? & ? & ->)|(? & ? & ->)]];
    destruct (spec_readmit_cases p' f') as [[? ->]|(? & m & Hm & ->)];
    cbn [fst snd]; try lra;
    destruct (Q.min_spec p'.2 f') as [[? Hmin]|[? Hmin]];
    rewrite Hmin in Hm; lra.
Qed.

Lemma overflow_pass_spec (l l' : list (number * number)) (f f' : number) :
  Forall2 pair_eq l l' -> f == f' ->
  Forall2 pair_eq (overflow_pass l f).1 (spec_displace_oldest_first l' f').1 /\
  (overflow_pass l f).2 == (spec_displace_oldest_first l' f').2.
Proof.
  intros H Hf. induction H as [|p p' l l' Hp H [IH1 IH2]]; [by split; [constructor|]|].
  cbn [overflow_pass spec_displace_oldest_first fst snd].
  destruct (overflow_step_spec p p' _ _ Hp IH2) as [Hq1 Hq2].
  split; [by constructor|done].
Qed.

Lemma refill_pass_spec (l l' : list (number * number)) (f f' : number) :
  Forall2 pair_eq l l' -> f == f' ->
  Forall2 pair_eq (refill_pass l f).1 (spec_readmit_youngest_first l' f').1 /\
  (refill_pass l f).2 == (spec_readmit_youngest_first l' f').2.
Proof.
  intros H. revert f f'. induction H as [|p p' l l' Hp H IH]; intros f f' Hf;
    [by split; [constructor|]|].
  cbn [refill_pass spec_readmit_youngest_first fst snd].
  destruct (refill_step_spec p p' _ _ Hp Hf) as [Hq1 Hq2].
  destruct (IH _ _ Hq2) as [IH1 IH2].
  split; [by constructor|done].
Qed.

(** After a deficit the first loop leaves no spare bed. *)
Lemma overflow_pass_no_spare (l : list (number * number)) (f : number) :
  f <= 0 -> (overflow_pass l f).2 <= 0.
Proof.
  intros Hf. induction l as [|p l IH]; [done|].
  cbn [overflow_pass fst snd].
  destruct (overflow_step_cases p (overflow_pass l f).2)
    as [[? ->]|[(? & ? & ->)|(? & ? & ->)]]; cbn [fst snd]; lra.
Qed.

(** The two loops of the code do what section 4.4 describes. *)
Lemma redistribute_pass_spec (nICUBeds nICUBeds' : number) (l l' : list (number * number)) :
  Forall2 pair_eq l l' -> nICUBeds == nICUBeds' ->
  Forall2 pair_eq (redistribute_pass nICUBeds l) (spec_redistribute nICUBeds' l').
Proof.
  intros Hl Hb. unfold redistribute_pass, spec_redistribute. cbv zeta.
  pose proof (sum_pair_eq l l' Hl) as Hsum.
  assert (Hf : nICUBeds - sum l.*1 == nICUBeds' - sum l'.*1) by lra.
  set (f := nICUBeds - sum l.*1) in *. set (f' := nICUBeds' - sum l'.*1) in *.
  destruct (ltb f' 0) eqn:Hneg.
  - apply ltb_true in Hneg.
    destruct (overflow_pass_spec l l' f f' Hl Hf) as [H1 H2].
    rewrite refill_pass_idle; [done|].
    apply gtb_false. apply overflow_pass_no_spare. lra.
  - apply ltb_false in Hneg.
    rewrite overflow_pass_idle by (apply ltb_false; lra). cbn [fst snd].
    destruct (gtb f' 0) eqn:Hpos.
    + by apply refill_pass_spec.
    + apply gtb_false in Hpos. rewrite refill_pass_idle by (apply gtb_false; lra).
      done.
Qed.

(** The passes respect equality of numbers. *)
Lemma redistribute_pass_proper (nICUBeds : number) (l l' : list (number * number)) :
  Forall2 pair_eq l l' ->
  Forall2 pair_eq (redistribute_pass nICUBeds l) (redistribute_pass nICUBeds l').
Proof.
  intros Hl. eapply Forall2_pair_eq_trans.
  - apply (redistribute_pass_spec nICUBeds nICUBeds l l'); [done|reflexivity].
  - apply Forall2_pair_eq_sym.
    apply (redistribute_pass_spec nICUBeds nICUBeds l' l'); [|reflexivity].
    apply Forall2_pair_eq_refl.
Qed.

(** ** The two steps of [advanceState] together *)

Lemma euler_entry_nonneg (pop : STP.t) (tdot : TD.t) (dt : number) (c : compartment)
    (age : nat) (v : number) :
  euler_entry pop tdot dt c age v -> 0 <= v.
Proof. intros (x & dx & _ & _ & ->). apply gz_nonneg. Qed.

Lemma euler_state_within (pop : STP.t) (tdot : TD.t) (dt now : number) (n : nat)
    (e : STP.t) (c : compartment) :
  euler_state pop tdot dt now n e -> (n <= length (read_pop c pop))%nat.
Proof.
  intros (_ & _ & Hl & Hv & _). destruct n as [|m]; [lia|].
  destruct (lookup_lt_is_Some_2 (read_pop c e) m) as [v Hm]; [rewrite Hl; lia|].
  destruct (Hv c m v Hm) as (x & dx & Hx & _). apply lookup_lt_Some in Hx. lia.
Qed.

Lemma euler_state_icu (pop : STP.t) (tdot : TD.t) (dt now : number) (n : nat) (e : STP.t) :
  euler_state pop tdot dt now n e ->
  Forall nonneg (zip (Cur.critical (STP.current e)) (Cur.overflow (STP.current e))).
Proof.
  intros (_ & _ & Hl & Hv & _). apply Forall_lookup_2. intros j [c o] Hj.
  apply lookup_zip_with_Some in Hj as (c' & o' & [= <- <-] & Hc & Ho).
  split; simpl.
  - by eapply euler_entry_nonneg, (Hv current_critical).
  - by eapply euler_entry_nonneg, (Hv current_overflow).
Qed.

(** What a successful [advanceState] has computed. *)
Lemma advanceState_Ok (pop : STP.t) (tdot : TD.t) (dt now nICUBeds : number) (s : STP.t) :
  advanceState pop tdot dt now nICUBeds = Ok s ->
  exists e,
    eulerUpdate pop tdot dt now = Ok e /\
    redistribute pop nICUBeds e = Ok s /\
    euler_state pop tdot dt now (length (Cur.infectious (STP.current pop))) e /\
    zip (Cur.critical (STP.current s)) (Cur.overflow (STP.current s)) =
      redistribute_pass nICUBeds
        (zip (Cur.critical (STP.current e)) (Cur.overflow (STP.current e))) /\
    length (Cur.critical (STP.current s)) = length (Cur.infectious (STP.current pop)) /\
    length (Cur.overflow (STP.current s)) = length (Cur.infectious (STP.current pop)) /\
    same_except_icu e s.
Proof.
  unfold advanceState. intros H. apply bind_Ok in H as (e & He & H).
  pose proof (eulerUpdate_Ok _ _ _ _ _ He) as Hst.
  pose proof Hst as (_ & _ & Hl & _).
  pose proof (Hl current_critical) as Hlc. pose proof (Hl current_overflow) as Hlo.
  unfold read_pop in Hlc, Hlo. simpl in Hlc, Hlo.
  assert (Hle : (length (Cur.critical (STP.current e))
                  <= length (Cur.critical (STP.current pop)))%nat).
  { rewrite Hlc. apply (euler_state_within _ _ _ _ _ _ current_critical Hst). }
  assert (Hlen : length (Cur.overflow (STP.current e))
                 = length (Cur.critical (STP.current e))) by lia.
  pose proof (redistribute_Ok _ _ _ _ H Hlen Hle) as (Hzip & Hc & Ho & Hsame).
  exists e. split; [done|]. split; [done|]. split; [done|]. split; [done|].
  split; [lia|]. split; [lia|]. done.
Qed.

Lemma redistribute_icu (pop : STP.t) (nICUBeds : number) (e s : STP.t) :
  redistribute pop nICUBeds e = Ok s ->
  length (Cur.overflow (STP.current e)) = length (Cur.critical (STP.current e)) ->
  (length (Cur.critical (STP.current e)) <= length (Cur.critical (STP.current pop)))%nat ->
  Cur.critical (STP.current s) =
    (redistribute_pass nICUBeds
       (zip (Cur.critical (STP.current e)) (Cur.overflow (STP.current e)))).*1 /\
  Cur.overflow (STP.current s) =
    (redistribute_pass nICUBeds
       (zip (Cur.critical (STP.current e)) (Cur.overflow (STP.current e)))).*2.
Proof.
  intros H Hlen Hle. apply redistribute_Ok in H as (Hzip & Hc & Ho & _); [|done|done].
  rewrite <- Hzip. rewrite fst_zip, snd_zip by lia. done.
Qed.

(** Each array of the Euler state, in one piece. *)
Lemma euler_state_read (pop : STP.t) (tdot : TD.t) (dt now : number) (n : nat)
    (e : STP.t) (c : compartment) :
  euler_state pop tdot dt now n e ->
  read_pop c e = zip_with (euler dt) (take n (read_pop c pop)) (take n (read_tdot c tdot)).
Proof.
  intros (_ & _ & Hl & Hv & _). apply list_eq. intros j.
  destruct (decide (j < n)%nat) as [Hj|Hj].
  - destruct (lookup_lt_is_Some_2 (read_pop c e) j) as [v Hjv]; [by rewrite Hl|].
    rewrite Hjv. symmetry. apply lookup_zip_with_Some.
    destruct (Hv c j v Hjv) as (x & dx & Hx & Hdx & ->).
    exists x, dx. by rewrite !lookup_take_lt.
  - rewrite lookup_ge_None_2 by (rewrite Hl; lia).
    symmetry. apply lookup_ge_None_2.
    rewrite length_zip_with, !length_take. lia.
Qed.

(** ** Step 2 returns *)

Lemma overflow_loop_total (k : nat) : forall (s : STP.t) (f : number),
  (k <= length (Cur.critical (STP.current s)))%nat ->
  length (Cur.overflow (STP.current s)) = length (Cur.critical (STP.current s)) ->
  exists s' f',
    overflow_loop k s f = Ok (s', f') /\
    length (Cur.critical (STP.current s')) = length (Cur.critical (STP.current s)) /\
    length (Cur.overflow (STP.current s')) = length (Cur.overflow (STP.current s)).
Proof.
  induction k as [|age IH]; intros s f Hk Hlen; simpl; [by eauto|].
  destruct (ltb f 0); [|by eauto].
  destruct (lookup_lt_is_Some_2 (Cur.critical (STP.current s)) age) as [c Hc]; [lia|].
  destruct (lookup_lt_is_Some_2 (Cur.overflow (STP.current s)) age) as [o Ho]; [lia|].
  unfold modify, get. rewrite Hc. simpl.
  destruct (gtb c (- f)); rewrite ?Hc, ?Ho; simpl;
    rewrite !set_inside by lia; simpl; rewrite ?Ho; simpl;
    rewrite ?set_inside by (rewrite ?length_insert; lia); simpl;
    match goal with
    | |- exists s' f', overflow_loop age ?t ?g = _ /\ _ =>
        destruct (IH t g) as (s' & f' & -> & Hc' & Ho');
          [simpl; rewrite ?length_insert; lia
          |simpl; rewrite ?length_insert; lia|];
        exists s', f'; simpl in Hc', Ho'; rewrite ?length_insert in Hc', Ho'; done
    end.
Qed.

Lemma refill_loop_total (count : nat) : forall (age : nat) (s : STP.t) (f : number),
  (age + count <= length (Cur.critical (STP.current s)))%nat ->
  length (Cur.overflow (STP.current s)) = length (Cur.critical (STP.current s)) ->
  exists s' f',
    refill_loop count age s f = Ok (s', f') /\
    length (Cur.critical (STP.current s')) = length (Cur.critical (STP.current s)) /\
    length (Cur.overflow (STP.current s')) = length (Cur.overflow (STP.current s)).
Proof.
  induction count as [|count IH]; intros age s f Hk Hlen; simpl; [by eauto|].
  destruct (gtb f 0); [|by eauto].
  destruct (lookup_lt_is_Some_2 (Cur.critical (STP.current s)) age) as [c Hc]; [lia|].
  destruct (lookup_lt_is_Some_2 (Cur.overflow (STP.current s)) age) as [o Ho]; [lia|].
  unfold modify, get. rewrite Ho. simpl.
  destruct (gtb o f); rewrite ?Hc, ?Ho; simpl;
    rewrite !set_inside by lia; simpl; rewrite ?Ho; simpl;
    rewrite ?set_inside by (rewrite ?length_insert; lia); simpl;
    match goal with
    | |- exists s' f', refill_loop count _ ?t ?g = _ /\ _ =>
        destruct (IH (Datatypes.S age) t g) as (s' & f' & -> & Hc' & Ho');
          [simpl; rewrite ?length_insert; lia
          |simpl; rewrite ?length_insert; lia|];
        exists s', f'; simpl in Hc', Ho'; rewrite ?length_insert in Hc', Ho'; done
    end.
Qed.

Lemma redistribute_total (pop : STP.t) (nICUBeds : number) (e : STP.t) :
  length (Cur.critical (STP.current e)) = length (Cur.critical (STP.current pop)) ->
  length (Cur.overflow (STP.current e)) = length (Cur.critical (STP.current e)) ->
  exists s, redistribute pop nICUBeds e = Ok s.
Proof.
  intros Hn Hlen. unfold redistribute.
  destruct (overflow_loop_total (length (Cur.critical (STP.current pop))) e
              (nICUBeds - sum (Cur.critical (STP.current e))))
    as (s1 & f1 & -> & Hc1 & Ho1); [lia|done|].
  simpl.
  destruct (refill_loop_total (length (Cur.critical (STP.current pop))) 0 s1 f1)
    as (s2 & f2 & -> & _); [lia|lia|].
  simpl. eauto.
Qed.

Lemma gz_pos (x : number) : 0 < x -> gz x = x.
Proof. intros H. unfold gz. apply gtb_true in H. by rewrite H. Qed.

Lemma gz_nonpos (x : number) : x <= 0 -> gz x = 0.
Proof. intros H. unfold gz. apply gtb_false in H. by rewrite H. Qed.

Lemma Forall2_pair_eq_fst (l k : list (number * number)) :
  Forall2 pair_eq l k -> Forall2 Qeq l.*1 k.*1.
Proof. induction 1 as [|p q l k [H1 H2] H IH]; constructor; done. Qed.

Lemma Forall2_pair_eq_snd (l k : list (number * number)) :
  Forall2 pair_eq l k -> Forall2 Qeq l.*2 k.*2.
Proof. induction 1 as [|p q l k [H1 H2] H IH]; constructor; done. Qed.

(** ** Step 1 returns on well-shaped inputs *)

Lemma for_up_total {S : Type} (Inv : nat -> S -> Prop) (body : nat -> S -> outcome S) :
  forall count age s,
    (forall a t, (age <= a < age + count)%nat -> Inv a t ->
                 exists t', body a t = Ok t' /\ Inv (Datatypes.S a) t') ->
    Inv age s ->
    exists s', for_up count age body s = Ok s' /\ Inv (age + count)%nat s'.
Proof.
  induction count as [|count IH]; intros age s Hbody Hinv; simpl.
  - exists s. by rewrite Nat.add_0_r.
  - destruct (Hbody age s) as (s1 & -> & H1); [lia|done|]. simpl.
    destruct (IH (Datatypes.S age) s1) as (s' & Hs' & H'); [|done|].
    + intros a t Ha. apply Hbody. lia.
    + exists s'. split; [done|].
      by replace (age + Datatypes.S count)%nat with (Datatypes.S age + count)%nat by lia.
Qed.

Section EulerTotal.
Variables (pop : STP.t) (tdot : TD.t) (dt : number).

Lemma update_total (age : nat) (c : compartment) (s : STP.t) :
  (age < length (read_pop c pop))%nat ->
  (age < length (read_tdot c tdot))%nat ->
  filling age s ->
  exists s',
    update pop tdot dt age c s = Ok s' /\ filling age s' /\
    Cur.exposed (STP.current s') = Cur.exposed (STP.current s).
Proof.
  intros Hp Ht Hs. unfold update, get.
  destruct (lookup_lt_is_Some_2 _ _ Hp) as [x ->].
  destruct (lookup_lt_is_Some_2 _ _ Ht) as [dx ->]. simpl.
  destruct (set (read_pop c s) age (gz (x + dt * dx))) as [arr| |] eqn:Hset.
  - simpl. eexists. split; [done|]. split; [|apply exposed_write].
    intros c'. destruct (decide (c' = c)) as [->|Hne].
    + rewrite read_write_same. apply set_length in Hset. destruct (Hs c); lia.
    + rewrite read_write_other by done. apply Hs.
  - unfold set in Hset. destruct (age <? _)%nat; [done|]. by destruct (age =? _)%nat.
  - unfold set in Hset.
    destruct (Nat.ltb_spec age (length (read_pop c s))); [done|].
    destruct (Nat.eqb_spec age (length (read_pop c s))); [done|].
    destruct (Hs c); lia.
Qed.

Lemma updateAt_loop_total (age : nat) (popChain tdotChain : list number)
    (before : list (list number)) (count : nat) :
  forall (i : nat) (s : STP.t) (chain : list number),
    Cur.exposed (STP.current pop) !! age = Some popChain ->
    Cur.exposed (TD.current tdot) !! age = Some tdotChain ->
    (i + count <= length popChain)%nat ->
    (i + count <= length tdotChain)%nat ->
    Cur.exposed (STP.current s) = before ++ [chain] ->
    length before = age ->
    length chain = i ->
    exists s', for_up count i (updateAt pop tdot dt age) s = Ok s'.
Proof.
  induction count as [|count IH]; intros i s chain Hp Ht Hip Hit Hs Hb Hc; simpl;
    [by eauto|].
  unfold updateAt at 1. unfold get_array, get. rewrite Hp, Ht. simpl.
  destruct (lookup_lt_is_Some_2 popChain i) as [x ->]; [lia|].
  destruct (lookup_lt_is_Some_2 tdotChain i) as [dx ->]; [lia|]. simpl.
  rewrite Hs. rewrite lookup_app_r by lia. rewrite Hb, Nat.sub_diag. simpl.
  subst i. rewrite set_end. simpl.
  rewrite set_inside by (rewrite length_app; simpl; lia). simpl.
  eapply (IH (Datatypes.S (length chain)) _ (chain ++ [gz (x + dt * dx)]));
    try done; try lia.
  - simpl. rewrite <- Hb, insert_app_r_alt by lia. by rewrite Nat.sub_diag.
  - rewrite length_app. simpl. lia.
Qed.

Lemma euler_body_total (age : nat) (s : STP.t) :
  well_shaped pop tdot ->
  (age < length (Cur.infectious (STP.current pop)))%nat ->
  length (Cur.exposed (STP.current s)) = age ->
  (forall c, length (read_pop c s) = age) ->
  exists s', euler_body pop tdot dt age s = Ok s'.
Proof.
  intros (Hwp & Hwt & Hep & Het & Hch) Hage Hes Hls.
  destruct (lookup_lt_is_Some_2 (Cur.exposed (STP.current pop)) age) as [pc Hpc]; [lia|].
  destruct (lookup_lt_is_Some_2 (Cur.exposed (TD.current tdot)) age) as [tc Htc]; [lia|].
  pose proof (Hch age pc tc Hpc Htc) as Hsame.
  assert (Hin : forall c, (age < length (read_pop c pop))%nat
                          /\ (age < length (read_tdot c tdot))%nat).
  { intros c. rewrite Hwp, Hwt. done. }
  unfold euler_body, get_array. rewrite Htc, Hpc. simpl.
  rewrite (set_at_end _ _ _ Hes). simpl.
  assert (Hf0 : filling age (write_exposed (Cur.exposed (STP.current s) ++ [[]]) s)).
  { intros c. left. rewrite read_write_exposed. apply Hls. }
  destruct (update_total age current_susceptible _ (proj1 (Hin _)) (proj2 (Hin _)) Hf0)
    as (s1 & -> & Hf1 & He1). simpl.
  destruct (updateAt_loop_total age pc tc (Cur.exposed (STP.current s))
              (length pc) 0 s1 []) as (s2 & Hs2); try done; try lia.
  pose proof (updateAt_loop pop tdot dt age pc tc _ s1 s2 Hpc Htc He1 Hes Hs2)
    as (_ & He2 & _ & Hr2).
  rewrite Hs2. simpl.
  replace (length pc <? length tc)%nat with false by (symmetry; apply Nat.ltb_ge; lia).
  simpl.
  assert (Hf2 : filling age s2) by (intros c; rewrite Hr2; apply Hf1).
  repeat match goal with
         | Hf : filling age ?t |- exists s', bind (update _ _ _ _ ?c ?t) _ = Ok s' =>
             let t' := fresh "s" in
             let Hf' := fresh "Hf" in
             destruct (update_total age c t (proj1 (Hin _)) (proj2 (Hin _)) Hf)
               as (t' & -> & Hf' & _);
             clear Hf; cbn [bind]
         end.
  match goal with
  | Hf : filling age ?t |- exists s', update _ _ _ _ ?c ?t = Ok s' =>
      destruct (update_total age c t (proj1 (Hin _)) (proj2 (Hin _)) Hf) as (s' & -> & _)
  end.
  eauto.
Qed.

Lemma eulerUpdate_total (now : number) :
  well_shaped pop tdot -> exists e, eulerUpdate pop tdot dt now = Ok e.
Proof.
  intros Hw. unfold eulerUpdate.
  destruct (for_up_total
              (fun a t => length (Cur.exposed (STP.current t)) = a
                          /\ forall c, length (read_pop c t) = a)
              (euler_body pop tdot dt)
              (length (Cur.infectious (STP.current pop))) 0
              (STP.mk now Cur.empty Cum.empty)) as (e & He & _).
  - intros a t Ha [He Hl].
    destruct (euler_body_total a t Hw) as (t' & Ht'); [lia|done|done|].
    exists t'. split; [done|].
    destruct (euler_body_Ok pop tdot dt a t t' Ht' He Hl)
      as (_ & (pc & tc & _ & _ & _ & He') & Hp).
    split.
    + rewrite He', length_app. simpl. lia.
    + intros c. destruct (Hp c) as (v & _ & ->). rewrite length_app, Hl. simpl. lia.
  - split; [done|]. by intros [].
  - eauto.
Qed.
End EulerTotal.

(** On well-shaped inputs [advanceState] returns a state. *)
Lemma advanceState_total (pop : STP.t) (tdot : TD.t) (dt now nICUBeds : number) :
  well_shaped pop tdot ->
  exists s, advanceState pop tdot dt now nICUBeds = Ok s.
Proof.
  intros Hw. destruct (eulerUpdate_total pop tdot dt now Hw) as (e & He).
  pose proof (eulerUpdate_Ok _ _ _ _ _ He) as (_ & _ & Hl & _).
  pose proof (Hl current_critical) as Hlc. pose proof (Hl current_overflow) as Hlo.
  unfold read_pop in Hlc, Hlo. simpl in Hlc, Hlo.
  destruct Hw as (Hwp & _). pose proof (Hwp current_critical) as Hpc.
  unfold read_pop in Hpc. simpl in Hpc.
  destruct (redistribute_total pop nICUBeds e) as (s & Hs); [lia|lia|].
  exists s. unfold advanceState. by rewrite He.
Qed.

(** ** The Stage Combiner *)

(** A loop whose body overwrites entry [age] of an array of its state with
    a value related to the old one by [step]. *)
Lemma for_up_modify {S A : Type} (body : nat -> S -> outcome S) (proj : S -> list A)
    (step : nat -> A -> A -> Prop) :
  (forall age s s', body age s = Ok s' ->
                    exists x y, proj s !! age = Some x /\ step age x y /\
                                proj s' = <[age:=y]> (proj s)) ->
  forall count age s s',
    for_up count age body s = Ok s' ->
    length (proj s') = length (proj s) /\
    (forall j, (j < age \/ age + count <= j)%nat -> proj s' !! j = proj s !! j) /\
    (forall j, (age <= j < age + count)%nat ->
               exists x y, proj s !! j = Some x /\ step j x y /\ proj s' !! j = Some y).
Proof.
  intros Hbody count age s s' H.
  pose (Inv := fun (a : nat) (t : S) =>
    length (proj t) = length (proj s) /\
    (forall j, (j < age \/ a <= j)%nat -> proj t !! j = proj s !! j) /\
    (forall j, (age <= j < a)%nat ->
               exists x y, proj s !! j = Some x /\ step j x y /\ proj t !! j = Some y)).
  apply (for_up_inv Inv body count age s s');
    [|unfold Inv; split; [done|split; [done|intros; lia]]|done].
  intros a t t' Ha (Hl & Hout & Hin) Ht.
  destruct (Hbody a t t' Ht) as (x & y & Hx & Hxy & Heq).
  unfold Inv. rewrite Heq. split; [by rewrite length_insert|]. split.
  - intros j Hj. rewrite list_lookup_insert_ne by lia. apply Hout. lia.
  - intros j Hj. destruct (decide (j = a)) as [->|Hne].
    + exists x, y. rewrite <- (Hout a) by lia. split; [done|]. split; [done|].
      apply list_lookup_insert_eq. by eapply lookup_lt_Some.
    + rewrite list_lookup_insert_ne by done. apply Hin. lia.
Qed.

(** The [forEach] that adds [w] times a chain of a gradient to a chain of
    the sum. *)
Lemma forEach_add_stage (w : number) (gradChain : list number) :
  forall (i : nat) (chain chain' : list number),
    forEach gradChain i (add_stage w) chain = Ok chain' ->
    length chain' = length chain /\
    (forall j, (j < i \/ i + length gradChain <= j)%nat -> chain' !! j = chain !! j) /\
    (forall j e, gradChain !! j = Some e ->
                 exists x, chain !! (i + j)%nat = Some x /\
                           chain' !! (i + j)%nat = Some (x + w * e)).
Proof.
  induction gradChain as [|e0 rest IH]; intros i chain chain' H; simpl in H.
  - injection H as <-. split; [done|]. split; [done|]. intros j e Hj.
    by rewrite lookup_nil in Hj.
  - apply bind_Ok in H as (chain1 & H1 & H). unfold add_stage in H1.
    apply modify_Ok in H1 as (x0 & Hx0 & ->).
    apply IH in H as (Hl & Hout & Hin). rewrite length_insert in Hl.
    split; [done|]. split.
    + intros j Hj. simpl in Hj. rewrite Hout by lia.
      apply list_lookup_insert_ne. lia.
    + intros [|j] e Hj; simpl in Hj.
      * injection Hj as <-. rewrite Nat.add_0_r. exists x0. split; [done|].
        rewrite Hout by lia. apply list_lookup_insert_eq. by eapply lookup_lt_Some.
      * destruct (Hin j e Hj) as (x & Hx & Hx').
        replace (i + Datatypes.S j)%nat with (Datatypes.S i + j)%nat by lia.
        exists x. split; [|done]. rewrite list_lookup_insert_ne in Hx by lia. done.
Qed.

Section CombinerFacts.
Variable scale : list number.

Lemma zero_body_Ok (grad0 : TD.t) (age : nat) (s s' : TD.t) :
  zero_body grad0 age s = Ok s' ->
  (forall c, set (read_tdot c s) age 0 = Ok (read_tdot c s')) /\
  exists chain0,
    Cur.exposed (TD.current grad0) !! age = Some chain0 /\
    set (Cur.exposed (TD.current s)) age (map (fun _ => 0) chain0)
      = Ok (Cur.exposed (TD.current s')).
Proof.
  unfold zero_body. intros H. inv_binds H. subst s'. apply get_array_Ok in Hx0.
  split; [by intros []|]. eauto.
Qed.

Lemma add_body_Ok (grad : TD.t) (i age : nat) (s s' : TD.t) :
  add_body scale grad i age s = Ok s' ->
  exists w,
    scale !! i = Some w /\
    (forall c, exists x g,
       read_tdot c s !! age = Some x /\
       read_tdot c grad !! age = Some g /\
       read_tdot c s' = <[age:=x + w * g]> (read_tdot c s)) /\
    exists gradChain chain chain',
      Cur.exposed (TD.current grad) !! age = Some gradChain /\
      Cur.exposed (TD.current s) !! age = Some chain /\
      forEach gradChain 0 (add_stage w) chain = Ok chain' /\
      Cur.exposed (TD.current s') = <[age:=chain']> (Cur.exposed (TD.current s)).
Proof.
  unfold add_body. intros H. inv_binds H. subst s'.
  repeat match goal with
         | H : get _ _ = Ok _ |- _ => apply get_Ok in H
         | H : get_array _ _ = Ok _ |- _ => apply get_array_Ok in H
         | H : modify _ _ _ = Ok _ |- _ =>
             let y := fresh "y" in
             let Hy := fresh "Hy" in
             apply modify_Ok in H as (y & Hy & ->)
         end.
  exists x. split; [done|]. split.
  - intros []; simpl; eauto.
  - exists x4, x5, x6. split; [done|]. split; [done|]. split; [done|]. simpl.
    apply set_Ok in Hx7 as [[_ ->]|[Habs _]]; [done|].
    apply lookup_lt_Some in Hx5. lia.
Qed.
End CombinerFacts.

Lemma zero_loop_Ok (grad0 : TD.t) (n : nat) (sum0 : TD.t) :
  for_up n 0 (zero_body grad0) TD.empty = Ok sum0 ->
  (forall c age, (age < n)%nat -> read_tdot c sum0 !! age = Some 0) /\
  (forall age, (age < n)%nat ->
     exists chain0,
       Cur.exposed (TD.current grad0) !! age = Some chain0 /\
       Cur.exposed (TD.current sum0) !! age = Some (map (fun _ => 0) chain0)).
Proof.
  intros H. split.
  - intros c age Hage.
    destruct (for_up_push (zero_body grad0) (read_tdot c) (fun _ v => v = 0))
      with (count := n) (age := 0%nat) (s := TD.empty) (s' := sum0)
      as (_ & _ & Hv); [|done|by destruct c|].
    + intros a s s' Hb Hl. apply zero_body_Ok in Hb as [Hb _].
      exists 0. split; [done|]. by eapply set_push.
    + destruct (Hv age) as (v & Hv' & ->); [lia|done].
  - intros age Hage.
    destruct (for_up_push (zero_body grad0) (fun s => Cur.exposed (TD.current s))
                (fun a v => exists chain0,
                   Cur.exposed (TD.current grad0) !! a = Some chain0 /\
                   v = map (fun _ => 0) chain0))
      with (count := n) (age := 0%nat) (s := TD.empty) (s' := sum0)
      as (_ & _ & Hv); [|done|done|].
    + intros a s s' Hb Hl. apply zero_body_Ok in Hb as [_ (chain0 & H0 & Hb)].
      eexists. split; [eauto|]. by eapply set_push.
    + destruct (Hv age) as (v & Hv' & chain0 & H0 & ->); [lia|eauto].
Qed.

Lemma add_loop_Ok (scale : list number) (grad : TD.t) (i n : nat) (s s' : TD.t)
    (w : number) :
  for_up n 0 (add_body scale grad i) s = Ok s' ->
  scale !! i = Some w ->
  (forall c age, (age < n)%nat ->
     exists x g,
       read_tdot c s !! age = Some x /\ read_tdot c grad !! age = Some g /\
       read_tdot c s' !! age = Some (x + w * g)) /\
  (forall age, (age < n)%nat ->
     exists gradChain chain chain',
       Cur.exposed (TD.current grad) !! age = Some gradChain /\
       Cur.exposed (TD.current s) !! age = Some chain /\
       forEach gradChain 0 (add_stage w) chain = Ok chain' /\
       Cur.exposed (TD.current s') !! age = Some chain').
Proof.
  intros H Hw. split.
  - intros c age Hage.
    destruct (for_up_modify (add_body scale grad i) (read_tdot c)
                (fun a x y => exists g, read_tdot c grad !! a = Some g /\ y = x + w * g))
      with (count := n) (age := 0%nat) (s := s) (s' := s') as (_ & _ & Hv); [|done|].
    + intros a t t' Hb. apply add_body_Ok in Hb as (w' & Hw' & Hb & _).
      assert (w' = w) as -> by congruence.
      destruct (Hb c) as (x & g & Hx & Hg & Heq). eauto 10.
    + destruct (Hv age) as (x & y & Hx & (g & Hg & ->) & Hy); [lia|]. eauto.
  - intros age Hage.
    destruct (for_up_modify (add_body scale grad i) (fun t => Cur.exposed (TD.current t))
                (fun a chain chain' => exists gradChain,
                   Cur.exposed (TD.current grad) !! a = Some gradChain /\
                   forEach gradChain 0 (add_stage w) chain = Ok chain'))
      with (count := n) (age := 0%nat) (s := s) (s' := s') as (_ & _ & Hv); [|done|].
    + intros a t t' Hb. apply add_body_Ok in Hb as (w' & Hw' & _ & Hb).
      assert (w' = w) as -> by congruence.
      destruct Hb as (gc & ch & ch' & Hgc & Hch & Hfe & Heq). eauto 10.
    + destruct (Hv age) as (x & y & Hx & (gc & Hgc & Hfe) & Hy); [lia|]. eauto 10.
Qed.

(** The combiner on four slopes and four weights. *)
Lemma sumDerivatives_weighted (k1 k2 k3 k4 : TD.t) (w1 w2 w3 w4 : number) (tdot : TD.t) :
  sumDerivatives [k1; k2; k3; k4] [w1; w2; w3; w4] = Ok tdot ->
  weighted_sum w1 w2 w3 w4 k1 k2 k3 k4 tdot (length (Cur.susceptible (TD.current k1))).
Proof.
  unfold sumDerivatives. simpl. set (n := length _). intros H.
  apply bind_Ok in H as (s0 & H0 & H). cbv beta in H.
  apply bind_Ok in H as (s1 & H1 & H). cbv beta in H.
  apply bind_Ok in H as (s2 & H2 & H). cbv beta in H.
  apply bind_Ok in H as (s3 & H3 & H). cbv beta in H.
  apply bind_Ok in H as (s4 & H4 & H). injection H as <-.
  apply zero_loop_Ok in H0 as [Z0 E0].
  apply (add_loop_Ok _ _ _ _ _ _ w1) in H1 as [A1 B1]; [|done].
  apply (add_loop_Ok _ _ _ _ _ _ w2) in H2 as [A2 B2]; [|done].
  apply (add_loop_Ok _ _ _ _ _ _ w3) in H3 as [A3 B3]; [|done].
  apply (add_loop_Ok _ _ _ _ _ _ w4) in H4 as [A4 B4]; [|done].
  split.
  - intros c age x1 x2 x3 x4 Hage Hx1 Hx2 Hx3 Hx4.
    destruct (A1 c age Hage) as (y0 & g1 & Hy0 & Hg1 & Hy1).
    destruct (A2 c age Hage) as (y1 & g2 & Hy1' & Hg2 & Hy2).
    destruct (A3 c age Hage) as (y2 & g3 & Hy2' & Hg3 & Hy3).
    destruct (A4 c age Hage) as (y3 & g4 & Hy3' & Hg4 & Hy4).
    rewrite (Z0 c age Hage) in Hy0.
    assert (y0 = 0) as -> by congruence.
    assert (g1 = x1) as -> by congruence. assert (g2 = x2) as -> by congruence.
    assert (g3 = x3) as -> by congruence. assert (g4 = x4) as -> by congruence.
    assert (y1 = 0 + w1 * x1) as -> by congruence.
    assert (y2 = 0 + w1 * x1 + w2 * x2) as -> by congruence.
    assert (y3 = 0 + w1 * x1 + w2 * x2 + w3 * x3) as -> by congruence.
    exact Hy4.
  - intros age i c1 c2 c3 c4 x1 x2 x3 x4 Hage Hc1 Hx1 Hc2 Hx2 Hc3 Hx3 Hc4 Hx4.
    destruct (E0 age Hage) as (c0 & Hc0 & Hs0).
    destruct (B1 age Hage) as (g1 & ch0 & ch1 & Hg1 & Hch0 & F1 & Hch1).
    destruct (B2 age Hage) as (g2 & ch1' & ch2 & Hg2 & Hch1' & F2 & Hch2).
    destruct (B3 age Hage) as (g3 & ch2' & ch3 & Hg3 & Hch2' & F3 & Hch3).
    destruct (B4 age Hage) as (g4 & ch3' & ch4 & Hg4 & Hch3' & F4 & Hch4).
    assert (c0 = c1) as -> by congruence.
    assert (g1 = c1) as -> by congruence. assert (g2 = c2) as -> by congruence.
    assert (g3 = c3) as -> by congruence. assert (g4 = c4) as -> by congruence.
    assert (ch0 = map (fun _ => 0) c1) as -> by congruence.
    assert (ch1' = ch1) as -> by congruence.
    assert (ch2' = ch2) as -> by congruence.
    assert (ch3' = ch3) as -> by congruence.
    apply forEach_add_stage in F1 as (_ & _ & F1).
    apply forEach_add_stage in F2 as (_ & _ & F2).
    apply forEach_add_stage in F3 as (_ & _ & F3).
    apply forEach_add_stage in F4 as (_ & _ & F4).
    destruct (F1 i x1 Hx1) as (y0 & Hy0 & Hy1).
    destruct (F2 i x2 Hx2) as (y1 & Hy1' & Hy2).
    destruct (F3 i x3 Hx3) as (y2 & Hy2' & Hy3).
    destruct (F4 i x4 Hx4) as (y3 & Hy3' & Hy4).
    simpl in *.
    assert (y0 = 0) as ->.
    { change (map (fun _ : Q => 0) c1) with ((fun _ : Q => 0) <$> c1) in Hy0.
      rewrite list_lookup_fmap, Hx1 in Hy0. simpl in Hy0. congruence. }
    assert (y1 = 0 + w1 * x1) as -> by congruence.
    assert (y2 = 0 + w1 * x1 + w2 * x2) as -> by congruence.
    assert (y3 = 0 + w1 * x1 + w2 * x2 + w3 * x3) as -> by congruence.
    exists ch4. split; [done|]. exact Hy4.
Qed.

(** ** The clock reading of [advanceState] *)

Lemma for_up_commute {S : Type} (g : S -> S) (body : nat -> S -> outcome S) :
  (forall a s, body a (g s) = let* s' := body a s in Ok (g s')) ->
  forall count age s,
    for_up count age body (g s) = let* s' := for_up count age body s in Ok (g s').
Proof.
  intros Hbody. induction count as [|count IH]; intros age s; simpl; [done|].
  rewrite Hbody. destruct (body age s) as [s1| |]; simpl; [|done|done].
  apply IH.
Qed.

Section ClockFacts.
Variables (pop : STP.t) (tdot : TD.t) (dt : number) (t : number).

Lemma update_set_time (age : nat) (c : compartment) (s : STP.t) :
  update pop tdot dt age c (set_time t s)
  = let* s' := update pop tdot dt age c s in Ok (set_time t s').
Proof.
  unfold update.
  destruct (get (read_pop c pop) age) as [x| |]; simpl; [|done|done].
  destruct (get (read_tdot c tdot) age) as [dx| |]; simpl; [|done|done].
  replace (read_pop c (set_time t s)) with (read_pop c s) by (by destruct c).
  destruct (set (read_pop c s) age (gz (x + dt * dx))) as [arr| |]; simpl; [|done|done].
  f_equal. by destruct c.
Qed.

Lemma updateAt_set_time (age i : nat) (s : STP.t) :
  updateAt pop tdot dt age i (set_time t s)
  = let* s' := updateAt pop tdot dt age i s in Ok (set_time t s').
Proof.
  unfold updateAt.
  destruct (get_array (Cur.exposed (STP.current pop)) age) as [pc| |]; simpl; [|done|done].
  destruct (get pc i) as [x| |]; simpl; [|done|done].
  destruct (get_array (Cur.exposed (TD.current tdot)) age) as [tc| |]; simpl; [|done|done].
  destruct (get tc i) as [dx| |]; simpl; [|done|done].
  destruct (get_array (Cur.exposed (STP.current s)) age) as [nc| |]; simpl; [|done|done].
  destruct (set nc i (gz (x + dt * dx))) as [chain| |]; simpl; [|done|done].
  by destruct (set (Cur.exposed (STP.current s)) age chain) as [chains| |].
Qed.

Lemma euler_body_set_time (age : nat) (s : STP.t) :
  euler_body pop tdot dt age (set_time t s)
  = let* s' := euler_body pop tdot dt age s in Ok (set_time t s').
Proof.
  unfold euler_body.
  destruct (get_array (Cur.exposed (TD.current tdot)) age) as [tc| |]; simpl; [|done|done].
  destruct (set (Cur.exposed (STP.current s)) age []) as [chains| |]; simpl; [|done|done].
  change (write_exposed chains (set_time t s)) with (set_time t (write_exposed chains s)).
  rewrite update_set_time.
  destruct (update pop tdot dt age current_susceptible _) as [s1| |]; simpl; [|done|done].
  destruct (get_array (Cur.exposed (STP.current pop)) age) as [pc| |]; simpl; [|done|done].
  rewrite (for_up_commute (set_time t) (updateAt pop tdot dt age) (updateAt_set_time age)).
  destruct (for_up (length pc) 0 (updateAt pop tdot dt age) s1) as [s2| |]; simpl;
    [|done|done].
  destruct (length pc <? length tc)%nat; simpl; [done|].
  repeat (rewrite update_set_time;
          match goal with
          | |- bind (bind ?m _) _ = _ => destruct m as [?s| |]; simpl; [|done|done]
          end).
  apply update_set_time.
Qed.

Lemma overflow_loop_set_time (k : nat) : forall (s : STP.t) (f : number),
  overflow_loop k (set_time t s) f
  = let* r := overflow_loop k s f in Ok (set_time t r.1, r.2).
Proof.
  induction k as [|age IH]; intros s f; simpl; [done|].
  destruct (ltb f 0); [|done].
  destruct (get (Cur.critical (STP.current s)) age) as [c| |]; simpl; [|done|done].
  destruct (gtb c (- f)).
  - destruct (modify (Cur.critical (STP.current s)) age _) as [crit| |]; simpl;
      [|done|done].
    destruct (modify (Cur.overflow (STP.current s)) age _) as [over| |]; simpl;
      [|done|done].
    apply (IH (write current_overflow over (write current_critical crit s))).
  - destruct (modify (Cur.overflow (STP.current s)) age _) as [over| |]; simpl;
      [|done|done].
    destruct (set (Cur.critical (STP.current s)) age 0) as [crit| |]; simpl;
      [|done|done].
    apply (IH (write current_critical crit (write current_overflow over s))).
Qed.

Lemma refill_loop_set_time (count : nat) : forall (age : nat) (s : STP.t) (f : number),
  refill_loop count age (set_time t s) f
  = let* r := refill_loop count age s f in Ok (set_time t r.1, r.2).
Proof.
  induction count as [|count IH]; intros age s f; simpl; [done|].
  destruct (gtb f 0); [|done].
  destruct (get (Cur.overflow (STP.current s)) age) as [o| |]; simpl; [|done|done].
  destruct (gtb o f).
  - destruct (modify (Cur.critical (STP.current s)) age _) as [crit| |]; simpl;
      [|done|done].
    destruct (modify (Cur.overflow (STP.current s)) age _) as [over| |]; simpl;
      [|done|done].
    apply (IH _ (write current_overflow over (write current_critical crit s))).
  - destruct (modify (Cur.critical (STP.current s)) age _) as [crit| |]; simpl;
      [|done|done].
    destruct (set (Cur.overflow (STP.current s)) age 0) as [over| |]; simpl;
      [|done|done].
    apply (IH _ (write current_overflow over (write current_critical crit s))).
Qed.

Lemma redistribute_set_time (nICUBeds : number) (s : STP.t) :
  redistribute pop nICUBeds (set_time t s)
  = let* s' := redistribute pop nICUBeds s in Ok (set_time t s').
Proof.
  unfold redistribute. simpl. rewrite overflow_loop_set_time.
  destruct (overflow_loop _ s _) as [[s1 f1]| |]; simpl; [|done|done].
  rewrite refill_loop_set_time.
  by destruct (refill_loop _ 0 s1 f1) as [[s2 f2]| |].
Qed.

(** The clock reading only ends up in the [time] of the result. *)
Lemma advanceState_clock (now nICUBeds : number) :
  advanceState pop tdot dt t nICUBeds
  = let* s := advanceState pop tdot dt now nICUBeds in Ok (set_time t s).
Proof.
  unfold advanceState, eulerUpdate.
  change (STP.mk t Cur.empty Cum.empty) with (set_time t (STP.mk now Cur.empty Cum.empty)).
  rewrite (for_up_commute (set_time t) (euler_body pop tdot dt) euler_body_set_time).
  destruct (for_up _ 0 _ _) as [e| |]; simpl; [|done|done].
  apply redistribute_set_time.
Qed.
End ClockFacts.

Lemma fluxes_current (time : Date) (pop pop' : STP.t) (P : MP.t) :
  STP.current pop = STP.current pop' -> fluxes time pop P = fluxes time pop' P.
Proof.
  intros H. unfold fluxes, fluxes_body. by rewrite H.
Qed.

(** ** The Derivative Assembler *)

Lemma derivative_body_cumulative (flux : SF.t) (age : nat) (grad grad' : TD.t) :
  derivative_body flux age grad = Ok grad' ->
  exists infectious_severe infectious_recovered severe_recovered
         critical_fatality overflow_fatality,
    SF.infectious_severe flux !! age = Some infectious_severe /\
    SF.infectious_recovered flux !! age = Some infectious_recovered /\
    SF.severe_recovered flux !! age = Some severe_recovered /\
    SF.critical_fatality flux !! age = Some critical_fatality /\
    SF.overflow_fatality flux !! age = Some overflow_fatality /\
    set (Cum.recovered (TD.cumulative grad)) age (infectious_recovered + severe_recovered)
      = Ok (Cum.recovered (TD.cumulative grad')) /\
    set (Cum.hospitalized (TD.cumulative grad)) age (infectious_severe + infectious_severe)
      = Ok (Cum.hospitalized (TD.cumulative grad')) /\
    set (Cum.critical (TD.cumulative grad)) age (severe_recovered + severe_recovered)
      = Ok (Cum.critical (TD.cumulative grad')) /\
    set (Cum.fatality (TD.cumulative grad)) age (critical_fatality + overflow_fatality)
      = Ok (Cum.fatality (TD.cumulative grad')).
Proof.
  unfold derivative_body. intros H. inv_binds H. subst grad'. simpl.
  repeat match goal with H : get _ _ = Ok _ |- _ => apply get_Ok in H end.
  eexists _, _, _, _, _. repeat split; eassumption.
Qed.

(** C6.  For every age group of the flux set, the derivative's cumulative
    [hospitalized] entry is the infectious-to-severe flux added to itself
    (twice that flux), its cumulative [critical] entry is the
    severe-to-recovered flux added to itself (twice that flux, and not the
    severe-to-critical flux), [recovered] is the infectious-to-recovered plus
    the severe-to-recovered flux, and [fatality] is the critical-to-fatality
    plus the overflow-to-fatality flux. *)
Theorem derivative_cumulative_terms (flux : SF.t) (grad : TD.t) (age : nat) :
  derivative flux = Ok grad ->
  (age < length (SF.susceptible flux))%nat ->
  exists infectious_severe infectious_recovered severe_recovered
         critical_fatality overflow_fatality,
    SF.infectious_severe flux !! age = Some infectious_severe /\
    SF.infectious_recovered flux !! age = Some infectious_recovered /\
    SF.severe_recovered flux !! age = Some severe_recovered /\
    SF.critical_fatality flux !! age = Some critical_fatality /\
    SF.overflow_fatality flux !! age = Some overflow_fatality /\
    Cum.hospitalized (TD.cumulative grad) !! age
      = Some (infectious_severe + infectious_severe) /\
    infectious_severe + infectious_severe == 2 * infectious_severe /\
    Cum.critical (TD.cumulative grad) !! age
      = Some (severe_recovered + severe_recovered) /\
    severe_recovered + severe_recovered == 2 * severe_recovered /\
    Cum.recovered (TD.cumulative grad) !! age
      = Some (infectious_recovered + severe_recovered) /\
    Cum.fatality (TD.cumulative grad) !! age
      = Some (critical_fatality + overflow_fatality).
Proof.
  unfold derivative. intros H Hage.
  pose (entry := fun (a : nat) (v : number * number * number * number) =>
    exists i_s i_r s_r c_f o_f,
      SF.infectious_severe flux !! a = Some i_s /\
      SF.infectious_recovered flux !! a = Some i_r /\
      SF.severe_recovered flux !! a = Some s_r /\
      SF.critical_fatality flux !! a = Some c_f /\
      SF.overflow_fatality flux !! a = Some o_f /\
      v = (i_r + s_r, i_s + i_s, s_r + s_r, c_f + o_f)).
  assert (Hpush : forall (proj : TD.t -> list number)
                         (pick : number * number * number * number -> number),
    (forall a g g' v, derivative_body flux a g = Ok g' -> entry a v ->
                      set (proj g) a (pick v) = Ok (proj g')) ->
    proj TD.empty = [] ->
    exists v, proj grad !! age = Some (pick v) /\ entry age v).
  { intros proj pick Hset Hempty.
    destruct (for_up_push (derivative_body flux) proj
                (fun a x => exists v, x = pick v /\ entry a v)) with
      (count := length (SF.susceptible flux)) (age := 0%nat) (s := TD.empty) (s' := grad)
      as (_ & _ & Hval); [|done|by rewrite Hempty|].
    - intros a g g' Hb Hl.
      destruct (derivative_body_cumulative _ _ _ _ Hb)
        as (i_s & i_r & s_r & c_f & o_f & H1 & H2 & H3 & H4 & H5 & _).
      assert (He : entry a (i_r + s_r, i_s + i_s, s_r + s_r, c_f + o_f)).
      { exists i_s, i_r, s_r, c_f, o_f. done. }
      exists (pick (i_r + s_r, i_s + i_s, s_r + s_r, c_f + o_f)). split; [eauto|].
      eapply set_push; [|done]. by apply Hset.
    - destruct (Hval age) as (x & Hx & v & -> & Hv); [lia|]. eauto. }
  assert (Hbody : forall a g g' v, derivative_body flux a g = Ok g' -> entry a v ->
    set (Cum.recovered (TD.cumulative g)) a (v.1.1.1) = Ok (Cum.recovered (TD.cumulative g')) /\
    set (Cum.hospitalized (TD.cumulative g)) a (v.1.1.2)
      = Ok (Cum.hospitalized (TD.cumulative g')) /\
    set (Cum.critical (TD.cumulative g)) a (v.1.2) = Ok (Cum.critical (TD.cumulative g')) /\
    set (Cum.fatality (TD.cumulative g)) a (v.2) = Ok (Cum.fatality (TD.cumulative g'))).
  { intros a g g' v Hb (i_s & i_r & s_r & c_f & o_f & H1 & H2 & H3 & H4 & H5 & ->).
    destruct (derivative_body_cumulative _ _ _ _ Hb)
      as (i_s' & i_r' & s_r' & c_f' & o_f' & H1' & H2' & H3' & H4' & H5' & Hs).
    assert (i_s' = i_s) as -> by congruence.
    assert (i_r' = i_r) as -> by congruence.
    assert (s_r' = s_r) as -> by congruence.
    assert (c_f' = c_f) as -> by congruence.
    assert (o_f' = o_f) as -> by congruence.
    simpl. exact Hs. }
  destruct (Hpush (fun g => Cum.recovered (TD.cumulative g)) (fun v => v.1.1.1))
    as (v1 & Hr & He1); [intros; by eapply Hbody|done|].
  destruct (Hpush (fun g => Cum.hospitalized (TD.cumulative g)) (fun v => v.1.1.2))
    as (v2 & Hh & He2); [intros; by eapply Hbody|done|].
  destruct (Hpush (fun g => Cum.critical (TD.cumulative g)) (fun v => v.1.2))
    as (v3 & Hc & He3); [intros; by eapply Hbody|done|].
  destruct (Hpush (fun g => Cum.fatality (TD.cumulative g)) (fun v => v.2))
    as (v4 & Hf & He4); [intros; by eapply Hbody|done|].
  destruct He1 as (i_s & i_r & s_r & c_f & o_f & H1 & H2 & H3 & H4 & H5 & ->).
  destruct He2 as (i_s2 & i_r2 & s_r2 & c_f2 & o_f2 & ? & ? & ? & ? & ? & ->).
  destruct He3 as (i_s3 & i_r3 & s_r3 & c_f3 & o_f3 & ? & ? & ? & ? & ? & ->).
  destruct He4 as (i_s4 & i_r4 & s_r4 & c_f4 & o_f4 & ? & ? & ? & ? & ? & ->).
  assert (i_s2 = i_s) as -> by congruence.
  assert (s_r3 = s_r) as -> by congruence.
  assert (c_f4 = c_f) as -> by congruence.
  assert (o_f4 = o_f) as -> by congruence.
  simpl in *.
  exists i_s, i_r, s_r, c_f, o_f. repeat split; try done; ring.
Qed.

(** ** The Flux Calculator *)

Lemma fluxes_body_entries (time : Date) (pop : STP.t) (P : MP.t) (fracInfected : number)
    (age : nat) (flux flux' : SF.t) :
  fluxes_body time pop P fracInfected age flux = Ok flux' ->
  exists chain imports isolated susceptible,
    Cur.exposed (STP.current pop) !! age = Some chain /\
    MP.importsPerDay P !! age = Some imports /\
    MP.frac_isolated P !! age = Some isolated /\
    Cur.susceptible (STP.current pop) !! age = Some susceptible /\
    set (SF.susceptible flux) age
        (imports + (1 - isolated) * MP.rate_infection P time * susceptible * fracInfected)
      = Ok (SF.susceptible flux') /\
    set (SF.exposed flux) age
        (map (fun exposed => MP.rate_latency P * exposed * inject_Z (Z.of_nat (length chain)))
             chain)
      = Ok (SF.exposed flux').
Proof.
  unfold fluxes_body. intros H. inv_binds H. subst flux'. simpl.
  repeat match goal with
         | H : get _ _ = Ok _ |- _ => apply get_Ok in H
         | H : get_array _ _ = Ok _ |- _ => apply get_array_Ok in H
         end.
  eexists _, _, _, _. repeat split; eassumption.
Qed.

Lemma div_Ok (x y q : number) : div x y = Ok q -> q = x / y /\ ~ y == 0.
Proof.
  unfold div. destruct (Qeq_bool y 0) eqn:E; [discriminate|].
  intros [= <-]. split; [done|]. by apply Qeq_bool_neq.
Qed.

(** C5.  For every age group [age] of the state, the susceptible-to-exposed
    flux is [importsPerDay[age] + (1 - isolated[age]) * infectionRate(time) *
    susceptible[age] * (sum of infectious over all ages / populationServed)],
    and the flux out of stage [i] of the group's exposed chain is
    [latencyRate * exposed[age][i] * numStages], with [numStages] the length
    of that group's chain. *)
Theorem fluxes_susceptible_exposed (time : Date) (pop : STP.t) (P : MP.t) (flux : SF.t)
    (age : nat) :
  fluxes time pop P = Ok flux ->
  (age < length (Cur.infectious (STP.current pop)))%nat ->
  exists chain imports isolated susceptible,
    Cur.exposed (STP.current pop) !! age = Some chain /\
    MP.importsPerDay P !! age = Some imports /\
    MP.frac_isolated P !! age = Some isolated /\
    Cur.susceptible (STP.current pop) !! age = Some susceptible /\
    SF.susceptible flux !! age =
      Some (imports
            + (1 - isolated) * MP.rate_infection P time * susceptible
              * (sum (Cur.infectious (STP.current pop)) / MP.populationServed P)) /\
    exists fluxChain,
      SF.exposed flux !! age = Some fluxChain /\
      length fluxChain = length chain /\
      forall (i : nat) (exposed : number),
        chain !! i = Some exposed ->
        fluxChain !! i =
          Some (MP.rate_latency P * exposed * inject_Z (Z.of_nat (length chain))).
Proof.
  unfold fluxes. intros H Hage.
  apply bind_Ok in H as (frac & Hfrac & H). apply div_Ok in Hfrac as [-> _].
  set (frac := sum _ / _) in *.
  destruct (for_up_push (fluxes_body time pop P frac) SF.susceptible
              (fun a x => exists imports isolated susceptible,
                 MP.importsPerDay P !! a = Some imports /\
                 MP.frac_isolated P !! a = Some isolated /\
                 Cur.susceptible (STP.current pop) !! a = Some susceptible /\
                 x = imports + (1 - isolated) * MP.rate_infection P time * susceptible * frac))
    with (count := length (Cur.infectious (STP.current pop))) (age := 0%nat)
         (s := SF.empty) (s' := flux) as (_ & _ & Hs); [|done|done|].
  { intros a s s' Hb Hl.
    destruct (fluxes_body_entries _ _ _ _ _ _ _ Hb)
      as (chain & imports & isolated & susceptible & H1 & H2 & H3 & H4 & H5 & H6).
    eexists. split; [|eapply set_push; eauto]. eauto 10. }
  destruct (for_up_push (fluxes_body time pop P frac) SF.exposed
              (fun a x => exists chain,
                 Cur.exposed (STP.current pop) !! a = Some chain /\
                 x = map (fun exposed =>
                            MP.rate_latency P * exposed * inject_Z (Z.of_nat (length chain)))
                         chain))
    with (count := length (Cur.infectious (STP.current pop))) (age := 0%nat)
         (s := SF.empty) (s' := flux) as (_ & _ & He); [|done|done|].
  { intros a s s' Hb Hl.
    destruct (fluxes_body_entries _ _ _ _ _ _ _ Hb)
      as (chain & imports & isolated & susceptible & H1 & H2 & H3 & H4 & H5 & H6).
    eexists. split; [|eapply set_push; eauto]. eauto. }
  destruct (Hs age) as (x & Hx & imports & isolated & susceptible & H2 & H3 & H4 & ->); [lia|].
  destruct (He age) as (y & Hy & chain & H1 & ->); [lia|].
  exists chain, imports, isolated, susceptible. repeat split; try done.
  eexists. split; [exact Hy|]. split; [by rewrite length_map|].
  intros i exposed Hi.
  match goal with |- map ?g chain !! i = _ => change (map g chain) with (g <$> chain) end.
  by rewrite list_lookup_fmap, Hi.
Qed.

(** ** The Capacity-Constrained State Advancer *)




(** C3.  After the Euler update, the pairs [(critical[a], overflow[a])]
    that [advanceState] returns are those of section 4.4: over capacity,
    from the oldest age group to the youngest, each group moves
    [min(critical[a], deficit)] from critical to overflow until the deficit
    is absorbed; with spare beds, from the youngest to the oldest, each
    group takes patients back from overflow.  With two age groups,
    [critical = [5, 5]], [overflow = [0, 0]], a zero derivative, 7 beds and
    any step size, the result has [critical = [5, 2]] and
    [overflow = [0, 3]]. *)
Theorem advanceState_redistribution_order :
  (forall (pop : STP.t) (tdot : TD.t) (dt now nICUBeds : number) (e s : STP.t),
     eulerUpdate pop tdot dt now = Ok e ->
     redistribute pop nICUBeds e = Ok s ->
     Forall2 pair_eq
       (zip (Cur.critical (STP.current s)) (Cur.overflow (STP.current s)))
       (spec_redistribute nICUBeds
          (zip (Cur.critical (STP.current e)) (Cur.overflow (STP.current e))))) /\
  (forall dt now : number,
     exists s,
       advanceState two_groups zero_derivative dt now 7 = Ok s /\
       Forall2 Qeq (Cur.critical (STP.current s)) [5; 2] /\
       Forall2 Qeq (Cur.overflow (STP.current s)) [0; 3]).
Proof.
  split.
  - intros pop tdot dt now nICUBeds e s He Hr.
    assert (H : advanceState pop tdot dt now nICUBeds = Ok s).
    { unfold advanceState. by rewrite He. }
    apply advanceState_Ok in H as (e' & He' & _ & _ & -> & _).
    assert (e' = e) as -> by congruence.
    apply redistribute_pass_spec; [apply Forall2_pair_eq_refl|reflexivity].
  - intros dt now.
    assert (Hw : well_shaped two_groups zero_derivative).
    { split; [by intros []|]. split; [by intros []|]. split; [done|]. split; [done|].
      intros [|[|age]] pc tc; simpl; intros [= <-] [= <-]; done. }
    destruct (eulerUpdate_total two_groups zero_derivative dt now Hw) as (e & He).
    pose proof (eulerUpdate_Ok _ _ _ _ _ He) as Hst.
    pose proof (euler_state_read _ _ _ _ _ _ current_critical Hst) as Hc.
    pose proof (euler_state_read _ _ _ _ _ _ current_overflow Hst) as Ho.
    unfold read_pop, read_tdot, euler in Hc, Ho. simpl in Hc, Ho.
    destruct (redistribute_total two_groups 7 e) as (s & Hs);
      [by rewrite Hc|by rewrite Hc, Ho|].
    exists s. split; [unfold advanceState; by rewrite He|].
    apply redistribute_icu in Hs as [Hcs Hos];
      [|by rewrite Hc, Ho|by rewrite Hc].
    rewrite Hc, Ho in Hcs, Hos.
    assert (Hin : Forall2 pair_eq
      (zip [gz (5 + dt * 0); gz (5 + dt * 0)] [gz (0 + dt * 0); gz (0 + dt * 0)])
      [(5, 0); (5, 0)]).
    { rewrite (gz_pos (5 + dt * 0)) by lra. rewrite (gz_nonpos (0 + dt * 0)) by lra.
      repeat constructor; simpl; lra. }
    apply (redistribute_pass_proper 7) in Hin.
    rewrite Hcs, Hos. split.
    + apply Forall2_pair_eq_fst in Hin.
      eapply Forall2_trans; [|exact Hin|].
      * intros x y z Hxy Hyz. by rewrite Hxy.
      * repeat constructor.
    + apply Forall2_pair_eq_snd in Hin.
      eapply Forall2_trans; [|exact Hin|].
      * intros x y z Hxy Hyz. by rewrite Hxy.
      * repeat constructor.
Qed.

(** ** The Trajectory Driver *)

Section DriverFacts.
Variables (msPerDay : number) (clock : nat -> number).

Lemma evolve_loop_steps (P : MP.t) (dt : number) (nSteps : Z) (m : nat) :
  forall (i : Z) (s : STP.t) (calls : nat),
    Z.to_nat (nSteps - i) = m ->
    evolve_loop msPerDay clock P dt nSteps i s calls = steps msPerDay clock P dt m s calls.
Proof.
  induction m as [|m IH]; intros i s calls Hm; simp evolve_loop.
  - destruct (Z_lt_dec i nSteps) as [Hlt|Hge]; [lia|]. done.
  - destruct (Z_lt_dec i nSteps) as [Hlt|Hge]; [|lia]. simpl.
    destruct (stepODE msPerDay clock s P dt calls) as [[s1 c1]| |]; simpl; try done.
    apply IH. lia.
Qed.

Lemma stepODE_calls (pop : STP.t) (P : MP.t) (dt : number) (calls : nat)
    (s : STP.t) (c : nat) :
  stepODE msPerDay clock pop P dt calls = Ok (s, c) -> c = (calls + 4)%nat.
Proof.
  unfold stepODE. intros H. inv_binds H. done.
Qed.

Lemma steps_calls (P : MP.t) (dt : number) (n : nat) :
  forall (pop : STP.t) (calls : nat) (s : STP.t) (c : nat),
    steps msPerDay clock P dt n pop calls = Ok (s, c) -> c = (calls + 4 * n)%nat.
Proof.
  induction n as [|n IH]; intros pop calls s c H; simpl in H.
  - injection H as <- <-. lia.
  - apply bind_Ok in H as ([s1 c1] & H1 & H). apply stepODE_calls in H1. simpl in H.
    apply IH in H. lia.
Qed.

Lemma Math_round_comp (x y : number) : x == y -> Math_round x = Math_round y.
Proof. intros H. unfold Math_round. apply Qfloor_comp. by rewrite H. Qed.

(** [evolve] is [steps] with the step count and the step size of the source. *)
Lemma evolve_steps (pop : STP.t) (P : MP.t) (tMax : number)
    (sample : number -> number) (calls : nat) :
  evolve msPerDay clock pop P tMax sample calls
  = steps msPerDay clock P
      ((tMax - STP.time pop)
       / inject_Z (Z.max 1 (Math_round ((tMax - STP.time pop) / eulerStep))))
      (Z.to_nat (Z.max 1 (Math_round ((tMax - STP.time pop) / eulerStep)))) pop calls.
Proof.
  unfold evolve, div.
  set (n' := Z.max 1 _).
  destruct (Qeq_bool (inject_Z n') 0) eqn:E.
  - apply Qeq_bool_iff in E. unfold Qeq in E. simpl in E. lia.
  - simpl. apply evolve_loop_steps. lia.
Qed.

(** C4.  [evolve] performs [n = max(1, round((tMax - pop.time) / 0.5))]
    steps of [stepODE], all of size [(tMax - pop.time) / n], each on the
    output of the one before (every step reads the clock four times, so a
    run that returns has read it [4 * n] times); with [tMax = pop.time + 1]
    these are two steps of size one half. *)
Theorem evolve_sub_steps (pop : STP.t) (P : MP.t) (tMax : number)
    (sample : number -> number) (calls : nat) :
  let dT := tMax - STP.time pop in
  let n := Z.max 1 (Math_round (dT / eulerStep)) in
  evolve msPerDay clock pop P tMax sample calls
    = steps msPerDay clock P (dT / inject_Z n) (Z.to_nat n) pop calls /\
  (forall s c, evolve msPerDay clock pop P tMax sample calls = Ok (s, c) ->
               c = (calls + 4 * Z.to_nat n)%nat) /\
  (let dt := (STP.time pop + 1 - STP.time pop) / inject_Z 2 in
   dt == 1 # 2 /\
   evolve msPerDay clock pop P (STP.time pop + 1) sample calls
     = (let* r := stepODE msPerDay clock pop P dt calls in
        stepODE msPerDay clock r.1 P dt r.2)).
Proof.
  intros dT n.
  split; [apply evolve_steps|]. split.
  - intros s c H. rewrite evolve_steps in H. by apply steps_calls in H.
  - intros dt. split; [unfold dt; field|].
    rewrite evolve_steps.
    assert (Hn : Z.max 1 (Math_round ((STP.time pop + 1 - STP.time pop) / eulerStep)) = 2%Z).
    { rewrite (Math_round_comp _ 2); [done|]. unfold eulerStep. field. }
    rewrite Hn. simpl.
    destruct (stepODE msPerDay clock pop P _ calls) as [[s1 c1]| |]; simpl; try done.
    by destruct (stepODE msPerDay clock s1 P _ c1) as [[s2 c2]| |].
Qed.
End DriverFacts.

(** ** Determinism of the driver *)

Section Determinism.
Variable msPerDay : number.

Lemma stepODE_clock (clock1 clock2 : nat -> number) (pop : STP.t) (P : MP.t)
    (dt : number) (calls1 calls2 : nat) :
  state_of (stepODE msPerDay clock1 pop P dt calls1)
  = state_of (stepODE msPerDay clock2 pop P dt calls2).
Proof.
  unfold stepODE.
  destruct (new_Date (STP.time pop)) as [t0| |]; simpl; [|done|done].
  destruct (new_Date (STP.time pop + dt / 2 * msPerDay)) as [t1| |]; simpl; [|done|done].
  destruct (new_Date (STP.time pop + dt * msPerDay)) as [t2| |]; simpl; [|done|done].
  destruct (fluxes t0 pop P) as [f1| |]; simpl; [|done|done].
  destruct (derivative f1) as [k1| |]; simpl; [|done|done].
  rewrite (advanceState_clock pop k1 (dt / 2) (clock1 calls1) 0).
  rewrite (advanceState_clock pop k1 (dt / 2) (clock2 calls2) 0).
  destruct (advanceState pop k1 (dt / 2) 0 (MP.ICUBeds P)) as [p1| |]; simpl; [|done|done].
  rewrite (fluxes_current t1 (set_time (clock1 calls1) p1) p1) by done.
  rewrite (fluxes_current t1 (set_time (clock2 calls2) p1) p1) by done.
  destruct (fluxes t1 p1 P) as [f2| |]; simpl; [|done|done].
  destruct (derivative f2) as [k2| |]; simpl; [|done|done].
  rewrite (advanceState_clock pop k2 (dt / 2) (clock1 (calls1 + 1)%nat) 0).
  rewrite (advanceState_clock pop k2 (dt / 2) (clock2 (calls2 + 1)%nat) 0).
  destruct (advanceState pop k2 (dt / 2) 0 (MP.ICUBeds P)) as [p2| |]; simpl; [|done|done].
  rewrite (fluxes_current t1 (set_time (clock1 (calls1 + 1)%nat) p2) p2) by done.
  rewrite (fluxes_current t1 (set_time (clock2 (calls2 + 1)%nat) p2) p2) by done.
  destruct (fluxes t1 p2 P) as [f3| |]; simpl; [|done|done].
  destruct (derivative f3) as [k3| |]; simpl; [|done|done].
  rewrite (advanceState_clock pop k3 dt (clock1 (calls1 + 2)%nat) 0).
  rewrite (advanceState_clock pop k3 dt (clock2 (calls2 + 2)%nat) 0).
  destruct (advanceState pop k3 dt 0 (MP.ICUBeds P)) as [p3| |]; simpl; [|done|done].
  rewrite (fluxes_current t2 (set_time (clock1 (calls1 + 2)%nat) p3) p3) by done.
  rewrite (fluxes_current t2 (set_time (clock2 (calls2 + 2)%nat) p3) p3) by done.
  destruct (fluxes t2 p3 P) as [f4| |]; simpl; [|done|done].
  destruct (derivative f4) as [k4| |]; simpl; [|done|done].
  destruct (sumDerivatives [k1; k2; k3; k4] _) as [tdot| |]; simpl; [|done|done].
  rewrite (advanceState_clock pop tdot dt (clock1 (calls1 + 3)%nat) 0).
  rewrite (advanceState_clock pop tdot dt (clock2 (calls2 + 3)%nat) 0).
  by destruct (advanceState pop tdot dt 0 (MP.ICUBeds P)) as [p4| |].
Qed.

Lemma steps_clock (clock1 clock2 : nat -> number) (P : MP.t) (dt : number) (n : nat) :
  forall (pop : STP.t) (calls1 calls2 : nat),
    state_of (steps msPerDay clock1 P dt n pop calls1)
    = state_of (steps msPerDay clock2 P dt n pop calls2).
Proof.
  induction n as [|n IH]; intros pop calls1 calls2; simpl; [done|].
  pose proof (stepODE_clock clock1 clock2 pop P dt calls1 calls2) as H.
  destruct (stepODE msPerDay clock1 pop P dt calls1) as [[s1 c1]| |];
    destruct (stepODE msPerDay clock2 pop P dt calls2) as [[s2 c2]| |];
    simpl in *; try done.
  injection H as <-. apply IH.
Qed.

Lemma advanceState_time (pop : STP.t) (tdot : TD.t) (dt now nICUBeds : number)
    (s : STP.t) :
  advanceState pop tdot dt now nICUBeds = Ok s -> STP.time s = now.
Proof.
  rewrite (advanceState_clock pop tdot dt now 0).
  intros H. apply bind_Ok in H as (s0 & _ & H). by injection H as <-.
Qed.

(** C8.  [evolve] returns the same outcome, state and [time] included,
    whatever the sampler and whatever the wall clock: the state that
    [advanceState] builds starts with the clock reading as its [time], but
    the fluxes never read that field and [stepODE] overwrites it with the
    time value of [t2]. *)
Theorem evolve_deterministic (clock1 clock2 : nat -> number) (pop : STP.t) (P : MP.t)
    (tMax : number) (sample1 sample2 : number -> number) (calls1 calls2 : nat) :
  state_of (evolve msPerDay clock1 pop P tMax sample1 calls1)
  = state_of (evolve msPerDay clock2 pop P tMax sample2 calls2) /\
  (forall tdot dt now nICUBeds s,
     advanceState pop tdot dt now nICUBeds = Ok s -> STP.time s = now) /\
  (forall dt s c,
     stepODE msPerDay clock1 pop P dt calls1 = Ok (s, c) ->
     exists t2, new_Date (STP.time pop + dt * msPerDay) = Ok t2 /\
                STP.time s = valueOf t2).
Proof.
  split; [|split].
  - rewrite !evolve_steps. apply steps_clock.
  - intros tdot dt now nICUBeds s. apply advanceState_time.
  - intros dt s c H. unfold stepODE in H. inv_binds H. subst s. eauto.
Qed.
End Determinism.

(** ** The RK4 Stepper *)

(** C7, as the claim states it, counts four intermediate advances and a
    final one.  A step calls [advanceState] four times in all: three times
    for the states at which [k2], [k3] and [k4] are evaluated, and once
    for the result. *)
Lemma stepODE_advances_count :
  advances 0 (stepODE example_msPerDay example_clock example_pop example_P (1 # 2) 0)
    = Some (3 + 1)%nat /\
  advances 0 (stepODE example_msPerDay example_clock example_pop example_P (1 # 2) 0)
    <> Some (4 + 1)%nat.
Proof.
  assert (H : advances 0 (stepODE example_msPerDay example_clock example_pop example_P
                            (1 # 2) 0) = Some 4%nat) by (vm_compute; reflexivity).
  rewrite H. split; [reflexivity|discriminate].
Qed.

(** C7, amended.  One step computes [k1] at [t0] from the input state,
    [k2] and [k3] at [t1 = t0 + dt/2] from the input state advanced by
    [dt/2] along [k1] and along [k2], and [k4] at [t2 = t0 + dt] from the
    input state advanced by [dt] along [k3]; it combines them into the
    elementwise sum [(1/6) k1 + (1/3) k2 + (1/3) k3 + (1/6) k4] over every
    scalar field and every chain stage, advances the input state by [dt]
    along the combination and stamps the result with [t2].  The bed budget
    of the three intermediate advances and of the final one is
    [P.ICUBeds]. *)
Theorem stepODE_rk4 (msPerDay : number) (clock : nat -> number) (pop : STP.t) (P : MP.t)
    (dt : number) (calls : nat) (s : STP.t) (c : nat) :
  stepODE msPerDay clock pop P dt calls = Ok (s, c) ->
  exists t0 t1 t2 flux1 flux2 flux3 flux4 k1 k2 k3 k4 pop1 pop2 pop3 tdot state,
    new_Date (STP.time pop) = Ok t0 /\
    new_Date (STP.time pop + dt / 2 * msPerDay) = Ok t1 /\
    new_Date (STP.time pop + dt * msPerDay) = Ok t2 /\
    fluxes t0 pop P = Ok flux1 /\ derivative flux1 = Ok k1 /\
    advanceState pop k1 (dt / 2) (clock calls) (MP.ICUBeds P) = Ok pop1 /\
    fluxes t1 pop1 P = Ok flux2 /\ derivative flux2 = Ok k2 /\
    advanceState pop k2 (dt / 2) (clock (calls + 1)%nat) (MP.ICUBeds P) = Ok pop2 /\
    fluxes t1 pop2 P = Ok flux3 /\ derivative flux3 = Ok k3 /\
    advanceState pop k3 dt (clock (calls + 2)%nat) (MP.ICUBeds P) = Ok pop3 /\
    fluxes t2 pop3 P = Ok flux4 /\ derivative flux4 = Ok k4 /\
    sumDerivatives [k1; k2; k3; k4] [1 / 6; 1 / 3; 1 / 3; 1 / 6] = Ok tdot /\
    weighted_sum (1 / 6) (1 / 3) (1 / 3) (1 / 6) k1 k2 k3 k4 tdot
                 (length (Cur.susceptible (TD.current k1))) /\
    (forall x1 x2 x3 x4,
       weighted (1 / 6) (1 / 3) (1 / 3) (1 / 6) x1 x2 x3 x4
       == (1 # 6) * x1 + (1 # 3) * x2 + (1 # 3) * x3 + (1 # 6) * x4) /\
    advanceState pop tdot dt (clock (calls + 3)%nat) (MP.ICUBeds P) = Ok state /\
    s = set_time (valueOf t2) state /\
    c = (calls + 4)%nat.
Proof.
  unfold stepODE. intros H. inv_binds H. subst s c.
  exists x, x0, x1, x2, x5, x8, x11, x3, x6, x9, x12, x4, x7, x10, x13, x14.
  repeat (split; [done|]).
  split; [by apply sumDerivatives_weighted|].
  split; [intros; unfold weighted; field|].
  done.
Qed.

(** ** Shapes: what the code does not check *)





Section TruncateFacts.
Variables (msPerDay : number) (clock : nat -> number).



End TruncateFacts.



(** ** The theorems at the example *)




Lemma fluxes_susceptible_exposed_witness :
  fluxes 1600000000000%Z example_pop example_P = Ok example_flux /\
  (1 < length (Cur.infectious (STP.current example_pop)))%nat /\
  exists chain imports isolated susceptible,
    Cur.exposed (STP.current example_pop) !! 1%nat = Some chain /\
    MP.importsPerDay example_P !! 1%nat = Some imports /\
    MP.frac_isolated example_P !! 1%nat = Some isolated /\
    Cur.susceptible (STP.current example_pop) !! 1%nat = Some susceptible /\
    SF.susceptible example_flux !! 1%nat =
      Some (imports
            + (1 - isolated) * MP.rate_infection example_P 1600000000000%Z * susceptible
              * (sum (Cur.infectious (STP.current example_pop))
                 / MP.populationServed example_P)).
Proof.
  split; [vm_compute; reflexivity|]. split; [simpl; lia|].
  destruct (fluxes_susceptible_exposed 1600000000000%Z example_pop example_P example_flux 1)
    as (chain & imports & isolated & susceptible & H1 & H2 & H3 & H4 & H5 & _).
  - vm_compute. reflexivity.
  - simpl. lia.
  - exists chain, imports, isolated, susceptible. repeat split; assumption.
Defined.

Lemma derivative_cumulative_terms_witness :
  derivative example_flux = Ok example_tdot /\
  (0 < length (SF.susceptible example_flux))%nat /\
  exists infectious_severe severe_recovered,
    SF.infectious_severe example_flux !! 0%nat = Some infectious_severe /\
    SF.severe_recovered example_flux !! 0%nat = Some severe_recovered /\
    Cum.hospitalized (TD.cumulative example_tdot) !! 0%nat
      = Some (infectious_severe + infectious_severe) /\
    Cum.critical (TD.cumulative example_tdot) !! 0%nat
      = Some (severe_recovered + severe_recovered).
Proof.
  split; [vm_compute; reflexivity|]. split; [vm_compute; lia|].
  destruct (derivative_cumulative_terms example_flux example_tdot 0)
    as (i_s & i_r & s_r & c_f & o_f & H1 & _ & H3 & _ & _ & H6 & _ & H8 & _).
  - vm_compute. reflexivity.
  - vm_compute. lia.
  - exists i_s, s_r. repeat split; assumption.
Defined.

Lemma stepODE_rk4_witness :
  stepODE example_msPerDay example_clock example_pop example_P (1 # 2) 0
    = Ok (example_step.1, example_step.2) /\
  exists k1 k2 k3 k4 tdot state,
    sumDerivatives [k1; k2; k3; k4] [1 / 6; 1 / 3; 1 / 3; 1 / 6] = Ok tdot /\
    weighted_sum (1 / 6) (1 / 3) (1 / 3) (1 / 6) k1 k2 k3 k4 tdot
                 (length (Cur.susceptible (TD.current k1))) /\
    advanceState example_pop tdot (1 # 2) (example_clock 3) (MP.ICUBeds example_P)
      = Ok state /\
    example_step.2 = 4%nat.
Proof.
  split; [vm_compute; reflexivity|].
  destruct (stepODE_rk4 example_msPerDay example_clock example_pop example_P (1 # 2) 0
              example_step.1 example_step.2)
    as (t0 & t1 & t2 & f1 & f2 & f3 & f4 & k1 & k2 & k3 & k4 & p1 & p2 & p3 & tdot & state
        & _ & _ & _ & _ & _ & _ & _ & _ & _ & _ & _ & _ & _ & _ & Hs & Hw & _ & Ha & _ & Hc).
  - vm_compute. reflexivity.
  - exists k1, k2, k3, k4, tdot, state.
    split; [exact Hs|]. split; [exact Hw|]. split; [exact Ha|exact Hc].
Defined.

(** * Further properties of the integrator *)

(** ** Shapes are kept *)

Lemma euler_state_chains (pop : STP.t) (tdot : TD.t) (dt now : number) (n : nat)
    (e : STP.t) :
  euler_state pop tdot dt now n e ->
  length <$> Cur.exposed (STP.current e) = length <$> take n (Cur.exposed (STP.current pop)).
Proof.
  intros (_ & Hn & _ & _ & Hch). apply list_eq. intros j.
  rewrite !list_lookup_fmap.
  destruct (Cur.exposed (STP.current e) !! j) as [chain|] eqn:Hj; simpl.
  - destruct (Hch j chain Hj) as (pc & tc & Hpc & _ & Hlen & ->).
    apply lookup_lt_Some in Hj. rewrite lookup_take_lt by lia. rewrite Hpc. simpl.
    f_equal. rewrite length_zip_with. lia.
  - apply lookup_ge_None in Hj. rewrite lookup_take_ge by lia. done.
Qed.

Lemma advanceState_shape (pop : STP.t) (tdot : TD.t) (dt now nICUBeds : number)
    (s : STP.t) :
  advanceState pop tdot dt now nICUBeds = Ok s -> keeps_shape pop s.
Proof.
  intros H. apply advanceState_Ok in H as (e & _ & _ & Hst & _ & Hc & Ho & Hsame).
  pose proof (euler_state_chains _ _ _ _ _ _ Hst) as Hch.
  destruct Hst as (_ & _ & Hl & _). destruct Hsame as (_ & Hexp & Hframe).
  split.
  - intros c.
    destruct (decide (c = current_critical)) as [->|Hnc]; [exact Hc|].
    destruct (decide (c = current_overflow)) as [->|Hno]; [exact Ho|].
    rewrite Hframe by done. apply Hl.
  - by rewrite Hexp.
Qed.

(** X1.  The state that [advanceState] returns has the shape of its input
    state: one entry per age group in every scalar compartment, and every
    exposed chain as long as the input's. *)
Theorem advanceState_keeps_shape (pop : STP.t) (tdot : TD.t) (dt now nICUBeds : number)
    (s : STP.t) :
  advanceState pop tdot dt now nICUBeds = Ok s -> keeps_shape pop s.
Proof. apply advanceState_shape. Qed.

Lemma keeps_shape_trans (pop s1 s2 : STP.t) :
  keeps_shape pop s1 -> keeps_shape s1 s2 -> keeps_shape pop s2.
Proof.
  intros [Hl1 Hc1] [Hl2 Hc2].
  pose proof (Hl1 current_infectious) as Hn. unfold read_pop in Hn. simpl in Hn.
  split.
  - intros c. rewrite Hl2. exact Hn.
  - rewrite Hc2, Hn. rewrite take_ge; [done|].
    apply (f_equal length) in Hc1. rewrite !length_fmap, length_take in Hc1. lia.
Qed.

Lemma keeps_shape_set_time (pop s : STP.t) (t : number) :
  keeps_shape pop s -> keeps_shape pop (set_time t s).
Proof.
  intros [Hl Hc]. split; [|done]. intros c.
  replace (read_pop c (set_time t s)) with (read_pop c s) by (by destruct c). apply Hl.
Qed.

Section ShapeFacts.
Variables (msPerDay : number) (clock : nat -> number).

Lemma stepODE_keeps_shape (pop : STP.t) (P : MP.t) (dt : number) (calls : nat)
    (s : STP.t) (c : nat) :
  stepODE msPerDay clock pop P dt calls = Ok (s, c) -> keeps_shape pop s.
Proof.
  unfold stepODE. intros H. inv_binds H. subst s.
  apply keeps_shape_set_time. by eapply advanceState_shape.
Qed.

Lemma steps_keeps_shape (P : MP.t) (dt : number) (m : nat) :
  forall (pop : STP.t) (calls : nat) (s : STP.t) (c : nat),
    steps msPerDay clock P dt (Datatypes.S m) pop calls = Ok (s, c) -> keeps_shape pop s.
Proof.
  induction m as [|m IH]; intros pop calls s c H.
  - simpl in H. apply bind_Ok in H as ([s1 c1] & H1 & H). injection H as <- <-.
    by eapply stepODE_keeps_shape.
  - change (steps msPerDay clock P dt (Datatypes.S (Datatypes.S m)) pop calls)
      with (let* r := stepODE msPerDay clock pop P dt calls in
            steps msPerDay clock P dt (Datatypes.S m) r.1 r.2) in H.
    apply bind_Ok in H as ([s1 c1] & H1 & H). simpl in H.
    eapply keeps_shape_trans; [by eapply stepODE_keeps_shape|by eapply IH].
Qed.

(** X2.  [evolve] changes neither the number of age groups nor the length
    of any exposed chain: the state it returns has the shape of its input
    state. *)
Theorem evolve_keeps_shape (pop : STP.t) (P : MP.t) (tMax : number)
    (sample : number -> number) (calls : nat) (s : STP.t) (c : nat) :
  evolve msPerDay clock pop P tMax sample calls = Ok (s, c) -> keeps_shape pop s.
Proof.
  rewrite evolve_steps. set (n := Z.max 1 _).
  destruct (Z.to_nat n) as [|m] eqn:Hm; [lia|].
  apply steps_keeps_shape.
Qed.
End ShapeFacts.

(** ** The redistribution wastes no bed *)





Lemma refill_pass_nothing_waiting (l : list (number * number)) : forall f : number,
  Forall (fun p => p.2 == 0) l -> Forall2 pair_eq (refill_pass l f).1 l.
Proof.
  induction l as [|p l IH]; intros f Hl; [constructor|].
  inversion Hl as [|? ? Hp Hl']; subst.
  cbn [refill_pass fst snd]. constructor; [|by apply IH].
  unfold pair_eq.
  destruct (refill_step_cases p f) as [[Hf ->]|[(Hf & Ho & ->)|(Hf & Ho & ->)]];
    cbn [fst snd]; lra.
Qed.

Lemma icu_pairs (pop : STP.t) (tdot : TD.t) (dt now : number) (n : nat) (e : STP.t) :
  euler_state pop tdot dt now n e ->
  (zip (Cur.critical (STP.current e)) (Cur.overflow (STP.current e))).*1
    = Cur.critical (STP.current e) /\
  (zip (Cur.critical (STP.current e)) (Cur.overflow (STP.current e))).*2
    = Cur.overflow (STP.current e).
Proof.
  intros (_ & _ & Hl & _).
  pose proof (Hl current_critical) as Hc. pose proof (Hl current_overflow) as Ho.
  unfold read_pop in Hc, Ho. simpl in Hc, Ho.
  split; [apply fst_zip|apply snd_zip]; lia.
Qed.



(** X5.  When the beds suffice for the critical patients after the Euler
    update and no one is in overflow, the redistribution moves no one:
    [critical] and [overflow] keep their values. *)
Theorem redistribute_with_room (pop : STP.t) (tdot : TD.t) (dt now nICUBeds : number)
    (e s : STP.t) :
  eulerUpdate pop tdot dt now = Ok e ->
  redistribute pop nICUBeds e = Ok s ->
  sum (Cur.critical (STP.current e)) <= nICUBeds ->
  Forall (fun o => o == 0) (Cur.overflow (STP.current e)) ->
  Forall2 Qeq (Cur.critical (STP.current s)) (Cur.critical (STP.current e)) /\
  Forall2 Qeq (Cur.overflow (STP.current s)) (Cur.overflow (STP.current e)).
Proof.
  intros He Hr Hroom Hnone.
  assert (H : advanceState pop tdot dt now nICUBeds = Ok s).
  { unfold advanceState. by rewrite He. }
  apply advanceState_Ok in H as (e' & He' & _ & Hst & Hzip & Hc & Ho & _).
  assert (e' = e) as -> by congruence.
  destruct (icu_pairs _ _ _ _ _ _ Hst) as [Hce Hoe].
  assert (Hcs : (zip (Cur.critical (STP.current s)) (Cur.overflow (STP.current s))).*1
                = Cur.critical (STP.current s)) by (apply fst_zip; lia).
  assert (Hos : (zip (Cur.critical (STP.current s)) (Cur.overflow (STP.current s))).*2
                = Cur.overflow (STP.current s)) by (apply snd_zip; lia).
  set (l := zip (Cur.critical (STP.current e)) (Cur.overflow (STP.current e))) in *.
  assert (Hpairs : Forall2 pair_eq (redistribute_pass nICUBeds l) l).
  { unfold redistribute_pass. cbv zeta.
    rewrite overflow_pass_idle by (apply ltb_false; rewrite Hce; lra). cbn [fst snd].
    apply refill_pass_nothing_waiting. rewrite <- Hoe in Hnone.
    by apply Forall_fmap in Hnone. }
  rewrite <- Hzip in Hpairs.
  split.
  - rewrite <- Hcs, <- Hce. by apply Forall2_pair_eq_fst.
  - rewrite <- Hos, <- Hoe. by apply Forall2_pair_eq_snd.
Qed.

(** ** Short, empty and backward spans; the time of the result *)

Lemma Math_round_below (x : number) (z : Z) : x < inject_Z z - (1 # 2) -> (Math_round x < z)%Z.
Proof.
  intros H. unfold Math_round.
  pose proof (Qfloor_le (x + (1 # 2))) as Hle.
  rewrite Zlt_Qlt. lra.
Qed.

Lemma steps_one (msPerDay : number) (clock : nat -> number) (P : MP.t) (dt : number)
    (pop : STP.t) (calls : nat) :
  steps msPerDay clock P dt 1 pop calls = stepODE msPerDay clock pop P dt calls.
Proof.
  simpl. by destruct (stepODE msPerDay clock pop P dt calls) as [[s c]| |].
Qed.

(** X6.  When the span [tMax - pop.time] is shorter than three quarters
    of a day, [evolve] is exactly one [stepODE] over the whole span.  This
    includes an empty span and a target before the state's time: [evolve]
    then still takes one step, of size zero or backwards. *)
Theorem evolve_short_span (msPerDay : number) (clock : nat -> number) (pop : STP.t)
    (P : MP.t) (tMax : number) (sample : number -> number) (calls : nat) :
  tMax - STP.time pop < 3 # 4 ->
  evolve msPerDay clock pop P tMax sample calls
  = stepODE msPerDay clock pop P ((tMax - STP.time pop) / inject_Z 1) calls.
Proof.
  intros Hspan. rewrite evolve_steps.
  assert (Hn : Z.max 1 (Math_round ((tMax - STP.time pop) / eulerStep)) = 1%Z).
  { apply Z.max_l.
    assert (Math_round ((tMax - STP.time pop) / eulerStep) < 2)%Z; [|lia].
    apply Math_round_below. unfold eulerStep.
    assert (Hd : (tMax - STP.time pop) / (1 # 2) == 2 * (tMax - STP.time pop)) by field.
    rewrite Hd. unfold inject_Z. lra. }
  rewrite Hn. apply steps_one.
Qed.

Lemma truncate_whole (x : number) (z : Z) : x == inject_Z z -> truncate x = z.
Proof.
  unfold Qeq, truncate. simpl. intros H. rewrite Z.mul_1_r in H. rewrite H.
  apply Z.quot_mul. lia.
Qed.

Lemma stepODE_time (msPerDay : number) (clock : nat -> number) (pop : STP.t) (P : MP.t)
    (dt : number) (calls : nat) (s : STP.t) (c : nat) :
  stepODE msPerDay clock pop P dt calls = Ok (s, c) ->
  STP.time s = inject_Z (truncate (STP.time pop + dt * msPerDay)).
Proof.
  unfold stepODE. intros H. inv_binds H. subst s. simpl.
  unfold new_Date in Hx1. destruct (gtb _ _); [discriminate|]. by injection Hx1 as <-.
Qed.

(** X7.  The time of a state is in milliseconds and the span of [evolve]
    in days: when [pop.time] is a whole number [t] of milliseconds and
    [msPerDay] an even whole number [2 * h], the state that
    [evolve(pop, P, pop.time + 1, sample)] returns has the time
    [t + 2 * h], one day after [pop.time]. *)
Theorem evolve_one_day (msPerDay : number) (clock : nat -> number) (pop : STP.t)
    (P : MP.t) (sample : number -> number) (calls : nat) (t h : Z) (s : STP.t) (c : nat) :
  STP.time pop == inject_Z t ->
  msPerDay == inject_Z (2 * h) ->
  evolve msPerDay clock pop P (STP.time pop + 1) sample calls = Ok (s, c) ->
  STP.time s = inject_Z (t + 2 * h).
Proof.
  intros Ht Hms H. rewrite evolve_steps in H.
  assert (Hn : Z.max 1 (Math_round ((STP.time pop + 1 - STP.time pop) / eulerStep)) = 2%Z).
  { rewrite (Math_round_comp _ 2); [done|]. unfold eulerStep. field. }
  rewrite Hn in H. simpl in H.
  apply bind_Ok in H as ([s1 c1] & H1 & H). cbv beta in H. simpl in H.
  apply bind_Ok in H as ([s2 c2] & H2 & H). injection H as <- <-.
  apply stepODE_time in H1, H2.
  assert (Hhalf : (STP.time pop + 1 - STP.time pop) / inject_Z 2 * msPerDay == inject_Z h).
  { rewrite Hms. rewrite !inject_Z_mult. field. }
  rewrite (truncate_whole _ (t + h)) in H1
    by (rewrite inject_Z_plus, <- Ht, <- Hhalf; reflexivity).
  rewrite H2, H1. f_equal. apply truncate_whole.
  rewrite Hhalf. rewrite !inject_Z_plus, inject_Z_mult. simpl. ring.
Qed.

(** ** The derivative conserves the population *)




Lemma exposed_chain_length (fluxOuts : list number) : forall fluxIn : number,
  length (exposed_chain fluxIn fluxOuts).1 = length fluxOuts.
Proof.
  induction fluxOuts as [|fluxOut rest IH]; intros fluxIn; simpl; [done|].
  specialize (IH fluxOut). destruct (exposed_chain fluxOut rest) as [g last].
  simpl in *. by rewrite IH.
Qed.


(** ** On rectangular inputs every read is defined *)

Lemma get_total {A : Type} (arr : list A) (i : nat) :
  (i < length arr)%nat -> exists x, get arr i = Ok x.
Proof.
  intros H. destruct (lookup_lt_is_Some_2 arr i H) as [x Hx].
  exists x. by apply get_Ok.
Qed.

Lemma get_array_total {A : Type} (arr : list (list A)) (i : nat) :
  (i < length arr)%nat -> exists x, get_array arr i = Ok x /\ arr !! i = Some x.
Proof.
  intros H. destruct (lookup_lt_is_Some_2 arr i H) as [x Hx].
  exists x. split; [by apply get_array_Ok|done].
Qed.

Lemma modify_total (arr : list number) (i : nat) (f : number -> number) :
  (i < length arr)%nat ->
  exists arr', modify arr i f = Ok arr' /\ length arr' = length arr.
Proof.
  intros H. unfold modify. destruct (get_total arr i H) as [x ->]. simpl.
  rewrite set_inside by done. eexists. split; [done|]. by rewrite length_insert.
Qed.

Lemma fmap_length_snoc {A : Type} (chains : list nat) (l : list (list A)) (x : list A)
    (a : nat) :
  length <$> l = take a chains -> chains !! a = Some (length x) ->
  length <$> (l ++ [x]) = take (Datatypes.S a) chains.
Proof.
  intros Hl Ha. rewrite fmap_app, Hl. simpl.
  by rewrite (take_S_r _ _ _ Ha).
Qed.

Lemma fmap_length_insert {A : Type} (l : list (list A)) (x y : list A) (a : nat) :
  l !! a = Some x -> length y = length x ->
  length <$> <[a:=y]> l = length <$> l.
Proof.
  intros Ha Hy. rewrite list_fmap_insert, Hy.
  apply list_insert_id. by rewrite list_lookup_fmap, Ha.
Qed.

(** Reads the next [get] of the goal, given that its index is in range. *)
Ltac read_next :=
  match goal with
  | |- context [get ?arr ?i] =>
      let x := fresh "x" in
      let H := fresh "H" in
      destruct (get_total arr i) as [x H]; [lia | rewrite H; clear H; cbn [bind]]
  end.

Ltac push_next :=
  match goal with
  | |- context [set ?arr ?i ?v] => rewrite (set_at_end arr i v) by lia; cbn [bind]
  end.

Lemma rectangular_lengths (pop : STP.t) :
  rectangular pop ->
  let n := length (Cur.infectious (STP.current pop)) in
  length (Cur.susceptible (STP.current pop)) = n /\
  length (Cur.exposed (STP.current pop)) = n /\
  length (Cur.severe (STP.current pop)) = n /\
  length (Cur.critical (STP.current pop)) = n /\
  length (Cur.overflow (STP.current pop)) = n.
Proof.
  intros [Hl He]. simpl.
  pose proof (Hl current_susceptible). pose proof (Hl current_severe).
  pose proof (Hl current_critical). pose proof (Hl current_overflow). auto.
Qed.

Lemma fluxes_total (time : Date) (pop : STP.t) (P : MP.t) :
  rectangular pop ->
  covers P (length (Cur.infectious (STP.current pop))) ->
  ~ MP.populationServed P == 0 ->
  exists flux, fluxes time pop P = Ok flux /\ flux_shape (chains_of pop) flux.
Proof.
  intros Hrect Hcov Hserved. unfold fluxes, div.
  destruct (Qeq_bool (MP.populationServed P) 0) eqn:Hq;
    [by apply Qeq_bool_eq in Hq|]. cbn [bind].
  set (frac := _ / _). clearbody frac.
  apply rectangular_lengths in Hrect as (Hs & He & Hsv & Hcr & Hov). simpl in *.
  set (n := length (Cur.infectious (STP.current pop))) in *.
  unfold covers, per_age_arrays in Hcov.
  repeat (apply Forall_cons in Hcov as [? Hcov]).
  destruct (for_up_total (fun a flux => flux_shape (take a (chains_of pop)) flux)
              (fluxes_body time pop P frac) n 0 SF.empty) as (flux & Hflux & Hshape).
  - intros a flux [_ Ha] [Harr Hch]. simpl in Ha.
    unfold flux_arrays in Harr. repeat (apply Forall_cons in Harr as [? Harr]).
    assert (Hlen : length (take a (chains_of pop)) = a).
    { rewrite length_take. unfold chains_of. rewrite length_fmap. lia. }
    rewrite Hlen in *.
    assert (Hle : length (SF.exposed flux) = a).
    { apply (f_equal length) in Hch. by rewrite length_fmap, Hlen in Hch. }
    unfold fluxes_body.
    destruct (get_array_total (Cur.exposed (STP.current pop)) a) as (chain & -> & Hc);
      [lia|]. cbn [bind].
    repeat first [read_next | push_next].
    eexists. split; [reflexivity|]. split.
    + unfold flux_arrays. cbn.
      assert (Hlen' : length (take (Datatypes.S a) (chains_of pop)) = Datatypes.S a).
      { rewrite length_take. unfold chains_of. rewrite length_fmap. lia. }
      rewrite Hlen'. repeat constructor; rewrite length_app; simpl; lia.
    + cbn. apply fmap_length_snoc; [done|].
      unfold chains_of. rewrite list_lookup_fmap, Hc. simpl. by rewrite length_map.
  - split; [by repeat constructor|done].
  - exists flux. split; [done|]. simpl in Hshape.
    rewrite take_ge in Hshape; [done|]. unfold chains_of. rewrite length_fmap. lia.
Qed.

Lemma derivative_total (chains : list nat) (flux : SF.t) :
  flux_shape chains flux ->
  exists grad, derivative flux = Ok grad /\ tdot_shape chains grad.
Proof.
  intros [Harr Hch]. unfold flux_arrays in Harr.
  repeat (apply Forall_cons in Harr as [? Harr]).
  assert (Hle : length (SF.exposed flux) = length chains).
  { apply (f_equal length) in Hch. by rewrite length_fmap in Hch. }
  unfold derivative.
  destruct (for_up_total (fun a g => tdot_shape (take a chains) g)
              (derivative_body flux) (length (SF.susceptible flux)) 0 TD.empty)
    as (grad & Hgrad & Hshape).
  - intros a g [_ Ha] [Hl Hc]. simpl in Ha.
    assert (Hlen : length (take a chains) = a) by (rewrite length_take; lia).
    rewrite Hlen in Hl.
    assert (Hge : length (Cur.exposed (TD.current g)) = a).
    { apply (f_equal length) in Hc. by rewrite length_fmap, Hlen in Hc. }
    pose proof (Hl current_susceptible). pose proof (Hl current_infectious).
    pose proof (Hl current_severe). pose proof (Hl current_critical).
    pose proof (Hl current_overflow). pose proof (Hl cumulative_recovered).
    pose proof (Hl cumulative_hospitalized). pose proof (Hl cumulative_critical).
    pose proof (Hl cumulative_fatality).
    unfold read_tdot in *. simpl in *.
    unfold derivative_body.
    destruct (get_array_total (SF.exposed flux) a) as (chain & -> & Hchain); [lia|].
    cbn [bind]. read_next. push_next.
    pose proof (exposed_chain_length chain x) as Hcl.
    destruct (exposed_chain x chain) as [gchain fluxIn]. simpl in Hcl.
    repeat first [read_next | push_next].
    eexists. split; [reflexivity|]. split.
    + assert (Hlen' : length (take (Datatypes.S a) chains) = Datatypes.S a)
        by (rewrite length_take; lia).
      rewrite Hlen'. intros []; cbn; rewrite length_app; simpl; lia.
    + cbn. apply fmap_length_snoc; [done|].
      rewrite <- Hch, list_lookup_fmap, Hchain. simpl. by rewrite Hcl.
  - split; [by intros []|done].
  - exists grad. split; [done|]. simpl in Hshape.
    rewrite take_ge in Hshape by lia. done.
Qed.

Ltac modify_next :=
  match goal with
  | |- context [modify ?arr ?i ?f] =>
      let arr' := fresh "arr" in
      let H := fresh "H" in
      let Hl := fresh "Hl" in
      destruct (modify_total arr i f) as (arr' & H & Hl);
      [lia | rewrite H; clear H; cbn [bind]]
  end.

Ltac tdot_lengths Hl :=
  pose proof (Hl current_susceptible); pose proof (Hl current_infectious);
  pose proof (Hl current_severe); pose proof (Hl current_critical);
  pose proof (Hl current_overflow); pose proof (Hl cumulative_recovered);
  pose proof (Hl cumulative_hospitalized); pose proof (Hl cumulative_critical);
  pose proof (Hl cumulative_fatality).

Lemma zero_loop_total (chains : list nat) (grad0 : TD.t) :
  tdot_shape chains grad0 ->
  exists s, for_up (length chains) 0 (zero_body grad0) TD.empty = Ok s /\
            tdot_shape chains s.
Proof.
  intros [Hl0 Hc0].
  assert (Hle : length (Cur.exposed (TD.current grad0)) = length chains).
  { apply (f_equal length) in Hc0. by rewrite length_fmap in Hc0. }
  destruct (for_up_total (fun a g => tdot_shape (take a chains) g)
              (zero_body grad0) (length chains) 0 TD.empty) as (s & Hs & Hshape).
  - intros a g [_ Ha] [Hl Hc]. simpl in Ha.
    assert (Hlen : length (take a chains) = a) by (rewrite length_take; lia).
    rewrite Hlen in Hl.
    assert (Hge : length (Cur.exposed (TD.current g)) = a).
    { apply (f_equal length) in Hc. by rewrite length_fmap, Hlen in Hc. }
    tdot_lengths Hl. unfold read_tdot in *. simpl in *.
    unfold zero_body. push_next.
    destruct (get_array_total (Cur.exposed (TD.current grad0)) a) as (chain & -> & Hchain);
      [lia|].
    cbn [bind]. repeat push_next.
    eexists. split; [reflexivity|]. split.
    + assert (Hlen' : length (take (Datatypes.S a) chains) = Datatypes.S a)
        by (rewrite length_take; lia).
      rewrite Hlen'. intros []; cbn; rewrite length_app; simpl; lia.
    + cbn. apply fmap_length_snoc; [done|].
      rewrite <- Hc0, list_lookup_fmap, Hchain. simpl. by rewrite length_map.
  - split; [by intros []|done].
  - exists s. split; [done|]. simpl in Hshape. by rewrite take_ge in Hshape by lia.
Qed.

Lemma forEach_add_stage_total (w : number) (gradChain : list number) :
  forall (i : nat) (chain : list number),
    (i + length gradChain <= length chain)%nat ->
    exists chain', forEach gradChain i (add_stage w) chain = Ok chain' /\
                   length chain' = length chain.
Proof.
  induction gradChain as [|e rest IH]; intros i chain Hi; simpl in *.
  - eauto.
  - unfold add_stage at 1.
    destruct (modify_total chain i (fun x => x + w * e)) as (c1 & -> & Hc1); [lia|].
    simpl. destruct (IH (Datatypes.S i) c1) as (c2 & Hc2 & Hl2); [lia|].
    exists c2. split; [done|]. lia.
Qed.

Lemma add_loop_total (scale : list number) (grad : TD.t) (i : nat) (chains : list nat)
    (s : TD.t) :
  tdot_shape chains grad -> tdot_shape chains s -> (i < length scale)%nat ->
  exists s', for_up (length chains) 0 (add_body scale grad i) s = Ok s' /\
             tdot_shape chains s'.
Proof.
  intros [Hlg Hcg] Hs Hi.
  assert (Hleg : length (Cur.exposed (TD.current grad)) = length chains).
  { apply (f_equal length) in Hcg. by rewrite length_fmap in Hcg. }
  destruct (for_up_total (fun _ g => tdot_shape chains g)
              (add_body scale grad i) (length chains) 0 s) as (s' & Hs' & Hshape);
    [|done|by exists s'].
  intros a g [_ Ha] [Hl Hc]. simpl in Ha.
  assert (Hle : length (Cur.exposed (TD.current g)) = length chains).
  { apply (f_equal length) in Hc. by rewrite length_fmap in Hc. }
  tdot_lengths Hl. tdot_lengths Hlg. unfold read_tdot in *. simpl in *.
  unfold add_body. read_next. read_next. modify_next. read_next. modify_next.
  destruct (get_array_total (Cur.exposed (TD.current grad)) a) as (gc & -> & Hgc); [lia|].
  cbn [bind].
  destruct (get_array_total (Cur.exposed (TD.current g)) a) as (sc & -> & Hsc); [lia|].
  cbn [bind].
  assert (Hgs : length gc = length sc).
  { assert (Hx : (length <$> Cur.exposed (TD.current grad)) !! a
                 = (length <$> Cur.exposed (TD.current g)) !! a) by congruence.
    rewrite !list_lookup_fmap, Hgc, Hsc in Hx. simpl in Hx. congruence. }
  destruct (forEach_add_stage_total x gc 0 sc) as (chain' & -> & Hchain'); [lia|].
  cbn [bind]. rewrite set_inside by lia. cbn [bind].
  repeat first [read_next | modify_next].
  eexists. split; [reflexivity|]. split.
  - intros []; cbn; lia.
  - cbn. rewrite (fmap_length_insert _ sc) by done. done.
Qed.

Lemma forEach_grads_total (scale : list number) (chains : list nat) (grads : list TD.t) :
  forall (i : nat) (s : TD.t),
    Forall (tdot_shape chains) grads -> tdot_shape chains s ->
    (i + length grads <= length scale)%nat ->
    exists s', forEach grads i
                 (fun grad i => for_up (length chains) 0 (add_body scale grad i)) s = Ok s' /\
               tdot_shape chains s'.
Proof.
  induction grads as [|grad rest IH]; intros i s Hg Hs Hi; simpl in *.
  - eauto.
  - apply Forall_cons in Hg as [Hgrad Hrest].
    destruct (add_loop_total scale grad i chains s) as (s1 & -> & Hs1); [done|done|lia|].
    simpl. apply IH; [done|done|lia].
Qed.

Lemma sumDerivatives_total (grads : list TD.t) (scale : list number) (chains : list nat) :
  grads <> [] -> Forall (tdot_shape chains) grads ->
  (length grads <= length scale)%nat ->
  exists tdot, sumDerivatives grads scale = Ok tdot /\ tdot_shape chains tdot.
Proof.
  intros Hne Hg Hlen. destruct grads as [|grad0 rest]; [done|].
  unfold sumDerivatives. cbn [lookup list_lookup].
  pose proof Hg as Hg'. apply Forall_cons in Hg' as [[Hl0 Hc0] _].
  pose proof (Hl0 current_susceptible) as Hn. unfold read_tdot in Hn. simpl in Hn.
  rewrite Hn.
  destruct (zero_loop_total chains grad0) as (s & -> & Hs); [done|]. cbn [bind].
  apply forEach_grads_total; [done|done|simpl in *; lia].
Qed.

(** ** The integrator returns on rectangular inputs *)

Lemma rectangular_well_shaped (pop : STP.t) (tdot : TD.t) :
  rectangular pop -> tdot_shape (chains_of pop) tdot -> well_shaped pop tdot.
Proof.
  intros [Hl He] [Ht Hc].
  assert (Hn : length (chains_of pop) = length (Cur.infectious (STP.current pop))).
  { unfold chains_of. by rewrite length_fmap. }
  rewrite Hn in Ht. split; [done|]. split; [done|]. split; [done|]. split.
  - apply (f_equal length) in Hc. rewrite length_fmap in Hc. lia.
  - intros age pc tc Hpc Htc.
    assert (Hx : (length <$> Cur.exposed (TD.current tdot)) !! age
                 = chains_of pop !! age) by (by rewrite Hc).
    unfold chains_of in Hx. rewrite !list_lookup_fmap, Hpc, Htc in Hx. simpl in Hx.
    congruence.
Qed.

Lemma keeps_shape_rectangular (pop s : STP.t) :
  rectangular pop -> keeps_shape pop s ->
  rectangular s /\ chains_of s = chains_of pop /\
  length (Cur.infectious (STP.current s)) = length (Cur.infectious (STP.current pop)).
Proof.
  intros [Hl He] [Hsl Hsc].
  pose proof (Hsl current_infectious) as Hn. unfold read_pop in Hn. simpl in Hn.
  rewrite take_ge in Hsc by lia.
  split; [|done]. split.
  - intros c. rewrite Hsl. done.
  - apply (f_equal length) in Hsc. rewrite !length_fmap in Hsc. lia.
Qed.

Lemma slope_total (time : Date) (pop : STP.t) (P : MP.t) :
  rectangular pop ->
  covers P (length (Cur.infectious (STP.current pop))) ->
  ~ MP.populationServed P == 0 ->
  exists flux k,
    fluxes time pop P = Ok flux /\ derivative flux = Ok k /\
    tdot_shape (chains_of pop) k.
Proof.
  intros Hr Hc Hs. destruct (fluxes_total time pop P Hr Hc Hs) as (flux & Hf & Hfs).
  destruct (derivative_total _ _ Hfs) as (k & Hk & Hks). eauto.
Qed.

Lemma advance_total (pop : STP.t) (tdot : TD.t) (dt now nICUBeds : number) :
  rectangular pop -> tdot_shape (chains_of pop) tdot ->
  exists s,
    advanceState pop tdot dt now nICUBeds = Ok s /\
    rectangular s /\ chains_of s = chains_of pop /\
    length (Cur.infectious (STP.current s)) = length (Cur.infectious (STP.current pop)).
Proof.
  intros Hr Ht.
  destruct (advanceState_total pop tdot dt now nICUBeds) as (s & Hs);
    [by apply rectangular_well_shaped|].
  exists s. split; [done|]. apply keeps_shape_rectangular; [done|].
  by eapply advanceState_shape.
Qed.

Lemma new_Date_valid (t : number) : valid_time t -> new_Date t = Ok (truncate t).
Proof.
  unfold valid_time, new_Date, gtb. intros H.
  apply Qle_bool_iff in H. by rewrite H.
Qed.

Section Totality.
Variables (msPerDay : number) (clock : nat -> number).

Lemma stepODE_returns (pop : STP.t) (P : MP.t) (dt : number) (calls : nat) :
  rectangular pop ->
  covers P (length (Cur.infectious (STP.current pop))) ->
  ~ MP.populationServed P == 0 ->
  valid_time (STP.time pop) ->
  valid_time (STP.time pop + (dt / 2) * msPerDay) ->
  valid_time (STP.time pop + dt * msPerDay) ->
  exists s,
    stepODE msPerDay clock pop P dt calls = Ok (s, (calls + 4)%nat) /\
    rectangular s /\
    length (Cur.infectious (STP.current s)) = length (Cur.infectious (STP.current pop)) /\
    STP.time s = valueOf (truncate (STP.time pop + dt * msPerDay)).
Proof.
  intros Hr Hc Hs Ht0 Ht1 Ht2. unfold stepODE.
  rewrite !new_Date_valid by done. cbn [bind].
  destruct (slope_total (truncate (STP.time pop)) pop P Hr Hc Hs)
    as (f1 & k1 & Hf & Hk & Hk1).
  rewrite Hf. cbn [bind]. rewrite Hk. cbn [bind]. clear Hf Hk.
  destruct (advance_total pop k1 (dt / 2) (clock calls) (MP.ICUBeds P) Hr Hk1)
    as (p1 & -> & Hr1 & Hc1 & Hn1). cbn [bind].
  destruct (slope_total (truncate (STP.time pop + dt / 2 * msPerDay)) p1 P Hr1)
    as (f2 & k2 & Hf & Hk & Hk2); [by rewrite Hn1|done|].
  rewrite Hf. cbn [bind]. rewrite Hk. cbn [bind]. clear Hf Hk.
  rewrite Hc1 in Hk2.
  destruct (advance_total pop k2 (dt / 2) (clock (calls + 1)%nat) (MP.ICUBeds P) Hr Hk2)
    as (p2 & -> & Hr2 & Hc2 & Hn2). cbn [bind].
  destruct (slope_total (truncate (STP.time pop + dt / 2 * msPerDay)) p2 P Hr2)
    as (f3 & k3 & Hf & Hk & Hk3); [by rewrite Hn2|done|].
  rewrite Hf. cbn [bind]. rewrite Hk. cbn [bind]. clear Hf Hk.
  rewrite Hc2 in Hk3.
  destruct (advance_total pop k3 dt (clock (calls + 2)%nat) (MP.ICUBeds P) Hr Hk3)
    as (p3 & -> & Hr3 & Hc3 & Hn3). cbn [bind].
  destruct (slope_total (truncate (STP.time pop + dt * msPerDay)) p3 P Hr3)
    as (f4 & k4 & Hf & Hk & Hk4); [by rewrite Hn3|done|].
  rewrite Hf. cbn [bind]. rewrite Hk. cbn [bind]. clear Hf Hk.
  rewrite Hc3 in Hk4.
  destruct (sumDerivatives_total [k1; k2; k3; k4] [1 / 6; 1 / 3; 1 / 3; 1 / 6]
              (chains_of pop)) as (tdot & -> & Htdot);
    [done|by repeat apply Forall_cons_2|simpl; lia|]. cbn [bind].
  destruct (advance_total pop tdot dt (clock (calls + 3)%nat) (MP.ICUBeds P) Hr Htdot)
    as (state & -> & Hrs & Hcs & Hns). cbn [bind].
  eexists. split; [reflexivity|].
  destruct Hrs as [Hl He]. split; [|split; [by destruct state|by destruct state]].
  split.
  - intros c. replace (read_pop c (set_time _ state)) with (read_pop c state)
      by (by destruct c).
    rewrite Hl. by destruct state.
  - by destruct state.
Qed.

(** X9.  One RK4 step returns on every rectangular input: when every
    compartment of the state and the array of exposed chains have one
    entry per age group, every per-age array of the parameters has at least
    as many entries, [populationServed] is not zero and the three time
    values are valid dates, [stepODE] reads no absent element, throws
    nothing, and has read the clock four times. *)
Theorem stepODE_total (pop : STP.t) (P : MP.t) (dt : number) (calls : nat) :
  rectangular pop ->
  covers P (length (Cur.infectious (STP.current pop))) ->
  ~ MP.populationServed P == 0 ->
  valid_time (STP.time pop) ->
  valid_time (STP.time pop + (dt / 2) * msPerDay) ->
  valid_time (STP.time pop + dt * msPerDay) ->
  exists s, stepODE msPerDay clock pop P dt calls = Ok (s, (calls + 4)%nat).
Proof.
  intros Hr Hc Hs Ht0 Ht1 Ht2.
  destruct (stepODE_returns pop P dt calls Hr Hc Hs Ht0 Ht1 Ht2) as (s & H & _).
  by exists s.
Qed.

Lemma truncate_nonneg (x : number) :
  0 <= x -> 0 <= inject_Z (truncate x) /\ inject_Z (truncate x) <= x.
Proof.
  intros Hx. assert (Ht : truncate x = Qfloor x).
  { unfold truncate. destruct x as [n d]. simpl.
    apply Z.quot_div_nonneg; [|lia]. unfold Qle in Hx. simpl in Hx. lia. }
  rewrite Ht. split; [|apply Qfloor_le].
  change 0 with (inject_Z 0). rewrite <- Zle_Qle.
  change 0%Z with (Qfloor 0). by apply Qfloor_resp_le.
Qed.

Lemma valid_time_between (t : number) :
  0 <= t -> t <= 8640000000000000 -> valid_time t.
Proof. intros H0 H1. unfold valid_time. by rewrite Qabs_pos. Qed.

Lemma steps_total (P : MP.t) (dt : number) (m : nat) :
  forall (pop : STP.t) (calls : nat),
    rectangular pop ->
    covers P (length (Cur.infectious (STP.current pop))) ->
    ~ MP.populationServed P == 0 ->
    0 <= dt * msPerDay -> 0 <= STP.time pop ->
    STP.time pop + inject_Z (Z.of_nat m) * (dt * msPerDay) <= 8640000000000000 ->
    exists s,
      steps msPerDay clock P dt m pop calls = Ok (s, (calls + 4 * m)%nat) /\
      rectangular s /\
      length (Cur.infectious (STP.current s)) = length (Cur.infectious (STP.current pop)).
Proof.
  induction m as [|m IH]; intros pop calls Hr Hc Hs Hstep Ht HB.
  - exists pop. simpl. rewrite Nat.add_0_r. done.
  - rewrite Nat2Z.inj_succ, <- Z.add_1_r, inject_Z_plus in HB.
    assert (Hm : 0 <= inject_Z (Z.of_nat m)).
    { change 0 with (inject_Z 0). rewrite <- Zle_Qle. lia. }
    pose proof (Qmult_le_0_compat _ _ Hm Hstep) as Hms.
    assert (Hhalf : dt / 2 * msPerDay == dt * msPerDay * (1 # 2)) by field.
    assert (HB' : STP.time pop + dt * msPerDay
                  + inject_Z (Z.of_nat m) * (dt * msPerDay) <= 8640000000000000).
    { assert (Hone : inject_Z 1 == 1) by reflexivity. rewrite Hone in HB. lra. }
    clear HB.
    destruct (stepODE_returns pop P dt calls) as (s1 & H1 & Hr1 & Hn1 & Ht1);
      [done|done|done|..].
    { apply valid_time_between; lra. }
    { apply valid_time_between; rewrite Hhalf; lra. }
    { apply valid_time_between; lra. }
    destruct (truncate_nonneg (STP.time pop + dt * msPerDay)) as [Hlo Hhi]; [lra|].
    destruct (IH s1 (calls + 4)%nat) as (s & H & Hrs & Hns);
      [done|by rewrite Hn1|done|done|..].
    { rewrite Ht1. exact Hlo. }
    { rewrite Ht1. unfold valueOf. lra. }
    exists s. split; [|split; [done|lia]].
    cbn [steps]. rewrite H1. cbn [bind fst snd]. rewrite H. do 2 f_equal. lia.
Qed.

(** X10.  [evolve] returns on every rectangular input whose time values
    stay valid dates: with a state and parameters as for one step, a time
    that is not negative, a target [tMax] not before it and a day of
    [msPerDay >= 0] milliseconds such that
    [pop.time + (tMax - pop.time) * msPerDay] is at most 8.64e15, every
    step of the run is defined; the state returned is rectangular again,
    with as many age groups, and the clock was read four times per step. *)
Theorem evolve_total (pop : STP.t) (P : MP.t) (tMax : number)
    (sample : number -> number) (calls : nat) :
  rectangular pop ->
  covers P (length (Cur.infectious (STP.current pop))) ->
  ~ MP.populationServed P == 0 ->
  0 <= msPerDay -> 0 <= STP.time pop -> STP.time pop <= tMax ->
  STP.time pop + (tMax - STP.time pop) * msPerDay <= 8640000000000000 ->
  exists s,
    evolve msPerDay clock pop P tMax sample calls
      = Ok (s, (calls + 4 * Z.to_nat (Z.max 1 (Math_round ((tMax - STP.time pop) / eulerStep))))%nat) /\
    rectangular s /\
    length (Cur.infectious (STP.current s)) = length (Cur.infectious (STP.current pop)).
Proof.
  intros Hr Hc Hs Hms Ht HtMax HB. rewrite evolve_steps.
  set (n := Z.max 1 _).
  assert (Hn : 0 < inject_Z n).
  { change 0 with (inject_Z 0). rewrite <- Zlt_Qlt. lia. }
  assert (HdT : 0 <= tMax - STP.time pop) by lra.
  apply steps_total; [done|done|done| |done|].
  - apply Qmult_le_0_compat; [|done]. apply Qle_shift_div_l; [done|]. lra.
  - rewrite Z2Nat.id by lia.
    assert (Hx : inject_Z n * ((tMax - STP.time pop) / inject_Z n * msPerDay)
                 == (tMax - STP.time pop) * msPerDay) by (field; lra).
    rewrite Hx. exact HB.
Qed.
End Totality.

(** ** The linear fluxes *)

Lemma fluxes_body_linear (time : Date) (pop : STP.t) (P : MP.t) (frac : number)
    (age : nat) (flux flux' : SF.t) :
  fluxes_body time pop P frac age flux = Ok flux' ->
  forall proj c rate, (proj, c, rate) ∈ linear_fluxes ->
    exists x r,
      read_pop c pop !! age = Some x /\ rate P !! age = Some r /\
      set (proj flux) age (x * r) = Ok (proj flux').
Proof.
  unfold fluxes_body. intros H. inv_binds H. subst flux'.
  repeat match goal with
         | H : get _ _ = Ok _ |- _ => apply get_Ok in H
         end.
  intros proj c rate Hin. unfold linear_fluxes in Hin.
  repeat (apply elem_of_cons in Hin as [[= -> -> ->]|Hin]);
    [..|by apply elem_of_nil in Hin];
    eexists _, _; (split; [|split]); unfold read_pop; simpl; eassumption.
Qed.


Lemma fluxes_linear_at (time : Date) (pop : STP.t) (P : MP.t) (flux : SF.t) (age : nat)
    (proj : SF.t -> list number) (c : compartment) (rate : MP.t -> list number) :
  fluxes time pop P = Ok flux ->
  (age < length (Cur.infectious (STP.current pop)))%nat ->
  (proj, c, rate) ∈ linear_fluxes ->
  exists x r,
    read_pop c pop !! age = Some x /\ rate P !! age = Some r /\
    proj flux !! age = Some (x * r).
Proof.
  unfold fluxes. intros H Hage Hin. apply bind_Ok in H as (frac & _ & H).
  destruct (for_up_push (fluxes_body time pop P frac) proj
              (fun a v => exists x r, read_pop c pop !! a = Some x /\
                                      rate P !! a = Some r /\ v = x * r))
    with (count := length (Cur.infectious (STP.current pop))) (age := 0%nat)
         (s := SF.empty) (s' := flux) as (_ & _ & Hv); [|done| |].
  - intros a s s' Hb Hl.
    destruct (fluxes_body_linear _ _ _ _ _ _ _ Hb proj c rate Hin) as (x & r & Hx & Hr & Hs).
    exists (x * r). split; [eauto|]. by eapply set_push.
  - unfold linear_fluxes in Hin.
    repeat (apply elem_of_cons in Hin as [[= -> -> ->]|Hin]); try done.
    by apply elem_of_nil in Hin.
  - destruct (Hv age) as (v & Hv' & x & r & Hx & Hr & ->); [lia|]. eauto.
Qed.

(** X11.  Besides the susceptible and the exposed fluxes, every flux is
    a stock times a rate of the same age group: infectious times
    [rate.recovery] and [rate.severe], severe times [rate.discharge] and
    [rate.critical], critical times [rate.stabilize] and [rate.fatality],
    overflow times [rate.stabilize] and [rate.overflowFatality]. *)
Theorem fluxes_linear (time : Date) (pop : STP.t) (P : MP.t) (flux : SF.t) (age : nat)
    (proj : SF.t -> list number) (c : compartment) (rate : MP.t -> list number) :
  fluxes time pop P = Ok flux ->
  (age < length (Cur.infectious (STP.current pop)))%nat ->
  (proj, c, rate) ∈ linear_fluxes ->
  exists x r,
    read_pop c pop !! age = Some x /\ rate P !! age = Some r /\
    proj flux !! age = Some (x * r).
Proof. apply fluxes_linear_at. Qed.

(** ** Cumulative counts only grow *)

Lemma advanceState_entries_nonneg (pop : STP.t) (tdot : TD.t) (dt now nICUBeds : number)
    (s : STP.t) (c : compartment) :
  advanceState pop tdot dt now nICUBeds = Ok s -> Forall (Qle 0) (read_pop c s).
Proof.
  intros H. apply advanceState_Ok in H as (e & _ & _ & Hst & Hzip & Hc & Ho & Hsame).
  pose proof (redistribute_pass_nonneg nICUBeds _ (euler_state_icu _ _ _ _ _ _ Hst)) as Hnn.
  rewrite <- Hzip in Hnn.
  destruct (decide (c = current_critical)) as [->|Hnc];
    [|destruct (decide (c = current_overflow)) as [->|Hno]].
  - unfold read_pop. simpl.
    rewrite <- (fst_zip (Cur.critical (STP.current s)) (Cur.overflow (STP.current s)))
      by lia.
    apply Forall_fmap. eapply Forall_impl; [exact Hnn|]. by intros p [? _].
  - unfold read_pop. simpl.
    rewrite <- (snd_zip (Cur.critical (STP.current s)) (Cur.overflow (STP.current s)))
      by lia.
    apply Forall_fmap. eapply Forall_impl; [exact Hnn|]. by intros p [_ ?].
  - destruct Hsame as (_ & _ & Hframe). rewrite Hframe by done.
    destruct Hst as (_ & _ & _ & Hv & _).
    apply Forall_lookup_2. intros j v Hj. by eapply euler_entry_nonneg, Hv.
Qed.







Ltac in_table :=
  unfold linear_fluxes; repeat (apply elem_of_cons; first [by left | right]).




Section Monotone.
Variables (msPerDay : number) (clock : nat -> number).




End Monotone.

(** * The exported totals *)

Lemma lookup_assign (o : object) (key : string) (v : value) :
  key <> "__proto__" -> assign o key v !! key = Some v.
Proof. intros H. unfold assign. rewrite decide_False by done. apply lookup_insert_eq. Qed.

Lemma lookup_assign_ne (o : object) (key key' : string) (v : value) :
  key <> key' -> assign o key v !! key' = o !! key'.
Proof.
  intros H. unfold assign. destruct (decide (key = "__proto__")); [done|].
  by apply lookup_insert_ne.
Qed.

(** A key that is not copied keeps its value. *)
Lemma copy_ages_other (arr : list number) (key : string) (ages : list string) :
  forall (i : nat) (o : object),
    key ∉ ages -> copy_ages ages i arr o !! key = o !! key.
Proof.
  induction ages as [|age rest IH]; intros i o Hkey; simpl; [done|].
  apply not_elem_of_cons in Hkey as [Hne Hrest].
  rewrite IH by done. by apply lookup_assign_ne.
Qed.

(** The last assignment to a key is the one that stays. *)
Lemma copy_ages_last (arr : list number) (age : string) (ages : list string) :
  forall (i j : nat) (o : object),
    ages !! j = Some age -> age <> "__proto__" ->
    (forall j', (j < j')%nat -> ages !! j' <> Some age) ->
    copy_ages ages i arr o !! age = Some (element arr (i + j)).
Proof.
  induction ages as [|a rest IH]; intros i j o Hj Hp Hlast; [done|].
  destruct j as [|j]; simpl in *.
  - injection Hj as ->. rewrite copy_ages_other.
    + rewrite Nat.add_0_r. by apply lookup_assign.
    + intros Hin. apply list_elem_of_lookup in Hin as [j' Hj'].
      apply (Hlast (S j')); [lia|done].
  - rewrite (IH (S i) j); [by rewrite Nat.add_succ_r|done|done|].
    intros j' Hlt. apply (Hlast (S j')). lia.
Qed.

Lemma reduce_plus_sum (arr : list number) (t : number) :
  reduce_plus arr = Ok t -> t == sum arr.
Proof.
  destruct arr as [|a rest]; [done|]. intros [= <-].
  rewrite sum_cons, fold_left_Qplus. reflexivity.
Qed.

Lemma collect_current_Ok (ages : list string) (arr : list number) (o : object) :
  collect_current ages arr = Ok o ->
  arr <> [] /\
  exists t, reduce_plus arr = Ok t /\
            o = assign (copy_ages ages 0 arr ∅) "total" (Num t).
Proof.
  unfold collect_current. intros H. apply bind_Ok in H as (t & Ht & [= <-]).
  split; [by destruct arr|]. eauto.
Qed.

Lemma collect_current_cases (ages : list string) (arr : list number) :
  (arr = [] /\ collect_current ages arr = TypeError) \/
  (arr <> [] /\ exists o, collect_current ages arr = Ok o).
Proof.
  destruct arr as [|a rest]; [by left|]. right. split; [done|].
  unfold collect_current. simpl. eauto.
Qed.

(** ** When [collectTotals] throws *)

Lemma collect_point_cases (ages : list string) (d : STP.t) :
  (no_total d /\ collect_point ages d = TypeError) \/
  (~ no_total d /\ exists tp, collect_point ages d = Ok tp).
Proof.
  unfold no_total, current_scalars, collect_point.
  destruct (collect_current_cases ages (Cur.susceptible (STP.current d)))
    as [[-> ->]|[H1 [o1 ->]]]; [left; split; [|done]; rewrite !elem_of_cons; tauto|].
  destruct (collect_current_cases ages (Cur.severe (STP.current d)))
    as [[-> ->]|[H2 [o2 ->]]]; [left; split; [|done]; rewrite !elem_of_cons; tauto|].
  destruct (collect_current_cases ages (Cur.overflow (STP.current d)))
    as [[-> ->]|[H3 [o3 ->]]]; [left; split; [|done]; rewrite !elem_of_cons; tauto|].
  destruct (collect_current_cases ages (Cur.critical (STP.current d)))
    as [[-> ->]|[H4 [o4 ->]]]; [left; split; [|done]; rewrite !elem_of_cons; tauto|].
  destruct (collect_current_cases ages (Cur.infectious (STP.current d)))
    as [[-> ->]|[H5 [o5 ->]]]; [left; split; [|done]; rewrite !elem_of_cons; tauto|].
  right. split; [|simpl; eauto].
  rewrite !elem_of_cons, elem_of_nil. intros [?|[?|[?|[?|[?|[]]]]]]; congruence.
Qed.

Lemma collect_loop_Ok (ages : list string) (trajectory : list STP.t) :
  forall (i : nat) (acc res : list ETP.t),
    forEach trajectory i
      (fun d _ res => let* tp := collect_point ages d in Ok (res ++ [tp])) acc = Ok res ->
    exists tps,
      res = acc ++ tps /\
      Forall2 (fun d tp => collect_point ages d = Ok tp) trajectory tps.
Proof.
  induction trajectory as [|d rest IH]; intros i acc res H; simpl in H.
  - injection H as <-. exists []. by rewrite app_nil_r.
  - apply bind_Ok in H as (acc' & H1 & H). apply bind_Ok in H1 as (tp & Htp & [= <-]).
    apply IH in H as (tps & -> & Hall). exists (tp :: tps).
    split; [by rewrite <- app_assoc|by constructor].
Qed.

Lemma collect_loop_cases (ages : list string) (trajectory : list STP.t) :
  forall (i : nat) (acc : list ETP.t),
    (Exists no_total trajectory /\
     forEach trajectory i
       (fun d _ res => let* tp := collect_point ages d in Ok (res ++ [tp])) acc
     = TypeError) \/
    (Forall (fun d => ~ no_total d) trajectory /\
     exists res,
       forEach trajectory i
         (fun d _ res => let* tp := collect_point ages d in Ok (res ++ [tp])) acc
       = Ok res).
Proof.
  induction trajectory as [|d rest IH]; intros i acc; simpl.
  - right. split; [constructor|eauto].
  - destruct (collect_point_cases ages d) as [[Hd ->]|[Hd [tp ->]]]; simpl.
    + left. split; [by apply Exists_cons_hd|done].
    + destruct (IH (S i) (acc ++ [tp])) as [[Hr ->]|[Hr [res ->]]].
      * left. split; [by apply Exists_cons_tl|done].
      * right. split; [by constructor|eauto].
Qed.

(** X13.  [collectTotals] throws a [TypeError] exactly when some time
    point of the trajectory has an empty array in one of the categories
    [susceptible], [severe], [overflow], [critical] or [infectious] of
    [current], whose total is a [reduce] with no initial value; otherwise
    it returns, whatever [ages] is.  Empty cumulative arrays and an empty
    [exposed] never throw. *)
Theorem collectTotals_throws (trajectory : list STP.t) (ages : list string) :
  (collectTotals trajectory ages = TypeError <-> Exists no_total trajectory) /\
  ((exists res, collectTotals trajectory ages = Ok res)
   <-> Forall (fun d => ~ no_total d) trajectory).
Proof.
  unfold collectTotals.
  destruct (collect_loop_cases ages trajectory 0 []) as [[He ->]|[Hf [res ->]]].
  - split; [done|]. split; [by intros [res ?]|].
    intros Hf. exfalso. apply Exists_exists in He as (d & Hd & Hno).
    rewrite Forall_forall in Hf. by apply (Hf d).
  - split; [|split; [done|eauto]]. split; [done|].
    intros He. exfalso. apply Exists_exists in He as (d & Hd & Hno).
    rewrite Forall_forall in Hf. by apply (Hf d).
Qed.

(** ** What an exported time point holds *)

Lemma collect_point_Ok (ages : list string) (d : STP.t) (tp : ETP.t) :
  collect_point ages d = Ok tp ->
  ETP.time tp = STP.time d /\
  (forall c, exists t,
     t == sum (read_pop c d) /\
     exported c tp = assign (copy_ages ages 0 (read_pop c d) ∅) "total" (Num t)) /\
  ECur.exposed (ETP.current tp) = collect_exposed (Cur.exposed (STP.current d)).
Proof.
  unfold collect_point. intros H.
  apply bind_Ok in H as (o1 & H1 & H). apply bind_Ok in H as (o2 & H2 & H).
  apply bind_Ok in H as (o3 & H3 & H). apply bind_Ok in H as (o4 & H4 & H).
  apply bind_Ok in H as (o5 & H5 & H). injection H as <-.
  apply collect_current_Ok in H1 as (_ & t1 & Ht1 & ->).
  apply collect_current_Ok in H2 as (_ & t2 & Ht2 & ->).
  apply collect_current_Ok in H3 as (_ & t3 & Ht3 & ->).
  apply collect_current_Ok in H4 as (_ & t4 & Ht4 & ->).
  apply collect_current_Ok in H5 as (_ & t5 & Ht5 & ->).
  apply reduce_plus_sum in Ht1, Ht2, Ht3, Ht4, Ht5.
  split; [done|]. split; [|done].
  intros []; unfold read_pop; simpl; eexists; (split; [|reflexivity]);
    first [eassumption | reflexivity].
Qed.

Lemma collectTotals_Ok (trajectory : list STP.t) (ages : list string) (res : list ETP.t) :
  collectTotals trajectory ages = Ok res ->
  Forall2 (fun d tp => collect_point ages d = Ok tp) trajectory res.
Proof.
  unfold collectTotals. intros H. apply collect_loop_Ok in H as (tps & -> & H). done.
Qed.

(** X14.  [collectTotals] exports the time points one for one, in order
    and with their times, and in each of them the [total] of every scalar
    category, current or cumulative, is the sum of that category over the
    age groups of the time point, whatever the names in [ages] are (also
    when one of them is the string total). *)
Theorem collectTotals_totals (trajectory : list STP.t) (ages : list string)
    (res : list ETP.t) :
  collectTotals trajectory ages = Ok res ->
  length res = length trajectory /\
  forall i d, trajectory !! i = Some d ->
    exists tp,
      res !! i = Some tp /\ ETP.time tp = STP.time d /\
      forall c, exists t,
        exported c tp !! "total" = Some (Num t) /\ t == sum (read_pop c d).
Proof.
  intros H. apply collectTotals_Ok in H.
  split; [symmetry; by eapply Forall2_length|].
  intros i d Hd. destruct (Forall2_lookup_l _ _ _ _ _ H Hd) as (tp & Htp & Hpoint).
  exists tp. split; [done|].
  apply collect_point_Ok in Hpoint as (Ht & Hc & _). split; [done|].
  intros c. destruct (Hc c) as (t & Hsum & ->). exists t. split; [|done].
  by apply lookup_assign.
Qed.

(** X15.  For every scalar category, current or cumulative, the exported
    record holds under an age name the entry of the array at the position
    of that name in [ages] (at its last position when the name occurs more
    than once), and [undefined] when the array is shorter; this for every
    name other than total, which the total overwrites, and [__proto__]. *)
Theorem collectTotals_ages (trajectory : list STP.t) (ages : list string)
    (res : list ETP.t) (i j : nat) (d : STP.t) (age : string) :
  collectTotals trajectory ages = Ok res ->
  trajectory !! i = Some d ->
  ages !! j = Some age ->
  (forall j', (j < j')%nat -> ages !! j' <> Some age) ->
  age <> "total" -> age <> "__proto__" ->
  exists tp,
    res !! i = Some tp /\
    forall c, exported c tp !! age = Some (element (read_pop c d) j).
Proof.
  intros H Hd Hj Hlast Htotal Hproto. apply collectTotals_Ok in H.
  destruct (Forall2_lookup_l _ _ _ _ _ H Hd) as (tp & Htp & Hpoint).
  exists tp. split; [done|].
  apply collect_point_Ok in Hpoint as (_ & Hc & _).
  intros c. destruct (Hc c) as (t & _ & ->).
  rewrite lookup_assign_ne by done.
  by rewrite (copy_ages_last _ age ages 0 j).
Qed.

(** ** The exposed record *)

Lemma pretty_N_go_ne (c : Ascii.ascii) (rest : string) (x : N) :
  (forall n, pretty_N_char n <> c) ->
  forall s, s <> String c rest -> pretty_N_go x s <> String c rest.
Proof.
  intros Hc. induction (N.lt_wf_0 x) as [x _ IH]; intros s Hs.
  assert (x = 0 \/ 0 < x)%N as [->|Hx] by lia.
  - by rewrite pretty_N_go_0.
  - rewrite pretty_N_go_step by done. apply IH; [by apply N.div_lt|].
    intros [= Hd _]. by apply (Hc (x `mod` 10)%N).
Qed.

Lemma pretty_nat_ne (c : Ascii.ascii) (rest : string) (i : nat) :
  (forall n, pretty_N_char n <> c) -> pretty i <> String c rest.
Proof.
  intros Hc. unfold pretty, pretty_nat, pretty, pretty_N.
  destruct (decide (N.of_nat i = 0%N)).
  - intros [= Hd _]. by apply (Hc 0%N).
  - by apply pretty_N_go_ne.
Qed.

Lemma pretty_nat_ne_total (i : nat) : pretty i <> "total".
Proof.
  apply pretty_nat_ne. intros n. unfold pretty_N_char. by repeat case_match.
Qed.

Lemma pretty_nat_ne_proto (i : nat) : pretty i <> "__proto__".
Proof.
  apply pretty_nat_ne. intros n. unfold pretty_N_char. by repeat case_match.
Qed.

Lemma sum_chains_other (key : string) (chains : list (list number)) :
  forall (i : nat) (o : object),
    (forall j, (j < length chains)%nat -> key <> pretty (i + j)%nat) ->
    sum_chains chains i o !! key = o !! key.
Proof.
  induction chains as [|chain rest IH]; intros i o Hkey; simpl; [done|].
  rewrite IH.
  - apply lookup_assign_ne. intros Heq. apply (Hkey 0%nat); [simpl; lia|].
    by rewrite Nat.add_0_r.
  - intros j Hj. rewrite Nat.add_succ_l, <- Nat.add_succ_r. apply Hkey. simpl. lia.
Qed.

Lemma sum_chains_index (chains : list (list number)) :
  forall (i j : nat) (o : object) (chain : list number),
    chains !! j = Some chain ->
    sum_chains chains i o !! pretty (i + j)%nat = Some (Num (sum chain)).
Proof.
  induction chains as [|c rest IH]; intros i j o chain Hj; [done|].
  destruct j as [|j]; simpl in *.
  - injection Hj as ->. rewrite sum_chains_other.
    + rewrite Nat.add_0_r. apply lookup_assign, pretty_nat_ne_proto.
    + intros j _ Heq. apply (inj pretty) in Heq. lia.
  - rewrite Nat.add_succ_r, <- Nat.add_succ_l. by apply IH.
Qed.

Lemma add_chains_sum (chains : list (list number)) :
  forall a : number, fold_left add_chain chains a == a + sum (sum <$> chains).
Proof.
  induction chains as [|chain rest IH]; intros a.
  - simpl. rewrite sum_nil. lra.
  - cbn [fold_left]. rewrite IH, fmap_cons, sum_cons. unfold add_chain.
    rewrite fold_left_Qplus. unfold sum. lra.
Qed.

(** X16.  The exported [exposed] record is keyed by the index of the age
    group in decimal, not by the names in [ages]: under the index [j] it
    holds the sum of the stages of group [j], under total the sum over all
    stages of all groups, and it has no other property. *)
Theorem collectTotals_exposed (trajectory : list STP.t) (ages : list string)
    (res : list ETP.t) (i : nat) (d : STP.t) :
  collectTotals trajectory ages = Ok res ->
  trajectory !! i = Some d ->
  exists tp,
    res !! i = Some tp /\
    (exists t, ECur.exposed (ETP.current tp) !! "total" = Some (Num t) /\
               t == sum (sum <$> Cur.exposed (STP.current d))) /\
    (forall j chain,
       Cur.exposed (STP.current d) !! j = Some chain ->
       ECur.exposed (ETP.current tp) !! pretty j = Some (Num (sum chain))) /\
    (forall key,
       key <> "total" ->
       (forall j, (j < length (Cur.exposed (STP.current d)))%nat -> key <> pretty j) ->
       ECur.exposed (ETP.current tp) !! key = None).
Proof.
  intros H Hd. apply collectTotals_Ok in H.
  destruct (Forall2_lookup_l _ _ _ _ _ H Hd) as (tp & Htp & Hpoint).
  exists tp. split; [done|].
  apply collect_point_Ok in Hpoint as (_ & _ & ->). unfold collect_exposed.
  split; [|split].
  - eexists. split.
    + rewrite sum_chains_other; [by apply lookup_assign|].
      intros j _ Heq. by apply (pretty_nat_ne_total (0 + j)).
    + rewrite add_chains_sum. lra.
  - intros j chain Hj. by apply (sum_chains_index _ 0 j).
  - intros key Htotal Hkey. rewrite sum_chains_other by done.
    rewrite lookup_assign_ne by done. apply lookup_empty.
Qed.

(** ** Every state of a run is feasible *)

Lemma advanceState_nowhere_negative (pop : STP.t) (tdot : TD.t) (dt now nICUBeds : number)
    (s : STP.t) :
  advanceState pop tdot dt now nICUBeds = Ok s -> nowhere_negative s.
Proof.
  intros H. split; [intros c; by eapply advanceState_entries_nonneg|].
  apply advanceState_Ok in H as (e & _ & _ & Hst & _ & _ & _ & Hsame).
  destruct Hsame as (_ & -> & _). destruct Hst as (_ & _ & _ & _ & Hch).
  apply Forall_lookup_2. intros j chain Hj.
  destruct (Hch j chain Hj) as (pc & tc & _ & _ & _ & ->).
  apply Forall_lookup_2. intros i v Hi.
  apply lookup_zip_with_Some in Hi as (x & dx & -> & _ & _). apply gz_nonneg.
Qed.


Section Feasible.
Variables (msPerDay : number) (clock : nat -> number).

(** The state of a step is the state of its last [advanceState], with the
    time set. *)
Lemma stepODE_last (pop : STP.t) (P : MP.t) (dt : number) (calls : nat)
    (s : STP.t) (c : nat) :
  stepODE msPerDay clock pop P dt calls = Ok (s, c) ->
  exists tdot state t,
    advanceState pop tdot dt (clock (calls + 3)%nat) (MP.ICUBeds P) = Ok state /\
    s = set_time t state.
Proof.
  unfold stepODE. intros H. inv_binds H. subst s. eauto.
Qed.

Lemma steps_last (P : MP.t) (dt : number) (m : nat) :
  forall (pop : STP.t) (calls : nat) (s : STP.t) (c : nat),
    steps msPerDay clock P dt (Datatypes.S m) pop calls = Ok (s, c) ->
    exists pop' calls', stepODE msPerDay clock pop' P dt calls' = Ok (s, c).
Proof.
  induction m as [|m IH]; intros pop calls s c H.
  - simpl in H. apply bind_Ok in H as ([s1 c1] & H1 & H). injection H as <- <-. eauto.
  - change (steps msPerDay clock P dt (Datatypes.S (Datatypes.S m)) pop calls)
      with (let* r := stepODE msPerDay clock pop P dt calls in
            steps msPerDay clock P dt (Datatypes.S m) r.1 r.2) in H.
    apply bind_Ok in H as ([s1 c1] & _ & H). simpl in H. by eapply IH.
Qed.

Lemma evolve_last (pop : STP.t) (P : MP.t) (tMax : number)
    (sample : number -> number) (calls : nat) (s : STP.t) (c : nat) :
  evolve msPerDay clock pop P tMax sample calls = Ok (s, c) ->
  exists pop' tdot dt now state t,
    advanceState pop' tdot dt now (MP.ICUBeds P) = Ok state /\ s = set_time t state.
Proof.
  rewrite evolve_steps. set (n := Z.max 1 _).
  destruct (Z.to_nat n) as [|m] eqn:Hm; [lia|]. intros H.
  apply steps_last in H as (pop' & calls' & H).
  apply stepODE_last in H as (tdot & state & t & H & ->). eauto 10.
Qed.

(** X17.  Whatever the input state, the parameters and the target time,
    a state that [evolve] returns has no negative entry: not in a current
    or cumulative compartment, and not in a stage of an exposed chain. *)
Theorem evolve_nowhere_negative (pop : STP.t) (P : MP.t) (tMax : number)
    (sample : number -> number) (calls : nat) (s : STP.t) (c : nat) :
  evolve msPerDay clock pop P tMax sample calls = Ok (s, c) -> nowhere_negative s.
Proof.
  intros H. apply evolve_last in H as (pop' & tdot & dt & now & state & t & H & ->).
  apply advanceState_nowhere_negative in H as [Hc He]. split; [|by destruct state].
  intros cc. replace (read_pop cc (set_time t state)) with (read_pop cc state)
    by (by destruct cc).
  apply Hc.
Qed.

End Feasible.

(** ** The further properties at the examples *)

Ltac all_entries :=
  simpl; repeat (first [apply Forall_nil_2 | apply Forall_cons_2]); try discriminate;
  simpl; try lia.

Lemma example_rectangular : rectangular example_pop.
Proof. split; [by intros []|done]. Qed.

Lemma example_covers : covers example_P (length (Cur.infectious (STP.current example_pop))).
Proof. unfold covers, per_age_arrays. all_entries. Qed.

Lemma example_served : ~ MP.populationServed example_P == 0.
Proof. intros H. discriminate H. Qed.

(** The example state can be evolved over one day. *)
Lemma example_day :
  exists s c,
    evolve example_msPerDay example_clock example_pop example_P
      (STP.time example_pop + 1) example_sample 0 = Ok (s, c).
Proof.
  rewrite evolve_steps.
  destruct (steps_total example_msPerDay example_clock example_P
              ((STP.time example_pop + 1 - STP.time example_pop)
               / inject_Z (Z.max 1 (Math_round
                   ((STP.time example_pop + 1 - STP.time example_pop) / eulerStep))))
              (Z.to_nat (Z.max 1 (Math_round
                   ((STP.time example_pop + 1 - STP.time example_pop) / eulerStep))))
              example_pop 0) as (s & H & _).
  - apply example_rectangular.
  - apply example_covers.
  - apply example_served.
  - vm_compute. discriminate.
  - discriminate.
  - vm_compute. discriminate.
  - eauto.
Qed.

Lemma advanceState_keeps_shape_witness :
  exists s,
    advanceState two_groups zero_derivative 1 0 7 = Ok s /\ keeps_shape two_groups s.
Proof.
  eexists. split; [vm_compute; reflexivity|].
  apply (advanceState_keeps_shape two_groups zero_derivative 1 0 7).
  vm_compute. reflexivity.
Defined.

Lemma evolve_keeps_shape_witness :
  exists s c,
    evolve example_msPerDay example_clock example_pop example_P
      (STP.time example_pop + 1) example_sample 0 = Ok (s, c) /\
    keeps_shape example_pop s.
Proof.
  destruct example_day as (s & c & H). exists s, c. split; [exact H|].
  exact (evolve_keeps_shape _ _ _ _ _ _ _ _ _ H).
Defined.



Lemma redistribute_with_room_witness :
  exists e s,
    eulerUpdate two_groups zero_derivative 1 0 = Ok e /\
    redistribute two_groups 12 e = Ok s /\
    sum (Cur.critical (STP.current e)) <= 12 /\
    Forall (fun o => o == 0) (Cur.overflow (STP.current e)) /\
    Forall2 Qeq (Cur.critical (STP.current s)) (Cur.critical (STP.current e)) /\
    Forall2 Qeq (Cur.overflow (STP.current s)) (Cur.overflow (STP.current e)).
Proof.
  eexists _, _.
  split; [vm_compute; reflexivity|]. split; [vm_compute; reflexivity|].
  split; [vm_compute; discriminate|].
  split; [repeat constructor|].
  eapply (redistribute_with_room two_groups zero_derivative 1 0 12).
  - vm_compute. reflexivity.
  - vm_compute. reflexivity.
  - vm_compute. discriminate.
  - repeat constructor.
Defined.

Lemma evolve_short_span_witness :
  STP.time example_pop + (1 # 2) - STP.time example_pop < 3 # 4 /\
  evolve example_msPerDay example_clock example_pop example_P
    (STP.time example_pop + (1 # 2)) example_sample 0
  = stepODE example_msPerDay example_clock example_pop example_P
      ((STP.time example_pop + (1 # 2) - STP.time example_pop) / inject_Z 1) 0.
Proof.
  split; [vm_compute; reflexivity|].
  apply (evolve_short_span example_msPerDay example_clock example_pop example_P
           (STP.time example_pop + (1 # 2)) example_sample 0).
  vm_compute. reflexivity.
Defined.

Lemma evolve_one_day_witness :
  STP.time example_pop == inject_Z 1600000000000 /\
  example_msPerDay == inject_Z (2 * 43200000) /\
  exists s c,
    evolve example_msPerDay example_clock example_pop example_P
      (STP.time example_pop + 1) example_sample 0 = Ok (s, c) /\
    STP.time s = inject_Z (1600000000000 + 2 * 43200000).
Proof.
  split; [reflexivity|]. split; [reflexivity|].
  destruct example_day as (s & c & H). exists s, c. split; [exact H|].
  eapply (evolve_one_day example_msPerDay example_clock example_pop example_P
            example_sample 0 1600000000000 43200000); [reflexivity|reflexivity|exact H].
Defined.


Lemma stepODE_total_witness :
  rectangular example_pop /\
  covers example_P (length (Cur.infectious (STP.current example_pop))) /\
  ~ MP.populationServed example_P == 0 /\
  valid_time (STP.time example_pop) /\
  valid_time (STP.time example_pop + ((1 # 2) / 2) * example_msPerDay) /\
  valid_time (STP.time example_pop + (1 # 2) * example_msPerDay) /\
  exists s,
    stepODE example_msPerDay example_clock example_pop example_P (1 # 2) 0
    = Ok (s, (0 + 4)%nat).
Proof.
  split; [apply example_rectangular|]. split; [apply example_covers|].
  split; [apply example_served|].
  split; [vm_compute; discriminate|]. split; [vm_compute; discriminate|].
  split; [vm_compute; discriminate|].
  apply (stepODE_total example_msPerDay example_clock example_pop example_P (1 # 2) 0).
  - apply example_rectangular.
  - apply example_covers.
  - apply example_served.
  - vm_compute. discriminate.
  - vm_compute. discriminate.
  - vm_compute. discriminate.
Defined.

Lemma evolve_total_witness :
  rectangular example_pop /\
  covers example_P (length (Cur.infectious (STP.current example_pop))) /\
  ~ MP.populationServed example_P == 0 /\
  0 <= example_msPerDay /\ 0 <= STP.time example_pop /\
  STP.time example_pop <= STP.time example_pop + 1 /\
  STP.time example_pop + (STP.time example_pop + 1 - STP.time example_pop) * example_msPerDay
    <= 8640000000000000 /\
  exists s,
    evolve example_msPerDay example_clock example_pop example_P
      (STP.time example_pop + 1) example_sample 0
    = Ok (s, (0 + 4 * Z.to_nat (Z.max 1 (Math_round
                 ((STP.time example_pop + 1 - STP.time example_pop) / eulerStep))))%nat) /\
    rectangular s /\
    length (Cur.infectious (STP.current s))
    = length (Cur.infectious (STP.current example_pop)).
Proof.
  split; [apply example_rectangular|]. split; [apply example_covers|].
  split; [apply example_served|].
  split; [discriminate|]. split; [discriminate|].
  split; [vm_compute; discriminate|]. split; [vm_compute; discriminate|].
  apply (evolve_total example_msPerDay example_clock example_pop example_P
           (STP.time example_pop + 1) example_sample 0).
  - apply example_rectangular.
  - apply example_covers.
  - apply example_served.
  - discriminate.
  - discriminate.
  - vm_compute. discriminate.
  - vm_compute. discriminate.
Defined.

Lemma fluxes_linear_witness :
  fluxes 1600000000000%Z example_pop example_P = Ok example_flux /\
  (1 < length (Cur.infectious (STP.current example_pop)))%nat /\
  (SF.critical_fatality, current_critical, MP.rate_fatality) ∈ linear_fluxes /\
  exists x r,
    read_pop current_critical example_pop !! 1%nat = Some x /\
    MP.rate_fatality example_P !! 1%nat = Some r /\
    SF.critical_fatality example_flux !! 1%nat = Some (x * r).
Proof.
  split; [vm_compute; reflexivity|]. split; [simpl; lia|].
  split; [in_table|].
  apply (fluxes_linear 1600000000000%Z example_pop example_P example_flux 1
           SF.critical_fatality current_critical MP.rate_fatality).
  - vm_compute. reflexivity.
  - simpl. lia.
  - in_table.
Defined.


(** The example trajectory is exported. *)
Lemma example_collects :
  exists res, collectTotals example_trajectory example_ages = Ok res.
Proof. apply is_ok_true. vm_compute. reflexivity. Qed.

Lemma collectTotals_totals_witness :
  exists res,
    collectTotals example_trajectory example_ages = Ok res /\
    length res = length example_trajectory /\
    forall i d, example_trajectory !! i = Some d ->
      exists tp,
        res !! i = Some tp /\ ETP.time tp = STP.time d /\
        forall c, exists t,
          exported c tp !! "total" = Some (Num t) /\ t == sum (read_pop c d).
Proof.
  destruct example_collects as [res H]. exists res. split; [exact H|].
  exact (collectTotals_totals example_trajectory example_ages res H).
Defined.

Lemma collectTotals_ages_witness :
  exists res d,
    collectTotals example_trajectory example_ages = Ok res /\
    example_trajectory !! 1%nat = Some d /\
    example_ages !! 1%nat = Some "10-19" /\
    (forall j', (1 < j')%nat -> example_ages !! j' <> Some "10-19") /\
    "10-19" <> "total" /\ "10-19" <> "__proto__" /\
    exists tp,
      res !! 1%nat = Some tp /\
      forall c, exported c tp !! "10-19" = Some (element (read_pop c d) 1).
Proof.
  assert (Hlast : forall j', (1 < j')%nat -> example_ages !! j' <> Some "10-19").
  { intros [|[|j']] Hj; [lia|lia|done]. }
  destruct example_collects as [res H]. exists res. eexists.
  split; [exact H|]. split; [reflexivity|].
  split; [reflexivity|]. split; [exact Hlast|]. split; [done|]. split; [done|].
  apply (collectTotals_ages example_trajectory example_ages res 1 1 _ "10-19" H).
  - reflexivity.
  - reflexivity.
  - exact Hlast.
  - done.
  - done.
Defined.

Lemma collectTotals_exposed_witness :
  exists res d,
    collectTotals example_trajectory example_ages = Ok res /\
    example_trajectory !! 1%nat = Some d /\
    exists tp,
      res !! 1%nat = Some tp /\
      (exists t, ECur.exposed (ETP.current tp) !! "total" = Some (Num t) /\
                 t == sum (sum <$> Cur.exposed (STP.current d))) /\
      (forall j chain,
         Cur.exposed (STP.current d) !! j = Some chain ->
         ECur.exposed (ETP.current tp) !! pretty j = Some (Num (sum chain))) /\
      (forall key,
         key <> "total" ->
         (forall j, (j < length (Cur.exposed (STP.current d)))%nat -> key <> pretty j) ->
         ECur.exposed (ETP.current tp) !! key = None).
Proof.
  destruct example_collects as [res H]. exists res. eexists.
  split; [exact H|]. split; [reflexivity|].
  apply (collectTotals_exposed example_trajectory example_ages res 1 _ H).
  reflexivity.
Defined.

Lemma evolve_nowhere_negative_witness :
  exists s c,
    evolve example_msPerDay example_clock example_pop example_P
      (STP.time example_pop + 1) example_sample 0 = Ok (s, c) /\
    nowhere_negative s.
Proof.
  destruct example_day as (s & c & H). exists s, c. split; [exact H|].
  exact (evolve_nowhere_negative _ _ _ _ _ _ _ _ _ H).
Defined.

